(** * CLAP-APP: the streaming acoustic-analysis pipeline of [src/App.tsx]

    A shallow embedding of the audio callback ([processor.onaudioprocess]),
    of [processAudioChunk], [startListening], [stopListening] and
    [generateSummary], and of the React state and refs they read and write.

    JavaScript numbers are kept behind the interface [Number]: every
    definition of the pipeline is written once against that interface
    and is read in two ways,
    - at [float] (IEEE 754 binary64, Rocq's primitive floats): the program
      as it runs, rounding included;
    - at [R]: the same program with exact arithmetic.

    What the program computes in binary64 is related to the exact
    values through [B64.toR], the real number a double stands for, and
    the bounds on the rounding are derived from the specification of
    the primitive operations ([SpecFloat], [FloatAxioms]). *)

From Stdlib Require Import String.
From Stdlib Require Import List ZArith Lia Bool Permutation Sorted.
From Stdlib Require Import Floats Reals Lra.
From Stdlib Require DecimalString.
From Stdlib Require Uint63.
Import ListNotations.

#[local] Set Warnings "-inexact-float".

(** ** JavaScript numbers *)

(** The operations of the number type that the pipeline uses. *)
Class Number (A : Type) : Type := {
  of_nat : nat -> A;                (* an integer such as [length] or a byte *)
  lit_0_1 : A;                      (* the literal 0.1 *)
  lit_0_01 : A;                     (* the literal 0.01 *)
  num_add : A -> A -> A;
  num_sub : A -> A -> A;
  num_mul : A -> A -> A;
  num_div : A -> A -> A;
  num_lt : A -> A -> bool;          (* [<]; [a > b] is [num_lt b a] *)
  Math_sqrt : A -> A;
  Math_abs : A -> A;
  Math_ceil : A -> Z;
  Math_max2 : A -> A -> A;          (* one step of Math.max: highest, next *)
  Math_min2 : A -> A -> A;          (* one step of Math.min: lowest, next *)
  Math_fround : A -> A              (* a store into a Float32Array *)
}.

(** *** binary64 *)

Module F64.

Definition of_nat (n : nat) : float :=
  PrimFloat.of_uint63 (Uint63.of_Z (Z.of_nat n)).

(** [Math.ceil] of a finite number, as an integer.  A number is
    [(-1)^s * m * 2^e]. *)
Definition ceil (x : float) : Z :=
  match Prim2SF x with
  | S754_finite s m e =>
      let n := if s then Z.neg m else Z.pos m in
      if (0 <=? e)%Z then (n * 2 ^ e)%Z else (- ((- n) / 2 ^ (- e)))%Z
  | _ => 0%Z
  end.

(** [Math.max] keeps [highest] unless the next number is greater, or is
    +0 where [highest] is -0; a NaN makes the result NaN. *)
Definition max2 (highest x : float) : float :=
  if PrimFloat.is_nan highest || PrimFloat.is_nan x then PrimFloat.nan
  else if PrimFloat.ltb highest x then x
  else if PrimFloat.is_zero highest && PrimFloat.is_zero x
          && PrimFloat.get_sign highest && negb (PrimFloat.get_sign x)
       then x
  else highest.

Definition min2 (lowest x : float) : float :=
  if PrimFloat.is_nan lowest || PrimFloat.is_nan x then PrimFloat.nan
  else if PrimFloat.ltb x lowest then x
  else if PrimFloat.is_zero lowest && PrimFloat.is_zero x
          && negb (PrimFloat.get_sign lowest) && PrimFloat.get_sign x
       then x
  else lowest.

(** Rounding to binary32 (24 bits of precision, [emax = 128]), the value
    a [Float32Array] element holds after a store. *)
Definition fround (x : float) : float :=
  match Prim2SF x with
  | S754_finite s m e =>
      SF2Prim (binary_normalize 24 128 (if s then Z.neg m else Z.pos m) e s)
  | _ => x
  end.

End F64.

#[export] Instance float_Number : Number float := {|
  of_nat := F64.of_nat;
  lit_0_1 := 0.1%float;
  lit_0_01 := 0.01%float;
  num_add := PrimFloat.add;
  num_sub := PrimFloat.sub;
  num_mul := PrimFloat.mul;
  num_div := PrimFloat.div;
  num_lt := PrimFloat.ltb;
  Math_sqrt := PrimFloat.sqrt;
  Math_abs := PrimFloat.abs;
  Math_ceil := F64.ceil;
  Math_max2 := F64.max2;
  Math_min2 := F64.min2;
  Math_fround := F64.fround
|}.

(** *** Exact arithmetic *)

Module Exact.

Definition lt (a b : R) : bool := if Rlt_dec a b then true else false.

(** The least integer not below [x]. *)
Definition ceil (x : R) : Z := (- (up (- x) - 1))%Z.

(** The sum of a list of reals. *)
Definition Rsum (l : list R) : R := fold_right Rplus 0%R l.

End Exact.

#[export] Instance R_Number : Number R := {|
  of_nat := INR;
  lit_0_1 := (1 / 10)%R;
  lit_0_01 := (1 / 100)%R;
  num_add := Rplus;
  num_sub := Rminus;
  num_mul := Rmult;
  num_div := Rdiv;
  num_lt := Exact.lt;
  Math_sqrt := sqrt;
  Math_abs := Rabs;
  Math_ceil := Exact.ceil;
  Math_max2 := Rmax;
  Math_min2 := Rmin;
  Math_fround := fun x => x
|}.

(** ** Data model *)

(** [type Status = 'idle' | 'loading' | 'listening' | 'error'] *)
Inductive Status : Type := Idle | Loading | Listening | Error.

Definition Status_eqb (a b : Status) : bool :=
  match a, b with
  | Idle, Idle | Loading, Loading | Listening, Listening | Error, Error => true
  | _, _ => false
  end.

(** 0.975 s at 16 kHz, the length of the waveform the classifier takes. *)
Definition FRAME_SAMPLES : nat := Z.to_nat 15600.
(** [analyser.frequencyBinCount] for [fftSize = 2048]. *)
Definition frequencyBinCount : nat := 1024.

Arguments FRAME_SAMPLES : simpl never.
Arguments frequencyBinCount : simpl never.

Section Pipeline.

Context {A : Type} {NumA : Number A}.

(** [interface Detection] *)
Record Detection : Type := {
  id : string;
  label : string;
  score : A;
  timestamp : Z
}.

(** [calculatedMetrics], the array
    [[avgVolume, peakVolume, volumeRange, silencePercent, noiseFloor]]. *)
Record NoiseMetrics : Type := {
  avgVolume : A;
  peakVolume : A;
  volumeRange : A;
  silencePercent : A;
  noiseFloor : A
}.

(** The text held by the [summary] state.  The text that
    [generateSummary] builds for a non-empty detection list is kept
    symbolic: it is a function of the detections and of the metrics. *)
Inductive Summary : Type :=
| NoSummary          (* '' *)
| NoSoundsDetected   (* 'No sounds were detected during this listening session.' *)
| SessionSummary (ds : list Detection) (noiseMetrics : option NoiseMetrics).

(** The React state and the refs of [App], and the number of
    [processAudioChunk] calls suspended at [await scores.data()]. *)
Record State : Type := {
  status : Status;
  detections : list Detection;
  error : string;
  model : bool;                          (* [model !== null] *)
  classNames : list string;
  summary : Summary;
  spectrumData : list A;
  analyserRef : bool;                    (* [analyserRef.current !== null] *)
  audioBufferRef : list A;
  scriptProcessorRef : bool;             (* [onaudioprocess] is installed *)
  isListeningRef : bool;
  volumeHistoryRef : list A;
  spectrumSnapshotsRef : list (list N);  (* [Uint8Array[]] *)
  inflight : nat
}.

(** What one audio callback brings: the burst of samples, the value
    [Math.random()] returns if it is asked, and the bytes
    [getByteFrequencyData] delivers. *)
Record AudioProcessingEvent : Type := {
  inputData : list A;
  random : A;
  byteFrequencyData : list N
}.

(** ** The audio callback *)

(** [Array.from(inputData).some(sample => Math.abs(sample) > 0.01)] *)
Definition hasSound (input : list A) : bool :=
  existsb (fun sample => num_lt lit_0_01 (Math_abs sample)) input.

(** [new Uint8Array(n)] filled by [getByteFrequencyData]. *)
Definition fill_Uint8Array (n : nat) (data : list N) : list N :=
  firstn n (data ++ repeat 0%N n).

(** The RMS of a chunk: [Math.sqrt(sum / audioData.length)] where [sum]
    accumulates [audioData[i] * audioData[i]] from 0. *)
Definition rms (audioData : list A) : A :=
  let sum := fold_left (fun sum x => num_add sum (num_mul x x)) audioData (of_nat 0) in
  Math_sqrt (num_div sum (of_nat (length audioData))).

(** [processAudioChunk], up to the call of the model: the result is the
    new state and the waveform handed to [model.execute], if any. *)
Definition processAudioChunk (s : State) : State * option (list A) :=
  if negb (model s) || (length (classNames s) =? 0) || negb (isListeningRef s)
  then (s, None)
  else
    let audioData := firstn FRAME_SAMPLES (audioBufferRef s) in
    ({| status := status s;
        detections := detections s;
        error := error s;
        model := model s;
        classNames := classNames s;
        summary := summary s;
        spectrumData := spectrumData s;
        analyserRef := analyserRef s;
        audioBufferRef := skipn FRAME_SAMPLES (audioBufferRef s);
        scriptProcessorRef := scriptProcessorRef s;
        isListeningRef := isListeningRef s;
        volumeHistoryRef := volumeHistoryRef s ++ [rms audioData];
        spectrumSnapshotsRef := spectrumSnapshotsRef s;
        inflight := S (inflight s) |},
     Some audioData).

(** The snapshot list after the capture test of the callback. *)
Definition captureSnapshot (e : AudioProcessingEvent) (s : State) : list (list N) :=
  if hasSound (inputData e)
     && (analyserRef s
         && (length (spectrumSnapshotsRef s) <? 50)
         && num_lt (random e) lit_0_1)
  then spectrumSnapshotsRef s ++ [fill_Uint8Array frequencyBinCount (byteFrequencyData e)]
  else spectrumSnapshotsRef s.

(** [processor.onaudioprocess] *)
Definition onaudioprocess (e : AudioProcessingEvent) (s : State)
  : State * option (list A) :=
  let currentBuffer := audioBufferRef s in
  let s' :=
    {| status := status s;
       detections := detections s;
       error := error s;
       model := model s;
       classNames := classNames s;
       summary := summary s;
       spectrumData := spectrumData s;
       analyserRef := analyserRef s;
       audioBufferRef := currentBuffer ++ inputData e;
       scriptProcessorRef := scriptProcessorRef s;
       isListeningRef := isListeningRef s;
       volumeHistoryRef := volumeHistoryRef s;
       spectrumSnapshotsRef := captureSnapshot e s;
       inflight := inflight s |} in
  if FRAME_SAMPLES <=? length (audioBufferRef s')
  then processAudioChunk s'
  else (s', None).

(** ** Detections *)

(** The [setDetections] update of [processAudioChunk], guarded by
    [topPredictions.length > 0]. *)
Definition ingest (topPredictions prev : list Detection) : list Detection :=
  if 0 <? length topPredictions
  then firstn 20 (topPredictions ++ prev)
  else prev.

(** The rest of [processAudioChunk], after [await scores.data()]. *)
Definition inferenceDone (topPredictions : list Detection) (s : State) : State :=
  {| status := status s;
     detections := ingest topPredictions (detections s);
     error := error s;
     model := model s;
     classNames := classNames s;
     summary := summary s;
     spectrumData := spectrumData s;
     analyserRef := analyserRef s;
     audioBufferRef := audioBufferRef s;
     scriptProcessorRef := scriptProcessorRef s;
     isListeningRef := isListeningRef s;
     volumeHistoryRef := volumeHistoryRef s;
     spectrumSnapshotsRef := spectrumSnapshotsRef s;
     inflight := pred (inflight s) |}.

(** ** Session statistics *)

(** One step of the sort under the comparator [(a, b) => a - b]:
    [x] goes in front of the first element that does not compare
    below it.  The comparator is consistent on numbers, and then the
    result of [Array.prototype.sort], a stable sort, is this one. *)
Fixpoint insert (x : A) (sorted : list A) : list A :=
  match sorted with
  | [] => [x]
  | y :: rest =>
      if num_lt (num_sub y x) (of_nat 0)
      then y :: insert x rest
      else x :: sorted
  end.

(** [[...volumes].sort((a, b) => a - b)] *)
Definition sortAscending (volumes : list A) : list A :=
  fold_right insert [] volumes.

(** [l.reduce((a, b) => a + b, 0)] *)
Definition sum (l : list A) : A := fold_left num_add l (of_nat 0).

(** [Math.max(first, ...rest)] and [Math.min(first, ...rest)] *)
Definition Math_max (first : A) (rest : list A) : A :=
  fold_left Math_max2 rest first.
Definition Math_min (first : A) (rest : list A) : A :=
  fold_left Math_min2 rest first.

(** [Math.min(...volumes)], the [minVolume] of [stopListening]; it is
    not called on an empty history. *)
Definition minVolume (volumes : list A) : option A :=
  match volumes with
  | [] => None
  | v :: vs => Some (Math_min v vs)
  end.

(** The lowest tenth of the sorted history:
    [sortedVolumes.slice(0, Math.ceil(sortedVolumes.length * 0.1))]. *)
Definition noiseFloorSamples (volumes : list A) : list A :=
  let sortedVolumes := sortAscending volumes in
  firstn (Z.to_nat (Math_ceil (num_mul (of_nat (length sortedVolumes)) lit_0_1)))
         sortedVolumes.

(** [calculatedMetrics] of [stopListening]: [null] on an empty history. *)
Definition calculateMetrics (volumes : list A) : option NoiseMetrics :=
  match volumes with
  | [] => None
  | v :: vs =>
      let avg := num_div (sum volumes) (of_nat (length volumes)) in
      let peak := Math_max v vs in
      let min := Math_min v vs in
      let silentSamples := length (filter (fun v => num_lt v lit_0_01) volumes) in
      let lowest := noiseFloorSamples volumes in
      Some {| avgVolume := avg;
              peakVolume := peak;
              volumeRange := num_sub peak min;
              silencePercent :=
                num_mul (num_div (of_nat silentSamples) (of_nat (length volumes)))
                        (of_nat 100);
              noiseFloor := num_div (sum lowest) (of_nat (length lowest)) |}
  end.

(** ** Spectrum *)

(** Bin [i] of the [Float32Array] [averaged]: every snapshot is added
    in turn, then the sum is divided by the number of snapshots; each
    store rounds to single precision.  All snapshots have
    [frequencyBinCount] bytes, so the index is in range. *)
Definition averagedBin (snapshots : list (list N)) (i : nat) : A :=
  let total :=
    fold_left
      (fun acc snapshot =>
         Math_fround (num_add acc (of_nat (N.to_nat (nth i snapshot 0%N)))))
      snapshots (of_nat 0) in
  Math_fround (num_div total (of_nat (length snapshots))).

(** [displayData], the first 128 bins of the average. *)
Definition displayData (snapshots : list (list N)) : list A :=
  match snapshots with
  | [] => []
  | first :: _ =>
      firstn 128 (map (averagedBin snapshots) (seq 0 (length first)))
  end.

(** ** Summary *)

(** [generateSummary(noiseMetrics)] *)
Definition generateSummary (noiseMetrics : option NoiseMetrics)
    (ds : list Detection) : Summary :=
  match ds with
  | [] => NoSoundsDetected
  | _ :: _ => SessionSummary ds noiseMetrics
  end.

(** ** Start and stop *)

(** [startListening].  Between [setStatus('loading')] and the outcome
    of [getUserMedia] no handler of this model can run (both buttons are
    disabled and no audio callback is installed), so the request and its
    outcome [granted] are one step. *)
Definition startListening (granted : bool) (s : State) : State :=
  if negb (model s) || (length (classNames s) =? 0)
  then
    {| status := status s;
       detections := detections s;
       error := "Model not loaded yet";
       model := model s;
       classNames := classNames s;
       summary := summary s;
       spectrumData := spectrumData s;
       analyserRef := analyserRef s;
       audioBufferRef := audioBufferRef s;
       scriptProcessorRef := scriptProcessorRef s;
       isListeningRef := isListeningRef s;
       volumeHistoryRef := volumeHistoryRef s;
       spectrumSnapshotsRef := spectrumSnapshotsRef s;
       inflight := inflight s |}
  else if granted
  then
    {| status := Listening;
       detections := detections s;
       error := "";
       model := model s;
       classNames := classNames s;
       summary := summary s;
       spectrumData := [];
       analyserRef := true;
       audioBufferRef := audioBufferRef s;
       scriptProcessorRef := true;
       isListeningRef := true;
       volumeHistoryRef := volumeHistoryRef s;
       spectrumSnapshotsRef := [];
       inflight := inflight s |}
  else
    {| status := Error;
       detections := detections s;
       error := "Failed to access microphone. Please check permissions.";
       model := model s;
       classNames := classNames s;
       summary := summary s;
       spectrumData := [];
       analyserRef := analyserRef s;
       audioBufferRef := audioBufferRef s;
       scriptProcessorRef := scriptProcessorRef s;
       isListeningRef := isListeningRef s;
       volumeHistoryRef := volumeHistoryRef s;
       spectrumSnapshotsRef := [];
       inflight := inflight s |}.

(** [stopListening] *)
Definition stopListening (s : State) : State :=
  {| status := Idle;
     detections := detections s;
     error := error s;
     model := model s;
     classNames := classNames s;
     summary := generateSummary (calculateMetrics (volumeHistoryRef s)) (detections s);
     spectrumData :=
       if 0 <? length (spectrumSnapshotsRef s)
       then displayData (spectrumSnapshotsRef s)
       else spectrumData s;
     analyserRef := false;
     audioBufferRef := [];
     scriptProcessorRef := false;
     isListeningRef := false;
     volumeHistoryRef := [];
     spectrumSnapshotsRef := [];
     inflight := inflight s |}.

(** ** Loading the model ([loadModel], run once when [App] mounts) *)

(** The values of [useState] and [useRef]. *)
Definition initial : State :=
  {| status := Idle;
     detections := [];
     error := "";
     model := false;
     classNames := [];
     summary := NoSummary;
     spectrumData := [];
     analyserRef := false;
     audioBufferRef := [];
     scriptProcessorRef := false;
     isListeningRef := false;
     volumeHistoryRef := [];
     spectrumSnapshotsRef := [];
     inflight := 0 |}.

(** The three writes of [loadModel] to the state, as functions of the
    fields they set. *)
Definition loadModel_update (st : Status) (err : string) (m : bool)
    (names : list string) (s : State) : State :=
  {| status := st;
     detections := detections s;
     error := err;
     model := m;
     classNames := names;
     summary := summary s;
     spectrumData := spectrumData s;
     analyserRef := analyserRef s;
     audioBufferRef := audioBufferRef s;
     scriptProcessorRef := scriptProcessorRef s;
     isListeningRef := isListeningRef s;
     volumeHistoryRef := volumeHistoryRef s;
     spectrumSnapshotsRef := spectrumSnapshotsRef s;
     inflight := inflight s |}.

(** [setStatus('loading'); setError('')] *)
Definition loadModel_begin (s : State) : State :=
  loadModel_update Loading "" (model s) (classNames s) s.
(** [setModel(loadedModel)] *)
Definition loadModel_setModel (s : State) : State :=
  loadModel_update (status s) (error s) true (classNames s) s.
(** [setClassNames(names); setStatus('idle')] *)
Definition loadModel_done (names : list string) (s : State) : State :=
  loadModel_update Idle (error s) (model s) names s.
(** The [catch] branch. *)
Definition loadModel_failed (s : State) : State :=
  loadModel_update Error "Failed to load YAMNet model. Please refresh the page."
                   (model s) (classNames s) s.

(** ** The event loop *)

Inductive Event : Type :=
| ModelFetched
| ClassNamesFetched (names : list string)
| LoadFailed
| StartClicked (granted : bool)
| AudioProcess (e : AudioProcessingEvent)
| InferenceDone (topPredictions : list Detection)
| StopClicked.

(** One turn of the event loop.  An event that cannot occur in a state
    leaves it as it is: the Start button is disabled while the status is
    loading or listening or the model is null, the Stop button unless
    the status is listening; audio callbacks need the installed
    handler; the steps of [loadModel] follow each other while its own
    'loading' status lasts. *)
Definition dispatch (ev : Event) (s : State) : State :=
  match ev with
  | ModelFetched =>
      if Status_eqb (status s) Loading && negb (model s)
      then loadModel_setModel s else s
  | ClassNamesFetched names =>
      if Status_eqb (status s) Loading && model s
      then loadModel_done names s else s
  | LoadFailed =>
      if Status_eqb (status s) Loading then loadModel_failed s else s
  | StartClicked granted =>
      if Status_eqb (status s) Loading || Status_eqb (status s) Listening
         || negb (model s)
      then s else startListening granted s
  | AudioProcess e =>
      if scriptProcessorRef s then fst (onaudioprocess e s) else s
  | InferenceDone topPredictions =>
      if 0 <? inflight s then inferenceDone topPredictions s else s
  | StopClicked =>
      if Status_eqb (status s) Listening then stopListening s else s
  end.

Definition run (evs : list Event) (s : State) : State :=
  fold_left (fun s ev => dispatch ev s) evs s.

(** The states of the application: those the event loop reaches after
    [App] has mounted. *)
Definition reachable (s : State) : Prop :=
  exists evs, s = run evs (loadModel_begin initial).

(** The audio callbacks of a session, with the waveforms handed to the
    classifier, oldest first. *)
Fixpoint feed (es : list AudioProcessingEvent) (s : State)
  : State * list (list A) :=
  match es with
  | [] => (s, [])
  | e :: es' =>
      let (s1, out) := onaudioprocess e s in
      let (s2, frames) := feed es' s1 in
      (s2, match out with Some f => f :: frames | None => frames end)
  end.

(** The callbacks that ask for a snapshot: the burst has sound and the
    random draw is below 0.1. *)
Definition wantsSnapshot (e : AudioProcessingEvent) : bool :=
  hasSound (inputData e) && num_lt (random e) lit_0_1.

(** The snapshots those callbacks would store, oldest first. *)
Definition candidates (es : list AudioProcessingEvent) : list (list N) :=
  map (fun e => fill_Uint8Array frequencyBinCount (byteFrequencyData e))
      (filter wantsSnapshot es).

(** The guard of [processAudioChunk] lets the chunk through. *)
Definition ready (s : State) : Prop :=
  model s = true /\ classNames s <> [] /\ isListeningRef s = true.

(** What holds of every state of the application: outside a session
    the buffer and the volume history are empty and no audio callback
    is installed; in a session the displayed spectrum is cleared, the
    chunk guard is open and the analyser is there; the two bounded
    collections are within their bounds. *)
Definition invariant (s : State) : Prop :=
  (status s <> Listening ->
   audioBufferRef s = [] /\ volumeHistoryRef s = []
   /\ scriptProcessorRef s = false) /\
  (status s = Listening ->
   spectrumData s = [] /\ ready s /\ analyserRef s = true) /\
  length (spectrumSnapshotsRef s) <= 50 /\
  length (detections s) <= 20.

(** All the samples of a sequence of callbacks, in arrival order. *)
Definition samples (es : list AudioProcessingEvent) : list A :=
  concat (map inputData es).

End Pipeline.

Arguments Detection A : clear implicits.
Arguments NoiseMetrics A : clear implicits.
Arguments Summary A : clear implicits.
Arguments State A : clear implicits.
Arguments AudioProcessingEvent A : clear implicits.
Arguments Event A : clear implicits.

(** ** The scores of the classifier *)

(** The literals of the program that [Number] does not name. *)
Class Literals (A : Type) : Type := {
  lit_0_2 : A;                      (* the literal 0.2 *)
  lit_0_15 : A;                     (* the literal 0.15 *)
  lit_0_05 : A                      (* the literal 0.05 *)
}.

#[export] Instance float_Literals : Literals float := {|
  lit_0_2 := 0.2%float;
  lit_0_15 := 0.15%float;
  lit_0_05 := 0.05%float
|}.

#[export] Instance R_Literals : Literals R := {|
  lit_0_2 := (2 / 10)%R;
  lit_0_15 := (15 / 100)%R;
  lit_0_05 := (5 / 100)%R
|}.

(** The objects [{ name, score }] of [predictions]. *)
Module Prediction.
Section Def.
Context {A : Type}.
Record t : Type := { name : string; score : A }.
End Def.
Arguments t A : clear implicits.
End Prediction.

Section Classifier.

Context {A : Type} {NumA : Number A} {LitA : Literals A}.

(** An integer in a template literal. *)
Definition decimal (n : nat) : string :=
  DecimalString.NilEmpty.string_of_uint (Nat.to_uint n).

(** [classNames[index] || `Class ${index}`]: a missing name and the
    empty name are both replaced. *)
Definition className (names : list string) (index : nat) : string :=
  match nth_error names index with
  | Some n => if String.eqb n "" then ("Class " ++ decimal index)%string else n
  | None => ("Class " ++ decimal index)%string
  end.

(** [Array.from(scoresData).map((score, index) => ({ name, score }))] *)
Definition namedScores (names : list string) (scoresData : list A)
  : list (Prediction.t A) :=
  map (fun '(index, score) =>
         {| Prediction.name := className names index; Prediction.score := score |})
      (combine (seq 0 (length scoresData)) scoresData).

(** One step of the sort under [(a, b) => b.score - a.score]: [x] goes
    in front of the first element that does not compare below it, as in
    [insert]. *)
Fixpoint insertPrediction (x : Prediction.t A) (sorted : list (Prediction.t A))
  : list (Prediction.t A) :=
  match sorted with
  | [] => [x]
  | y :: rest =>
      if num_lt (num_sub (Prediction.score x) (Prediction.score y)) (of_nat 0)
      then y :: insertPrediction x rest
      else x :: sorted
  end.

(** [predictions]: the named scores, sorted by descending score. *)
Definition predictions (names : list string) (scoresData : list A)
  : list (Prediction.t A) :=
  fold_right insertPrediction [] (namedScores names scoresData).

(** The predictions that pass [p.score > 0.2], at most the first five. *)
Definition confident (names : list string) (scoresData : list A)
  : list (Prediction.t A) :=
  firstn 5 (filter (fun p => num_lt lit_0_2 (Prediction.score p))
                   (predictions names scoresData)).

(** [topPredictions].  [stamp i] is what the clock and [Math.random]
    give when the [i]-th object is built: its [id] and its [timestamp]. *)
Definition topPredictions (stamp : nat -> string * Z) (names : list string)
    (scoresData : list A) : list (Detection A) :=
  map (fun '(i, p) =>
         {| id := fst (stamp i);
            label := Prediction.name p;
            score := Prediction.score p;
            timestamp := snd (stamp i) |})
      (combine (seq 0 (length (confident names scoresData)))
               (confident names scoresData)).

(** The rest of [processAudioChunk] once [scores.data()] has answered
    with [scoresData]. *)
Definition scoresArrived (stamp : nat -> string * Z) (scoresData : list A)
    (s : State A) : State A :=
  inferenceDone (topPredictions stamp (classNames s) scoresData) s.

End Classifier.

(** ** The counts of the summary *)

(** A [Map] with string keys: its entries in insertion order. *)
Section StringMap.

Context {V : Type}.

(** [m.get(key)] *)
Fixpoint Map_get (m : list (string * V)) (key : string) : option V :=
  match m with
  | [] => None
  | (k, v) :: rest => if String.eqb k key then Some v else Map_get rest key
  end.

(** [m.set(key, value)]: an existing key keeps its place. *)
Fixpoint Map_set (m : list (string * V)) (key : string) (value : V)
  : list (string * V) :=
  match m with
  | [] => [(key, value)]
  | (k, v) :: rest =>
      if String.eqb k key then (k, value) :: rest
      else (k, v) :: Map_set rest key value
  end.

End StringMap.

Section Counts.

Context {A : Type}.

(** [soundCounts] after the [forEach] over the detections:
    [count = soundCounts.get(label) || 0; soundCounts.set(label, count + 1)]. *)
Definition soundCounts (ds : list (Detection A)) : list (string * nat) :=
  fold_left
    (fun m d =>
       let count := match Map_get m (label d) with Some c => c | None => 0 end in
       Map_set m (label d) (count + 1))
    ds [].

(** [soundScores] after the same loop:
    [scores = soundScores.get(label) || []; scores.push(score)]. *)
Definition soundScores (ds : list (Detection A)) : list (string * list A) :=
  fold_left
    (fun m d =>
       let scores := match Map_get m (label d) with Some l => l | None => [] end in
       Map_set m (label d) (scores ++ [score d]))
    ds [].

(** One step of the sort under [(a, b) => b[1] - a[1]], as in [insert]. *)
Fixpoint insertSound (x : string * nat) (sorted : list (string * nat))
  : list (string * nat) :=
  match sorted with
  | [] => [x]
  | y :: rest =>
      if snd x <? snd y then y :: insertSound x rest else x :: sorted
  end.

(** [sortedSounds]: the entries of [soundCounts], most frequent first. *)
Definition sortedSounds (ds : list (Detection A)) : list (string * nat) :=
  fold_right insertSound [] (soundCounts ds).

(** The sounds listed in the summary: [sortedSounds.slice(0, 10)]. *)
Definition topSounds (ds : list (Detection A)) : list (string * nat) :=
  firstn 10 (sortedSounds ds).

(** How many detections carry a label. *)
Definition occurrences (name : string) (ds : list (Detection A)) : nat :=
  length (filter (fun d => String.eqb (label d) name) ds).

End Counts.

(** ** The class map *)

(** A JavaScript string: its UTF-16 code units. *)
Module Js.

Definition newline : N := 10.
Definition comma : N := 44.
Definition quote : N := 34.

(** 'Unknown' *)
Definition Unknown : list N := [85; 110; 107; 110; 111; 119; 110]%N.

(** The code units [trim] removes: WhiteSpace and LineTerminator. *)
Definition isWhiteSpace (c : N) : bool :=
  existsb (N.eqb c)
          [9; 10; 11; 12; 13; 32; 160; 5760; 8192; 8193; 8194; 8195; 8196;
           8197; 8198; 8199; 8200; 8201; 8202; 8232; 8233; 8239; 8287;
           12288; 65279]%N.

(** [s.split(sep)] for a separator of one code unit: the pieces between
    the separators, always at least one. *)
Fixpoint split (sep : N) (s : list N) : list (list N) :=
  match s with
  | [] => [[]]
  | c :: rest =>
      if N.eqb c sep then [] :: split sep rest
      else match split sep rest with
           | piece :: pieces => (c :: piece) :: pieces
           | [] => [[c]]
           end
  end.

Fixpoint trimStart (s : list N) : list N :=
  match s with
  | [] => []
  | c :: rest => if isWhiteSpace c then trimStart rest else s
  end.

(** [s.trim()] *)
Definition trim (s : list N) : list N :=
  rev (trimStart (rev (trimStart s))).

(** [s.replace(re, '')] where the regular expression [re] matches every
    double quote. *)
Definition removeQuotes (s : list N) : list N :=
  filter (fun c => negb (N.eqb c quote)) s.

(** The name of a line: the third of the comma-separated parts, without
    its double quotes and trimmed; 'Unknown' when there is no third part
    or nothing is left of it. *)
Definition nameOfLine (line : list N) : list N :=
  match nth_error (split comma line) 2 with
  | Some field =>
      match trim (removeQuotes field) with
      | [] => Unknown
      | name => name
      end
  | None => Unknown
  end.

(** A line passes [line => line.trim()] when its trimmed text is not
    empty. *)
Definition notBlank (line : list N) : bool :=
  match trim line with [] => false | _ :: _ => true end.

(** [names] of [loadModel]: the header line is skipped, blank lines are
    dropped, each remaining line gives a name. *)
Definition parseClassNames (csvText : list N) : list (list N) :=
  map nameOfLine (filter notBlank (tl (split newline csvText))).

(** The code units of a literal of ASCII characters. *)
Definition ofString (s : string) : list N :=
  map Ascii.N_of_ascii (list_ascii_of_string s).

(** [pieces.join(sep)] for a separator of one code unit. *)
Fixpoint join (sep : N) (pieces : list (list N)) : list N :=
  match pieces with
  | [] => []
  | [piece] => piece
  | piece :: rest => piece ++ sep :: join sep rest
  end.

End Js.

(** ** Noise levels *)

(** The four levels named by the live meter, by the summary
    ('Environment') and by the narrative. *)
Inductive NoiseLevel : Type := VeryLoud | Loud | Moderate | Quiet.

(** [acousticEnvironment] of [generateAISummary], by its five texts. *)
Inductive AcousticEnvironment : Type :=
| RemarkablyLoud | NotablyLoud | ModeratelyActive | QuietWithSilence | Calm.

(** Which numbers are falsy, for [v || 0]. *)
Class Truthiness (A : Type) : Type := {
  falsy : A -> bool
}.

#[export] Instance float_Truthiness : Truthiness float := {|
  falsy := fun v => PrimFloat.is_zero v || PrimFloat.is_nan v
|}.

#[export] Instance R_Truthiness : Truthiness R := {|
  falsy := fun v => if Req_dec_T v 0 then true else false
|}.

Section Levels.

Context {A : Type} {NumA : Number A} {LitA : Literals A} {TruthA : Truthiness A}.

(** [noiseLevel] of [generateSummary], from [avgVolume]. *)
Definition noiseLevel (avg : A) : NoiseLevel :=
  if num_lt lit_0_15 avg then VeryLoud
  else if num_lt lit_0_1 avg then Loud
  else if num_lt lit_0_05 avg then Moderate
  else Quiet.

(** The level shown beside the live meter, if the meter is shown: the
    indicator is rendered under
    [status === 'listening' && volumeHistoryRef.current.length > 0], and
    then [currentVolume = volumeHistoryRef.current[length - 1] || 0] is
    taken from the last volume. *)
Definition meterLevel (status : Status) (volumeHistory : list A)
  : option NoiseLevel :=
  if Status_eqb status Listening
  then
    match rev volumeHistory with
    | v :: _ =>
        let currentVolume := if falsy v then of_nat 0 else v in
        Some (if num_lt lit_0_15 currentVolume then VeryLoud
              else if num_lt lit_0_1 currentVolume then Loud
              else if num_lt lit_0_05 currentVolume then Moderate
              else Quiet)
    | [] => None
    end
  else None.

(** [acousticEnvironment] of [generateAISummary], from
    [{ avgVolume, silencePercent }]. *)
Definition acousticEnvironment (avg silence : A) : AcousticEnvironment :=
  if num_lt lit_0_15 avg then RemarkablyLoud
  else if num_lt lit_0_1 avg then NotablyLoud
  else if num_lt lit_0_05 avg then ModeratelyActive
  else if num_lt (of_nat 50) silence then QuietWithSilence
  else Calm.

(** The level a text of the narrative speaks of. *)
Definition levelOf (e : AcousticEnvironment) : NoiseLevel :=
  match e with
  | RemarkablyLoud => VeryLoud
  | NotablyLoud => Loud
  | ModeratelyActive => Moderate
  | QuietWithSilence | Calm => Quiet
  end.

End Levels.

(** ** The bars of the spectrum *)

(** What the drawing needs beyond [Number]: [Math.log10], which the
    language leaves to the implementation, and the literal 1.5. *)
Class Drawing (A : Type) : Type := {
  Math_log10 : A -> A;
  lit_1_5 : A
}.

#[export] Instance R_Drawing : Drawing R := {|
  Math_log10 := fun x => (ln x / ln 10)%R;
  lit_1_5 := (3 / 2)%R
|}.

Section Bars.

Context {A : Type} {NumA : Number A} {DrawA : Drawing A}.

(** The rectangle of [ctx.fillRect(x, y, barWidth, barHeight)]. *)
Record Bar : Type := {
  bar_x : A;
  bar_y : A;
  barWidth : A;
  barHeight : A
}.

(** The canvas is 600 by 230; 25 are left at the bottom and 45 at the
    left. *)
Definition drawHeight : A := num_sub (of_nat 230) (of_nat 25).
Definition leftMargin : A := of_nat 45.
Definition drawWidth : A := num_sub (of_nat 600) leftMargin.

(** [Math.max(...spectrumData, 1)] *)
Definition maxValue (spectrumData : list A) : A :=
  match spectrumData ++ [of_nat 1] with
  | first :: rest => Math_max first rest
  | [] => of_nat 1
  end.

(** The body of [spectrumData.forEach((value, index) => ...)]: the bar
    drawn for a bin, if one is drawn. *)
Definition barOf (spectrumData : list A) (index : nat) (value : A) : option Bar :=
  let minFreq := of_nat 100 in
  let maxFreq := of_nat (Z.to_nat 10000) in
  let actualMaxFreq := of_nat (Z.to_nat 8000) in
  let logMin := Math_log10 minFreq in
  let logMax := Math_log10 maxFreq in
  let actualFreq :=
    num_mul (num_div (of_nat index) (of_nat (length spectrumData))) actualMaxFreq in
  if num_lt actualFreq minFreq then None
  else
    let displayFreq := Math_min actualFreq [maxFreq] in
    let logFreq := Math_log10 displayFreq in
    let normalizedPos := num_div (num_sub logFreq logMin) (num_sub logMax logMin) in
    let normalizedValue := num_div value (maxValue spectrumData) in
    let height :=
      Math_max (num_mul normalizedValue drawHeight)
               [if num_lt (of_nat 0) value then of_nat 2 else of_nat 0] in
    let width :=
      Math_max (num_mul (num_div drawWidth (of_nat (length spectrumData))) lit_1_5)
               [of_nat 2] in
    if num_lt (of_nat 0) height
    then Some {| bar_x := num_add leftMargin (num_mul normalizedPos drawWidth);
                 bar_y := num_sub drawHeight height;
                 barWidth := width;
                 barHeight := height |}
    else None.

End Bars.

Arguments Bar A : clear implicits.

(** ** The values of binary64 numbers *)

(** What the bounds in double precision are stated with: the real number
    a double stands for, the sizes of the doubles that occur, and the unit
    of the rounding. *)

Module B64.

Definition bpow (e : Z) : R := powerRZ 2 e.

(** The real number a finite [spec_float] stands for; 0 otherwise. *)
Definition SF2R (x : spec_float) : R :=
  match x with
  | S754_finite s m e => (IZR (cond_Zopp s (Z.pos m)) * bpow e)%R
  | _ => 0%R
  end.

Definition toR (x : float) : R := SF2R (Prim2SF x).

(** The unit roundoff used in the bounds: the spacing of the doubles
    relative to their size, [2^-52]. *)
Definition u : R := bpow (-52).

(** A positive normal double: [m * 2^e] with 53 significant bits. *)
Definition normal_pos (x : float) : bool :=
  match Prim2SF x with
  | S754_finite false m e => (Z.pos (digits2_pos m) =? 53)%Z
  | _ => false
  end.

(** A normal double of either sign with [2^(lo-1) <= |x| < 2^hi]. *)
Definition in_range (lo hi : Z) (x : float) : bool :=
  match Prim2SF x with
  | S754_finite _ m e =>
      (Z.pos (digits2_pos m) =? 53)%Z && (lo <=? e + 53)%Z && (e + 53 <=? hi)%Z
  | _ => false
  end.

(** +0, or a positive normal double with [2^(lo-1) <= x < 2^hi]. *)
Definition nonneg_in (lo hi : Z) (x : float) : bool :=
  match Prim2SF x with
  | S754_zero false => true
  | S754_finite false m e =>
      (Z.pos (digits2_pos m) =? 53)%Z && (lo <=? e + 53)%Z && (e + 53 <=? hi)%Z
  | _ => false
  end.

(** +0 or a positive normal double. *)
Definition nonneg (x : float) : Prop :=
  x = PrimFloat.zero \/ normal_pos x = true.

(** +0 or -0, or a normal double of either sign with
    [2^-149 <= |x| < 2^128]: what an element of a [Float32Array] reads
    as, NaN and the infinities apart. *)
Definition float32_sample (x : float) : bool :=
  match Prim2SF x with
  | S754_zero _ => true
  | S754_finite _ m e =>
      (Z.pos (digits2_pos m) =? 53)%Z && (-148 <=? e + 53)%Z && (e + 53 <=? 128)%Z
  | _ => false
  end.

(** The volumes of the statistics: +0, or a positive normal double
    between [2^-501] and [2^500]. *)
Definition volume_sized (x : float) : bool := nonneg_in (-500) 500 x.

(** An event whose samples, if it brings any, are as a [Float32Array]
    holds them. *)
Definition float32_event (ev : Event float) : bool :=
  match ev with
  | AudioProcess e => forallb float32_sample (inputData e)
  | _ => true
  end.

(** A non-negative double below the overflow threshold. *)
Definition bounded (x : float) : Prop :=
  nonneg x /\ (toR x < bpow 1023)%R.

(** The order of the values. *)
Definition le (x y : float) : Prop := (toR x <= toR y)%R.

End B64.

(** ** Sessions on binary64 numbers, used as examples *)

Module Scenario.

(** The application once the model and two class names are loaded. *)
Definition loaded : State float :=
  run [ModelFetched; ClassNamesFetched ["Speech"%string; "Music"%string]]
      (loadModel_begin initial).

(** A session that has just started. *)
Definition started : State float := dispatch (StartClicked true) loaded.

(** A burst of [n] samples of value [x]; [rnd] is what [Math.random()]
    returns and [bytes] what the analyser delivers. *)
Definition burst (x : float) (n : nat) (rnd : float) (bytes : list N)
  : AudioProcessingEvent float :=
  {| inputData := repeat x n; random := rnd; byteFrequencyData := bytes |}.

Definition quiet (x : float) (n : nat) : AudioProcessingEvent float :=
  burst x n 0.5%float [].

(** A burst with sound, a random draw of 0.0625 and a flat spectrum. *)
Definition loud : AudioProcessingEvent float :=
  burst 0.5%float 4096 0.0625%float (repeat 7%N 1024).

Definition speech : Detection float :=
  {| id := "1700000000000-0.5"; label := "Speech";
     score := 0.75%float; timestamp := 1700000000000 |}.

Definition detection (name : string) (confidence : float) : Detection float :=
  {| id := name; label := name; score := confidence;
     timestamp := 1700000000000 |}.

(** The batches of the scenario of the specification: "Speech", then
    "Music" with "Dog", then 18 single detections. *)
Definition batches8 : list (list (Detection float)) :=
  [detection "Speech" 0.8%float]
    :: [detection "Music" 0.5%float; detection "Dog" 0.3%float]
    :: repeat [detection "Bird" 0.4%float] 18.

(** A whole session: start, four bursts (one chunk), the classifier
    answers "Speech", stop. *)
Definition first_session : list (Event float) :=
  StartClicked true
    :: repeat (AudioProcess (quiet 0.5%float 4096)) 4
    ++ [InferenceDone [speech]; StopClicked].

(** A faint burst (amplitude 0.005) whose random draw would allow a
    snapshot. *)
Definition faint : AudioProcessingEvent float :=
  burst 0.005%float 4096 0.0625%float (repeat 7%N 1024).

(** Inside a callback of a started session, once a chunk of zeros is in
    the buffer. *)
Definition zeros_buffered : State float :=
  {| status := Listening; detections := []; error := "";
     model := true; classNames := ["Speech"%string; "Music"%string];
     summary := NoSummary; spectrumData := [];
     analyserRef := true;
     audioBufferRef := repeat PrimFloat.zero FRAME_SAMPLES;
     scriptProcessorRef := true; isListeningRef := true;
     volumeHistoryRef := []; spectrumSnapshotsRef := [];
     inflight := 0 |}.

(** 0.1 as a [Float32Array] holds it. *)
Definition tenth32 : float := Math_fround lit_0_1.

(** A script-processor burst of a steady signal of amplitude [tenth32]. *)
Definition steady : AudioProcessingEvent float := quiet tenth32 4096.

(** The volume history of the scenario of section 8 of the
    specification. *)
Definition volumes8 : list float :=
  [0.01; 0.02; 0.2; 0.03; 0.01]%float.

(** The class names could not be fetched: the model is there, the
    names are not, the status is 'error'. *)
Definition names_failed : State float :=
  run [ModelFetched; LoadFailed] (loadModel_begin initial).

End Scenario.

(** * Properties *)

(** ** The frame accumulator *)

Section Accumulator.

Context {A : Type} {NumA : Number A}.

Lemma FRAME_SAMPLES_pos : 0 < FRAME_SAMPLES.
Proof. apply Nat.ltb_lt. vm_compute. reflexivity. Qed.

Lemma ready_guard (s : State A) :
  ready s ->
  negb (model s) || (length (classNames s) =? 0) || negb (isListeningRef s) = false.
Proof.
  intros (Hm & Hc & Hl). rewrite Hm, Hl. simpl.
  destruct (classNames s); [congruence | reflexivity].
Qed.

(** One callback in a session: at most one chunk leaves the buffer. *)
Lemma onaudioprocess_step (e : AudioProcessingEvent A) (s : State A) :
  ready s ->
  length (audioBufferRef s) < FRAME_SAMPLES ->
  length (inputData e) <= FRAME_SAMPLES ->
  let (s', out) := onaudioprocess e s in
  ready s' /\
  length (audioBufferRef s') < FRAME_SAMPLES /\
  match out with
  | Some f =>
      length f = FRAME_SAMPLES /\
      f ++ audioBufferRef s' = audioBufferRef s ++ inputData e
  | None => audioBufferRef s' = audioBufferRef s ++ inputData e
  end.
Proof.
  intros Hr Hb He. unfold onaudioprocess.
  destruct (FRAME_SAMPLES <=? _) eqn:Hfull; cbn [audioBufferRef] in *.
  - apply Nat.leb_le in Hfull. unfold processAudioChunk.
    rewrite ready_guard by exact Hr. cbn [audioBufferRef].
    rewrite length_app in Hfull.
    repeat split; try apply Hr.
    + rewrite length_skipn, length_app. lia.
    + rewrite length_firstn, length_app. lia.
    + apply firstn_skipn.
  - apply Nat.leb_gt in Hfull. repeat split; try apply Hr. exact Hfull.
Qed.

Lemma feed_spec (es : list (AudioProcessingEvent A)) : forall s : State A,
  ready s ->
  length (audioBufferRef s) < FRAME_SAMPLES ->
  Forall (fun e => length (inputData e) <= FRAME_SAMPLES) es ->
  let (s', frames) := feed es s in
  ready s' /\
  length (audioBufferRef s') < FRAME_SAMPLES /\
  Forall (fun f => length f = FRAME_SAMPLES) frames /\
  concat frames ++ audioBufferRef s' = audioBufferRef s ++ samples es.
Proof.
  induction es as [|e es IH]; intros s Hr Hb Hes; simpl.
  - unfold samples. simpl. rewrite app_nil_r. auto.
  - inversion Hes as [|? ? He Hes']; subst.
    pose proof (onaudioprocess_step e s Hr Hb He) as Hstep.
    destruct (onaudioprocess e s) as [s1 out].
    destruct Hstep as (Hr1 & Hb1 & Hout).
    specialize (IH s1 Hr1 Hb1 Hes').
    destruct (feed es s1) as [s2 frames].
    destruct IH as (Hr2 & Hb2 & Hall & Hcat).
    unfold samples in *. simpl. rewrite app_assoc.
    destruct out as [f|].
    + destruct Hout as [Hf Hsplit].
      split; [exact Hr2|]. split; [exact Hb2|]. split; [constructor; assumption|].
      simpl. rewrite <- app_assoc, Hcat, app_assoc, Hsplit. reflexivity.
    + split; [exact Hr2|]. split; [exact Hb2|]. split; [exact Hall|].
      rewrite Hcat, Hout. reflexivity.
Qed.

Lemma length_concat_frames (frames : list (list A)) :
  Forall (fun f => length f = FRAME_SAMPLES) frames ->
  length (concat frames) = FRAME_SAMPLES * length frames.
Proof.
  induction 1 as [|f frames Hf _ IH]; cbn [concat length]; [lia|].
  rewrite length_app, IH, Hf. lia.
Qed.

(** C1 (as amended): with bursts of at most 15,600 samples each, such as
    the 4,096-sample bursts of the script processor, the callbacks of a
    session that starts on an empty buffer hand over exactly
    [total / 15600] chunks of exactly 15,600 samples each, which are the
    incoming samples in arrival order, and leave the remaining
    [total mod 15600] samples in the buffer. *)
Theorem frames_of_bounded_bursts
    (es : list (AudioProcessingEvent A)) (s : State A) :
  ready s ->
  audioBufferRef s = [] ->
  Forall (fun e => length (inputData e) <= FRAME_SAMPLES) es ->
  let total := length (samples es) in
  let s' := fst (feed es s) in
  let frames := snd (feed es s) in
  length frames = total / FRAME_SAMPLES /\
  Forall (fun f => length f = FRAME_SAMPLES) frames /\
  concat frames ++ audioBufferRef s' = samples es /\
  length (audioBufferRef s') = total mod FRAME_SAMPLES.
Proof.
  intros Hr Hb Hes. pose proof FRAME_SAMPLES_pos as Hpos.
  assert (Hlt : length (audioBufferRef s) < FRAME_SAMPLES) by (rewrite Hb; exact Hpos).
  pose proof (feed_spec es s Hr Hlt Hes) as H.
  destruct (feed es s) as [s' frames]. cbn [fst snd].
  destruct H as (_ & Hrem & Hall & Hcat). rewrite Hb in Hcat. simpl in Hcat.
  assert (Htotal : length (samples es)
                   = FRAME_SAMPLES * length frames + length (audioBufferRef s')).
  { rewrite <- Hcat, length_app, length_concat_frames by exact Hall. reflexivity. }
  repeat split; auto.
  - apply Nat.div_unique with (r := length (audioBufferRef s')); assumption.
  - apply Nat.mod_unique with (q := length frames); assumption.
Qed.

End Accumulator.

(** C1, as stated, fails: a single burst of 31,200 samples makes one
    callback, and one callback takes one chunk, so one frame is handed
    over (not two) and 15,600 samples stay in the buffer (not none). *)
Lemma one_chunk_per_callback :
  let es := [Scenario.quiet 0%float (2 * FRAME_SAMPLES)] in
  let total := length (samples es) in
  ready Scenario.started /\
  audioBufferRef Scenario.started = [] /\
  Forall (fun e => 0 < length (inputData e)) es /\
  FRAME_SAMPLES <= total /\
  total / FRAME_SAMPLES = 2 /\
  length (snd (feed es Scenario.started)) = 1 /\
  total mod FRAME_SAMPLES = 0 /\
  length (audioBufferRef (fst (feed es Scenario.started))) = FRAME_SAMPLES.
Proof.
  cbv zeta. split; [|split; [|split; [|split]]].
  - repeat split; try reflexivity. vm_compute. discriminate.
  - reflexivity.
  - apply Forall_cons; [|apply Forall_nil]. apply Nat.ltb_lt. vm_compute. reflexivity.
  - apply Nat.leb_le. vm_compute. reflexivity.
  - repeat split; vm_compute; reflexivity.
Qed.

(** The scenario of four script-processor bursts of 4,096 samples: one
    frame is handed over and 784 samples stay. *)
Lemma frames_of_bounded_bursts_witness :
  let es := repeat (Scenario.quiet 0.5%float 4096) 4 in
  length (snd (feed es Scenario.started)) = length (samples es) / FRAME_SAMPLES /\
  Forall (fun f => length f = FRAME_SAMPLES) (snd (feed es Scenario.started)) /\
  concat (snd (feed es Scenario.started))
    ++ audioBufferRef (fst (feed es Scenario.started)) = samples es /\
  length (audioBufferRef (fst (feed es Scenario.started)))
    = length (samples es) mod FRAME_SAMPLES.
Proof.
  apply (frames_of_bounded_bursts
           (repeat (Scenario.quiet 0.5%float 4096) 4) Scenario.started).
  - repeat split; try reflexivity. vm_compute. discriminate.
  - reflexivity.
  - repeat (apply Forall_cons; [apply Nat.leb_le; vm_compute; reflexivity|]).
    apply Forall_nil.
Defined.

(** The scenario of the specification: three bursts of 6,000 samples
    give one frame and leave 2,400 samples. *)
Example three_bursts_of_6000 :
  let r := feed (repeat (Scenario.quiet 0.25%float (Z.to_nat 6000)) 3)
                Scenario.started in
  length (snd r) = 1 /\
  Forall (fun f => length f = FRAME_SAMPLES) (snd r) /\
  length (audioBufferRef (fst r)) = Z.to_nat 2400 /\
  volumeHistoryRef (fst r) = [0.25%float].
Proof.
  cbv zeta. split; [vm_compute; reflexivity|]. split; [|split].
  - replace (snd (feed _ Scenario.started))
      with [repeat 0.25%float FRAME_SAMPLES] by (vm_compute; reflexivity).
    apply Forall_cons; [apply repeat_length | apply Forall_nil].
  - vm_compute. reflexivity.
  - vm_compute. reflexivity.
Qed.

(** ** What a callback leaves alone *)

Section Callback.

Context {A : Type} {NumA : Number A}.

Lemma onaudioprocess_fields (e : AudioProcessingEvent A) (s : State A) :
  let s' := fst (onaudioprocess e s) in
  status s' = status s /\ detections s' = detections s /\
  model s' = model s /\ classNames s' = classNames s /\
  summary s' = summary s /\ spectrumData s' = spectrumData s /\
  analyserRef s' = analyserRef s /\
  scriptProcessorRef s' = scriptProcessorRef s /\
  isListeningRef s' = isListeningRef s /\
  spectrumSnapshotsRef s' = captureSnapshot e s.
Proof.
  unfold onaudioprocess, processAudioChunk.
  destruct (FRAME_SAMPLES <=? _); [destruct (_ || _)|]; cbn [fst];
    repeat split; reflexivity.
Qed.

Lemma feed_cons (e : AudioProcessingEvent A) es (s : State A) :
  fst (feed (e :: es) s) = fst (feed es (fst (onaudioprocess e s))).
Proof.
  simpl. destruct (onaudioprocess e s) as [s1 out]. simpl.
  destruct (feed es s1). reflexivity.
Qed.

Lemma feed_analyserRef es : forall s : State A,
  analyserRef (fst (feed es s)) = analyserRef s.
Proof.
  induction es as [|e es IH]; intros s; [reflexivity|].
  rewrite feed_cons, IH. apply onaudioprocess_fields.
Qed.

(** The capture test, once 50 snapshots are stored, stores nothing. *)
Lemma captureSnapshot_full (e : AudioProcessingEvent A) (s : State A) :
  50 <= length (spectrumSnapshotsRef s) ->
  captureSnapshot e s = spectrumSnapshotsRef s.
Proof.
  intros Hfull. unfold captureSnapshot.
  replace (length (spectrumSnapshotsRef s) <? 50) with false
    by (symmetry; apply Nat.ltb_ge; exact Hfull).
  rewrite andb_false_r, andb_false_l, andb_false_r. reflexivity.
Qed.

Lemma captureSnapshot_spec (e : AudioProcessingEvent A) (s : State A) :
  analyserRef s = true ->
  length (spectrumSnapshotsRef s) <= 50 ->
  captureSnapshot e s = firstn 50 (spectrumSnapshotsRef s ++ candidates [e]).
Proof.
  intros Han Hlen. unfold captureSnapshot, candidates, wantsSnapshot.
  rewrite Han. cbn [filter].
  destruct (hasSound (inputData e)), (num_lt (random e) lit_0_1),
    (Nat.ltb_spec (length (spectrumSnapshotsRef s)) 50) as [Hroom|Hroom];
    cbn [andb map];
    try (rewrite app_nil_r, firstn_all2 by lia; reflexivity).
  - rewrite firstn_all2; [reflexivity|]. rewrite length_app. simpl. lia.
  - rewrite firstn_app. replace (50 - _) with 0 by lia.
    rewrite firstn_O, app_nil_r, firstn_all2 by lia. reflexivity.
Qed.

End Callback.

(** ** The snapshot collection *)

Section Snapshots.

Context {A : Type} {NumA : Number A}.

Lemma firstn_firstn_app (T : Type) (n : nat) (l r : list T) :
  firstn n (firstn n l ++ r) = firstn n (l ++ r).
Proof.
  rewrite !firstn_app, firstn_firstn, Nat.min_id, length_firstn.
  destruct (Nat.le_ge_cases (length l) n) as [Hle|Hge].
  - rewrite Nat.min_r by exact Hle. reflexivity.
  - rewrite Nat.min_l by exact Hge.
    replace (n - n) with 0 by lia. replace (n - length l) with 0 by lia.
    reflexivity.
Qed.

Lemma candidates_cons (e : AudioProcessingEvent A) es :
  candidates (e :: es) = candidates [e] ++ candidates es.
Proof.
  unfold candidates. cbn [filter].
  destruct (wantsSnapshot e); reflexivity.
Qed.

Lemma feed_snapshots es : forall s : State A,
  analyserRef s = true ->
  length (spectrumSnapshotsRef s) <= 50 ->
  spectrumSnapshotsRef (fst (feed es s))
  = firstn 50 (spectrumSnapshotsRef s ++ candidates es).
Proof.
  induction es as [|e es IH]; intros s Han Hlen.
  - cbn [feed fst]. unfold candidates. cbn [filter map].
    rewrite app_nil_r, firstn_all2 by exact Hlen. reflexivity.
  - pose proof (onaudioprocess_fields e s) as Hf. cbv zeta in Hf.
    destruct Hf as (_ & _ & _ & _ & _ & _ & Han1 & _ & _ & Hsnap).
    rewrite feed_cons, IH.
    + rewrite Hsnap, captureSnapshot_spec by assumption.
      rewrite firstn_firstn_app, <- app_assoc, <- candidates_cons. reflexivity.
    + rewrite Han1. exact Han.
    + rewrite Hsnap, captureSnapshot_spec by assumption.
      rewrite length_firstn. lia.
Qed.

Lemma feed_spectrumData es : forall s : State A,
  spectrumData (fst (feed es s)) = spectrumData s.
Proof.
  induction es as [|e es IH]; intros s; [reflexivity|].
  rewrite feed_cons, IH. apply onaudioprocess_fields.
Qed.

(** C3: in a session (the analyser is there and the collection starts
    empty) the stored snapshots are, after any callbacks, the first 50
    of those the callbacks asked to store, in their order; they are
    never more than 50; once 50 are stored a further callback leaves
    the collection as it is; and these are the snapshots that
    [stopListening] averages. *)
Theorem snapshots_capped
    (es : list (AudioProcessingEvent A)) (s : State A) :
  analyserRef s = true ->
  spectrumSnapshotsRef s = [] ->
  let s' := fst (feed es s) in
  let kept := firstn 50 (candidates es) in
  spectrumSnapshotsRef s' = kept /\
  length (spectrumSnapshotsRef s') <= 50 /\
  (forall e, length (spectrumSnapshotsRef s') = 50 ->
             spectrumSnapshotsRef (fst (onaudioprocess e s'))
             = spectrumSnapshotsRef s') /\
  spectrumData (stopListening s')
  = if 0 <? length kept then displayData kept else spectrumData s.
Proof.
  intros Han Hemp s' kept.
  assert (Hkept : spectrumSnapshotsRef s' = kept).
  { unfold s', kept. rewrite feed_snapshots by (rewrite ?Hemp; simpl; auto with arith).
    rewrite Hemp. reflexivity. }
  split; [exact Hkept|]. split; [|split].
  - rewrite Hkept. unfold kept. rewrite length_firstn. lia.
  - intros e Hfull.
    pose proof (onaudioprocess_fields e s') as Hf. cbv zeta in Hf.
    destruct Hf as (_ & _ & _ & _ & _ & _ & _ & _ & _ & Hsnap).
    rewrite Hsnap. apply captureSnapshot_full. lia.
  - cbn [stopListening spectrumData]. rewrite Hkept.
    unfold s'. rewrite feed_spectrumData. reflexivity.
Qed.

Lemma hasSound_false (input : list A) :
  Forall (fun x => num_lt lit_0_01 (Math_abs x) = false) input ->
  hasSound input = false.
Proof.
  unfold hasSound. induction 1 as [|x l Hx _ IH]; cbn [existsb]; [reflexivity|].
  rewrite Hx, IH. reflexivity.
Qed.

Lemma candidates_quiet (es : list (AudioProcessingEvent A)) :
  Forall (fun e => Forall (fun x => num_lt lit_0_01 (Math_abs x) = false)
                          (inputData e)) es ->
  candidates es = [].
Proof.
  unfold candidates. induction 1 as [|e es He _ IH]; [reflexivity|].
  cbn [filter]. unfold wantsSnapshot at 1.
  rewrite (hasSound_false _ He). cbn [andb]. exact IH.
Qed.

(** C10: a callback changes the snapshot collection only if its burst
    has a sample of absolute value above 0.01; so in a session (started
    by [startListening]) whose samples are all at most 0.01 in absolute
    value the collection stays empty and the spectrum left by
    [stopListening] is empty, whatever [Math.random] returns. *)
Theorem no_sound_no_snapshot
    (es : list (AudioProcessingEvent A)) (s0 : State A) :
  model s0 = true ->
  classNames s0 <> [] ->
  Forall (fun e => Forall (fun x => num_lt lit_0_01 (Math_abs x) = false)
                          (inputData e)) es ->
  let s' := fst (feed es (startListening true s0)) in
  (forall e (s : State A),
      spectrumSnapshotsRef (fst (onaudioprocess e s)) <> spectrumSnapshotsRef s ->
      exists x, In x (inputData e) /\ num_lt lit_0_01 (Math_abs x) = true) /\
  spectrumSnapshotsRef s' = [] /\
  spectrumData (stopListening s') = [].
Proof.
  intros Hm Hc Hquiet s'.
  assert (Hstart : analyserRef (startListening true s0) = true
                   /\ spectrumSnapshotsRef (startListening true s0) = []
                   /\ spectrumData (startListening true s0) = []).
  { unfold startListening. rewrite Hm.
    destruct (classNames s0); [congruence|]. cbn. auto. }
  destruct Hstart as (Han & Hemp & Hdata).
  assert (Hkept : spectrumSnapshotsRef s' = []).
  { unfold s'. rewrite feed_snapshots, Hemp, (candidates_quiet _ Hquiet);
      [reflexivity | exact Han | rewrite Hemp; simpl; auto with arith]. }
  split; [|split].
  - intros e s Hchg.
    pose proof (onaudioprocess_fields e s) as Hf. cbv zeta in Hf.
    destruct Hf as (_ & _ & _ & _ & _ & _ & _ & _ & _ & Hsnap).
    rewrite Hsnap in Hchg. unfold captureSnapshot in Hchg.
    destruct (hasSound (inputData e)) eqn:Hs.
    + unfold hasSound in Hs. apply existsb_exists in Hs. exact Hs.
    + exfalso. apply Hchg. reflexivity.
  - exact Hkept.
  - cbn [stopListening spectrumData]. rewrite Hkept. cbn [length Nat.ltb Nat.leb].
    unfold s'. rewrite feed_spectrumData. exact Hdata.
Qed.

End Snapshots.

(** ** The detection history *)

Section History.

Context {A : Type}.

Lemma ingest_length (batch prev : list (Detection A)) :
  length prev <= 20 -> length (ingest batch prev) <= 20.
Proof.
  intros Hprev. unfold ingest. destruct (0 <? length batch); [|exact Hprev].
  rewrite length_firstn. lia.
Qed.

Lemma ingest_fold_length (batches : list (list (Detection A))) :
  forall h, length h <= 20 ->
  length (fold_left (fun h b => ingest b h) batches h) <= 20.
Proof.
  induction batches as [|b batches IH]; intros h Hh; [exact Hh|].
  simpl. apply IH, ingest_length, Hh.
Qed.

(** C2: after any number of ingested batches the history has at most
    20 entries.  An empty batch leaves it as it is.  A non-empty batch
    is put in front: the new history is the first 20 entries of the
    batch followed by the old history, so the order inside the batch
    and between batches is kept, what is dropped is the far (oldest)
    end, and the first entry of the batch is at index 0. *)
Theorem detection_history_bounded
    (batches : list (list (Detection A))) (batch : list (Detection A)) :
  let prev := fold_left (fun h b => ingest b h) batches [] in
  let h := ingest batch prev in
  length prev <= 20 /\ length h <= 20 /\
  match batch with
  | [] => h = prev
  | d :: _ =>
      nth_error h 0 = Some d /\
      length h = Nat.min 20 (length batch + length prev) /\
      exists evicted, batch ++ prev = h ++ evicted
  end.
Proof.
  intros prev h.
  assert (Hprev : length prev <= 20)
    by (apply ingest_fold_length; simpl; auto with arith).
  split; [exact Hprev|]. split; [apply ingest_length, Hprev|].
  destruct batch as [|d batch]; [reflexivity|].
  unfold h, ingest. cbn [length Nat.ltb Nat.leb].
  split; [reflexivity|]. split.
  - rewrite length_firstn, length_app. reflexivity.
  - exists (skipn 20 ((d :: batch) ++ prev)). symmetry. apply firstn_skipn.
Qed.

End History.

(** The scenario of the specification: 21 detections arrive, the oldest
    ("Speech") is dropped, and "Music" and "Dog" stay next to each other,
    in their order, at the far end. *)
Example history_scenario :
  let h := fold_left (fun h b => ingest b h) Scenario.batches8 [] in
  length h = 20 /\
  map (@label float) (skipn 18 h) = ["Music"%string; "Dog"%string] /\
  nth_error (map (@label float) h) 0 = Some "Bird"%string /\
  existsb (fun d => String.eqb (label d) "Speech") h = false.
Proof. cbv zeta. repeat split; vm_compute; reflexivity. Qed.

(** ** The states of the application *)

Section Reachable.

Context {A : Type} {NumA : Number A}.

Lemma captureSnapshot_length (e : AudioProcessingEvent A) (s : State A) :
  length (spectrumSnapshotsRef s) <= 50 ->
  length (captureSnapshot e s) <= 50.
Proof.
  intros Hlen. unfold captureSnapshot.
  destruct (Nat.ltb_spec (length (spectrumSnapshotsRef s)) 50) as [Hroom|Hroom];
    destruct (hasSound (inputData e)), (analyserRef s),
      (num_lt (random e) lit_0_1); cbn [andb]; try exact Hlen.
  rewrite length_app. simpl. lia.
Qed.

Lemma Status_eqb_eq (a b : Status) : Status_eqb a b = true <-> a = b.
Proof. destruct a, b; simpl; split; congruence. Qed.

Lemma invariant_dispatch (ev : Event A) (s : State A) :
  invariant s -> invariant (dispatch ev s).
Proof.
  intros Hinv. pose proof Hinv as (Hout & Hin & Hsnap & Hdet).
  destruct ev as [|names| |granted|e|batch|]; cbn [dispatch].
  - (* ModelFetched *)
    destruct (Status_eqb (status s) Loading) eqn:Hst; cbn [andb];
      [|exact Hinv].
    apply Status_eqb_eq in Hst.
    destruct (negb (model s)); [|exact Hinv].
    unfold invariant, ready. cbn. rewrite Hst.
    split; [intros _; apply Hout; congruence|].
    split; [discriminate|]. split; assumption.
  - (* ClassNamesFetched *)
    destruct (Status_eqb (status s) Loading) eqn:Hst; cbn [andb];
      [|exact Hinv].
    apply Status_eqb_eq in Hst.
    destruct (model s); [|exact Hinv].
    unfold invariant, ready. cbn.
    split; [intros _; apply Hout; congruence|].
    split; [discriminate|]. split; assumption.
  - (* LoadFailed *)
    destruct (Status_eqb (status s) Loading) eqn:Hst;
      [|exact Hinv].
    apply Status_eqb_eq in Hst.
    unfold invariant, ready. cbn.
    split; [intros _; apply Hout; congruence|].
    split; [discriminate|]. split; assumption.
  - (* StartClicked *)
    destruct (Status_eqb (status s) Loading) eqn:Hld; cbn [orb];
      [exact Hinv|].
    destruct (Status_eqb (status s) Listening) eqn:Hls; cbn [orb];
      [exact Hinv|].
    destruct (model s) eqn:Hm; cbn [negb]; [|exact Hinv].
    assert (Hnl : status s <> Listening).
    { intros H. apply Status_eqb_eq in H. congruence. }
    destruct (Hout Hnl) as (Hbuf & Hvol & Hproc).
    unfold startListening. rewrite Hm. cbn [negb orb].
    destruct (classNames s) as [|name names] eqn:Hc; cbn [length Nat.eqb].
    + unfold invariant, ready. cbn.
      split; [intros _; auto|]. split; [congruence|]. split; assumption.
    + destruct granted; unfold invariant, ready; cbn.
      * split; [congruence|].
        split; [intros _; repeat split; congruence|].
        split; [auto with arith | assumption].
      * split; [intros _; auto|]. split; [discriminate|].
        split; [auto with arith | assumption].
  - (* AudioProcess *)
    destruct (scriptProcessorRef s) eqn:Hproc; [|exact Hinv].
    assert (Hl : status s = Listening).
    { destruct (status s) eqn:Hst; try reflexivity;
        (assert (Hnl : status s <> Listening) by congruence;
         rewrite <- Hst in Hout; destruct (Hout Hnl) as (_ & _ & Hoff);
         congruence). }
    destruct (Hin Hl) as (Hdata & (Hm & Hc & Hli) & Han).
    pose proof (onaudioprocess_fields e s) as Hf. cbv zeta in Hf.
    destruct Hf as (Hst' & Hdet' & Hm' & Hc' & _ & Hdata' & Han' & _ & Hli' & Hsnap').
    unfold invariant, ready.
    rewrite Hst', Hdet', Hm', Hc', Hdata', Han', Hli', Hsnap'.
    split; [congruence|]. split; [intros _; auto|].
    split; [apply captureSnapshot_length, Hsnap | exact Hdet].
  - (* InferenceDone *)
    destruct (0 <? inflight s); [|exact Hinv].
    unfold invariant, ready. cbn.
    split; [exact Hout|]. split; [exact Hin|].
    split; [exact Hsnap | apply ingest_length, Hdet].
  - (* StopClicked *)
    destruct (Status_eqb (status s) Listening); [|exact Hinv].
    unfold invariant, ready. cbn.
    split; [auto|]. split; [discriminate|]. split; [auto with arith | exact Hdet].
Qed.

Lemma invariant_run (evs : list (Event A)) : forall s : State A,
  invariant s -> invariant (run evs s).
Proof.
  induction evs as [|ev evs IH]; intros s Hs; [exact Hs|].
  cbn [run fold_left]. apply IH, invariant_dispatch, Hs.
Qed.

Lemma reachable_invariant (s : State A) : reachable s -> invariant s.
Proof.
  intros [evs ->]. apply invariant_run.
  unfold invariant, ready. cbn.
  split; [auto|]. split; [discriminate|]. split; auto with arith.
Qed.

End Reachable.

(** ** Start and stop *)

Section Lifecycle.

Context {A : Type} {NumA : Number A}.

(** C4 (as amended): when a start request takes the application into
    'listening', the sample buffer, the volume history and the snapshot
    collection are empty (and so is the displayed spectrum); the
    detection history is what it was before the request. *)
Theorem start_enters_listening (s : State A) :
  reachable s ->
  status s <> Listening ->
  status (dispatch (StartClicked true) s) = Listening ->
  let s' := dispatch (StartClicked true) s in
  audioBufferRef s' = [] /\ volumeHistoryRef s' = [] /\
  spectrumSnapshotsRef s' = [] /\ spectrumData s' = [] /\
  detections s' = detections s.
Proof.
  intros Hreach Hnl Hst s'.
  destruct (reachable_invariant s Hreach) as (Hout & _).
  destruct (Hout Hnl) as (Hbuf & Hvol & _).
  unfold s' in *. clear s'. cbn [dispatch] in *.
  destruct (Status_eqb (status s) Loading || Status_eqb (status s) Listening
            || negb (model s)); [congruence|].
  unfold startListening in *.
  destruct (negb (model s) || (length (classNames s) =? 0));
    [cbn in Hst; congruence|].
  cbn. auto.
Qed.

(** C9 (as amended): a start request made while the model or the class
    names are missing is refused: the status stays what it was, the
    error message becomes 'Model not loaded yet', and nothing else
    changes, the sample buffer, the volume history, the snapshot
    collection and the detection history included. *)
Theorem start_refused_when_not_ready (granted : bool) (s : State A) :
  model s = false \/ classNames s = [] ->
  let s' := startListening granted s in
  status s' = status s /\
  error s' = "Model not loaded yet"%string /\
  audioBufferRef s' = audioBufferRef s /\
  volumeHistoryRef s' = volumeHistoryRef s /\
  spectrumSnapshotsRef s' = spectrumSnapshotsRef s /\
  detections s' = detections s /\
  model s' = model s /\ classNames s' = classNames s /\
  summary s' = summary s /\ spectrumData s' = spectrumData s /\
  analyserRef s' = analyserRef s /\
  scriptProcessorRef s' = scriptProcessorRef s /\
  isListeningRef s' = isListeningRef s /\
  inflight s' = inflight s.
Proof.
  intros Hnot s'. unfold s', startListening.
  assert (Hguard : negb (model s) || (length (classNames s) =? 0) = true).
  { destruct Hnot as [Hm|Hc]; [rewrite Hm | rewrite Hc, orb_true_r]; reflexivity. }
  rewrite Hguard. cbn. repeat split; reflexivity.
Qed.

(** C8 (as amended): stopping a session in which no chunk was processed
    is an ordinary stop: the status becomes 'idle', no metrics are
    computed, the spectrum is empty if no snapshot was captured, and the
    summary is the no-sounds text if the detection history is empty. *)
Theorem stop_without_frames (s : State A) :
  reachable s ->
  status s = Listening ->
  volumeHistoryRef s = [] ->
  let s' := dispatch StopClicked s in
  status s' = Idle /\
  calculateMetrics (volumeHistoryRef s) = None /\
  summary s' = generateSummary None (detections s) /\
  (spectrumSnapshotsRef s = [] -> spectrumData s' = []) /\
  (detections s = [] -> summary s' = NoSoundsDetected).
Proof.
  intros Hreach Hl Hvol s'.
  destruct (reachable_invariant s Hreach) as (_ & Hin & _).
  destruct (Hin Hl) as (Hdata & _).
  unfold s'. cbn [dispatch]. rewrite Hl. cbn [Status_eqb].
  unfold stopListening. cbn [status summary spectrumData].
  rewrite Hvol. cbn [calculateMetrics].
  repeat split.
  - intros Hemp. rewrite Hemp. exact Hdata.
  - intros Hnone. rewrite Hnone. reflexivity.
Qed.

End Lifecycle.

(** C4, as stated, fails: the detection of a first session is still in
    the history when a second session enters 'listening'. *)
Lemma detections_survive_restart :
  let before := run Scenario.first_session Scenario.loaded in
  let s := dispatch (StartClicked true) before in
  status before = Idle /\ status s = Listening /\
  detections s = [Scenario.speech] /\ detections s <> [].
Proof.
  cbv zeta. repeat split; try (vm_compute; reflexivity).
  vm_compute. discriminate.
Qed.

Lemma start_enters_listening_witness :
  audioBufferRef (dispatch (StartClicked true) Scenario.loaded) = [] /\
  volumeHistoryRef (dispatch (StartClicked true) Scenario.loaded) = [] /\
  spectrumSnapshotsRef (dispatch (StartClicked true) Scenario.loaded) = [] /\
  spectrumData (dispatch (StartClicked true) Scenario.loaded) = [] /\
  detections (dispatch (StartClicked true) Scenario.loaded)
  = detections Scenario.loaded.
Proof.
  apply (start_enters_listening Scenario.loaded).
  - exists [ModelFetched; ClassNamesFetched ["Speech"%string; "Music"%string]].
    reflexivity.
  - vm_compute. discriminate.
  - vm_compute. reflexivity.
Defined.

(** C9, as stated, fails: when the class names could not be fetched the
    status is 'error', the Start button is enabled, and the refused
    request leaves the status at 'error', not 'idle'. *)
Lemma refused_start_stays_in_error :
  let s := Scenario.names_failed in
  let s' := dispatch (StartClicked true) s in
  classNames s = [] /\ s' = startListening true s /\
  error s' = "Model not loaded yet"%string /\
  status s' = Error /\ status s' <> Idle.
Proof.
  cbv zeta. repeat split; try (vm_compute; reflexivity).
  vm_compute. discriminate.
Qed.

Lemma start_refused_when_not_ready_witness :
  status (startListening true Scenario.names_failed) = status Scenario.names_failed /\
  detections (startListening true Scenario.names_failed)
  = detections Scenario.names_failed.
Proof.
  pose proof (start_refused_when_not_ready true Scenario.names_failed
                (or_intror eq_refl)) as H.
  cbv zeta in H. split; [apply H | apply H].
Defined.

(** C8, as stated, fails: in a second session that is stopped after one
    burst (4,096 samples, no chunk) whose snapshot was captured, the
    spectrum has 128 bins, and the summary is built from the detection of
    the first session. *)
Lemma stop_without_frames_not_empty :
  let s := run (Scenario.first_session
                  ++ [StartClicked true; AudioProcess Scenario.loud])
               Scenario.loaded in
  let s' := dispatch StopClicked s in
  status s = Listening /\ volumeHistoryRef s = [] /\
  length (spectrumData s') = 128 /\
  summary s' = SessionSummary [Scenario.speech] None /\
  spectrumData s' <> [] /\ summary s' <> NoSoundsDetected.
Proof.
  cbv zeta. repeat split; try (vm_compute; reflexivity);
    vm_compute; discriminate.
Qed.

Lemma stop_without_frames_witness :
  status (dispatch StopClicked Scenario.started) = Idle /\
  summary (dispatch StopClicked Scenario.started) = NoSoundsDetected.
Proof.
  pose proof (stop_without_frames Scenario.started) as H.
  cbv zeta in H.
  destruct H as (Hst & _ & _ & _ & Hsum).
  - exists [ModelFetched; ClassNamesFetched ["Speech"%string; "Music"%string];
            StartClicked true].
    reflexivity.
  - reflexivity.
  - reflexivity.
  - split; [exact Hst | apply Hsum; reflexivity].
Defined.

(** ** Sums, extremes and sorting in exact arithmetic *)

Section Statistics.

Import Exact.
Local Open Scope R_scope.

Lemma fold_left_Rplus (l : list R) : forall a,
  fold_left Rplus l a = a + Rsum l.
Proof.
  induction l as [|x l IH]; intros a; simpl.
  - lra.
  - rewrite IH. lra.
Qed.

Lemma sum_exact (l : list R) : sum l = Rsum l.
Proof.
  unfold sum. change (fold_left Rplus l 0 = Rsum l).
  rewrite fold_left_Rplus. lra.
Qed.

Lemma Rsum_app (l1 l2 : list R) : Rsum (l1 ++ l2) = Rsum l1 + Rsum l2.
Proof. induction l1 as [|x l1 IH]; simpl; [|rewrite IH]; lra. Qed.

Lemma Rsum_perm (l l' : list R) : Permutation l l' -> Rsum l = Rsum l'.
Proof. induction 1; simpl; lra. Qed.

Lemma Rsum_upper (M : R) (l : list R) :
  Forall (fun x => x <= M) l -> Rsum l <= INR (length l) * M.
Proof.
  induction 1 as [|x l Hx _ IH]; [simpl; lra|].
  cbn [length Rsum fold_right]. rewrite S_INR. fold (Rsum l). lra.
Qed.

Lemma Rsum_lower (m : R) (l : list R) :
  Forall (fun x => m <= x) l -> INR (length l) * m <= Rsum l.
Proof.
  induction 1 as [|x l Hx _ IH]; [simpl; lra|].
  cbn [length Rsum fold_right]. rewrite S_INR. fold (Rsum l). lra.
Qed.

(** *** Maximum and minimum *)

Lemma Math_max_spec (vs : list R) : forall v,
  In (Math_max v vs) (v :: vs) /\
  Forall (fun x => x <= Math_max v vs) (v :: vs).
Proof.
  unfold Math_max. induction vs as [|x vs IH]; intros v; cbn [fold_left].
  - split; [left; reflexivity|]. constructor; [lra | constructor].
  - change (Math_max2 v x) with (Rmax v x).
    destruct (IH (Rmax v x)) as [Hin Hall].
    inversion Hall as [|? ? Hm Hrest]; subst.
    split.
    + destruct Hin as [Hin|Hin]; [|right; right; exact Hin].
      rewrite <- Hin. unfold Rmax.
      destruct (Rle_dec v x); [right; left | left]; reflexivity.
    + pose proof (Rmax_l v x). pose proof (Rmax_r v x).
      apply Forall_cons; [lra|]. apply Forall_cons; [lra|]. exact Hrest.
Qed.

Lemma Math_min_spec (vs : list R) : forall v,
  In (Math_min v vs) (v :: vs) /\
  Forall (fun x => Math_min v vs <= x) (v :: vs).
Proof.
  unfold Math_min. induction vs as [|x vs IH]; intros v; cbn [fold_left].
  - split; [left; reflexivity|]. constructor; [lra | constructor].
  - change (Math_min2 v x) with (Rmin v x).
    destruct (IH (Rmin v x)) as [Hin Hall].
    inversion Hall as [|? ? Hm Hrest]; subst.
    split.
    + destruct Hin as [Hin|Hin]; [|right; right; exact Hin].
      rewrite <- Hin. unfold Rmin.
      destruct (Rle_dec v x); [left | right; left]; reflexivity.
    + pose proof (Rmin_l v x). pose proof (Rmin_r v x).
      apply Forall_cons; [lra|]. apply Forall_cons; [lra|]. exact Hrest.
Qed.

(** *** Sorting *)

Lemma insert_exact (x y : R) (rest : list R) :
  insert x (y :: rest)
  = if Rlt_dec y x then y :: insert x rest else x :: y :: rest.
Proof.
  cbn [insert]. change (num_lt (num_sub y x) (of_nat 0)) with (lt (y - x) 0).
  unfold lt. destruct (Rlt_dec (y - x) 0), (Rlt_dec y x); try reflexivity; lra.
Qed.

Lemma insert_perm (x : R) (l : list R) : Permutation (insert x l) (x :: l).
Proof.
  induction l as [|y l IH]; [reflexivity|].
  rewrite insert_exact. destruct (Rlt_dec y x); [|reflexivity].
  rewrite IH. apply perm_swap.
Qed.

Lemma insert_sorted (x : R) (l : list R) :
  StronglySorted Rle l -> StronglySorted Rle (insert x l).
Proof.
  induction 1 as [|y l Hl IH Hy].
  - repeat constructor.
  - rewrite insert_exact. destruct (Rlt_dec y x) as [Hlt|Hge].
    + constructor; [exact IH|].
      apply (Permutation_Forall (Permutation_sym (insert_perm x l))).
      constructor; [lra | exact Hy].
    + constructor; [constructor; assumption|].
      constructor; [lra|].
      eapply Forall_impl; [|exact Hy]. intros z Hz. simpl in Hz. lra.
Qed.

Lemma sortAscending_perm (l : list R) : Permutation (sortAscending l) l.
Proof.
  unfold sortAscending. induction l as [|x l IH]; [reflexivity|].
  cbn [fold_right]. rewrite insert_perm, IH. reflexivity.
Qed.

Lemma sortAscending_sorted (l : list R) : StronglySorted Rle (sortAscending l).
Proof.
  unfold sortAscending. induction l as [|x l IH]; [constructor|].
  cbn [fold_right]. apply insert_sorted, IH.
Qed.

Lemma StronglySorted_app (l1 l2 : list R) :
  StronglySorted Rle (l1 ++ l2) ->
  StronglySorted Rle l2 /\
  Forall (fun x => Forall (fun y => x <= y) l2) l1.
Proof.
  induction l1 as [|x l1 IH]; cbn [app]; intros Hs.
  - split; [exact Hs | constructor].
  - inversion Hs as [|? ? Hs' Hx]; subst.
    destruct (IH Hs') as [H2 Hcross]. split; [exact H2|].
    constructor; [|exact Hcross].
    apply Forall_app in Hx. apply Hx.
Qed.

(** The mean of the first [k] entries of a sorted list is at most the
    mean of the list, written without division. *)
Lemma lowest_mean (l : list R) (k : nat) :
  StronglySorted Rle l ->
  INR (length l) * Rsum (firstn k l)
  <= INR (length (firstn k l)) * Rsum l.
Proof.
  intros Hs. pose proof (firstn_skipn k l) as Hl.
  remember (firstn k l) as l1 eqn:E1. remember (skipn k l) as l2 eqn:E2.
  clear E1 E2. subst l.
  rewrite length_app, plus_INR, Rsum_app.
  destruct (StronglySorted_app l1 l2 Hs) as [Hs2 Hcross].
  pose proof (pos_INR (length l1)) as Hn1.
  pose proof (pos_INR (length l2)) as Hn2.
  assert (Hkey : INR (length l2) * Rsum l1 <= INR (length l1) * Rsum l2).
  { destruct l2 as [|y0 l2'].
    - simpl. lra.
    - assert (Hup : Rsum l1 <= INR (length l1) * y0).
      { apply Rsum_upper. eapply Forall_impl; [|exact Hcross].
        intros x Hx. inversion Hx; assumption. }
      assert (Hlow : INR (length (y0 :: l2')) * y0 <= Rsum (y0 :: l2')).
      { apply Rsum_lower. inversion Hs2; subst.
        constructor; [lra | assumption]. }
      nra. }
  lra.
Qed.

(** *** The size of the lowest tenth *)

Lemma ceil_spec (x : R) (z : Z) :
  IZR z - 1 < x <= IZR z -> ceil x = z.
Proof.
  intros [Hlo Hhi]. unfold ceil.
  assert (Hup : (1 - z)%Z = up (- x)).
  { apply tech_up; rewrite minus_IZR; lra. }
  rewrite <- Hup. lia.
Qed.

Lemma ceil_tenth (n : nat) :
  Z.to_nat (Math_ceil (num_mul (of_nat n) lit_0_1 : R)) = ((n + 9) / 10)%nat.
Proof.
  change (Z.to_nat (ceil (INR n * (1 / 10))) = ((n + 9) / 10)%nat).
  pose proof (Nat.div_mod_eq (n + 9) 10) as Hdm.
  pose proof (Nat.mod_upper_bound (n + 9) 10 ltac:(discriminate)) as Hr.
  set (q := ((n + 9) / 10)%nat) in *.
  rewrite (ceil_spec (INR n * (1 / 10)) (Z.of_nat q)); [apply Nat2Z.id|].
  rewrite <- INR_IZR_INZ.
  assert (Hle : INR n <= INR (10 * q)) by (apply le_INR; lia).
  assert (Hlt : INR (10 * q) < INR (n + 10)) by (apply lt_INR; lia).
  rewrite mult_INR in Hle, Hlt. rewrite plus_INR in Hlt.
  replace (INR 10) with 10 in Hle, Hlt by (simpl; lra).
  lra.
Qed.

Lemma lowest_split (volumes : list R) :
  exists rest,
    Permutation (noiseFloorSamples volumes ++ rest) volumes /\
    StronglySorted Rle (noiseFloorSamples volumes ++ rest).
Proof.
  unfold noiseFloorSamples.
  exists (skipn (Z.to_nat (Math_ceil (num_mul (of_nat (length (sortAscending volumes)))
                                            lit_0_1)))
                (sortAscending volumes)).
  rewrite firstn_skipn.
  split; [apply sortAscending_perm | apply sortAscending_sorted].
Qed.

Lemma lowest_length (volumes : list R) :
  volumes <> [] ->
  length (noiseFloorSamples volumes) = ((length volumes + 9) / 10)%nat /\
  (1 <= length (noiseFloorSamples volumes))%nat.
Proof.
  intros Hne. unfold noiseFloorSamples.
  rewrite ceil_tenth, length_firstn,
    (Permutation_length (sortAscending_perm volumes)).
  assert (Hn : (1 <= length volumes)%nat)
    by (destruct volumes; [congruence | simpl; lia]).
  pose proof (Nat.div_mod_eq (length volumes + 9) 10) as Hdm.
  pose proof (Nat.mod_upper_bound (length volumes + 9) 10 ltac:(discriminate)) as Hr.
  lia.
Qed.

End Statistics.

(** ** Rounding in binary64 *)

(** The operations of primitive floats are specified by [SpecFloat].
    Each of [+], [*], [/] and the square root, on normal numbers and
    away from overflow, returns a normal number within the relative
    distance [u = 2^-52] of the exact result. *)

Section FloatCore.

Import B64.
Local Open Scope Z_scope.

Lemma bpow_pos (e : Z) : (0 < bpow e)%R.
Proof. apply powerRZ_lt. lra. Qed.

Lemma bpow_add (a b : Z) : bpow (a + b) = (bpow a * bpow b)%R.
Proof. apply powerRZ_add. lra. Qed.

Lemma bpow_0 : bpow 0 = 1%R.
Proof. reflexivity. Qed.

Lemma bpow_1 : bpow 1 = 2%R.
Proof. unfold bpow. simpl. lra. Qed.

Lemma bpow_opp (a : Z) : bpow (- a) = (/ bpow a)%R.
Proof. apply powerRZ_neg'. Qed.

Lemma bpow_IZR (n : Z) : 0 <= n -> bpow n = IZR (2 ^ n).
Proof.
  intros Hn. unfold bpow. destruct n as [|p|p]; [reflexivity| |lia].
  rewrite <- Zpower_pos_powerRZ. reflexivity.
Qed.

Lemma bpow_le (a b : Z) : a <= b -> (bpow a <= bpow b)%R.
Proof.
  intros Hab. replace b with (a + (b - a)) by lia. rewrite bpow_add.
  rewrite (bpow_IZR (b - a)) by lia.
  assert (H1 : (1 <= IZR (2 ^ (b - a)))%R).
  { apply IZR_le. pose proof (Z.pow_pos_nonneg 2 (b - a)). lia. }
  pose proof (bpow_pos a). nra.
Qed.

Lemma bpow_lt (a b : Z) : a < b -> (bpow a < bpow b)%R.
Proof.
  intros Hab. replace b with (a + (b - a)) by lia. rewrite bpow_add.
  rewrite (bpow_IZR (b - a)) by lia.
  assert (H1 : (2 <= IZR (2 ^ (b - a)))%R).
  { apply IZR_le. replace (b - a) with (1 + (b - a - 1)) by lia.
    rewrite Z.pow_add_r by lia.
    pose proof (Z.pow_pos_nonneg 2 (b - a - 1)). lia. }
  pose proof (bpow_pos a). nra.
Qed.

Lemma bpow_lt_inv (a b : Z) : (bpow a < bpow b)%R -> a < b.
Proof.
  intros H. destruct (Z_lt_le_dec a b) as [Hlt|Hge]; [exact Hlt|].
  pose proof (bpow_le b a Hge). lra.
Qed.

Lemma bpow_le_inv (a b : Z) : (bpow a <= bpow b)%R -> a <= b.
Proof.
  intros H. destruct (Z_le_gt_dec a b) as [Hle|Hgt]; [exact Hle|].
  pose proof (bpow_lt b a ltac:(lia)). lra.
Qed.

(** *** Digits *)

Lemma digits2_log2 (m : positive) :
  Z.pos (digits2_pos m) = Z.log2 (Z.pos m) + 1.
Proof.
  induction m as [m IH|m IH|]; cbn [digits2_pos].
  - rewrite Pos2Z.inj_succ, IH.
    change (Z.pos m~1) with (2 * Z.pos m + 1).
    rewrite Z.log2_succ_double by lia. lia.
  - rewrite Pos2Z.inj_succ, IH.
    change (Z.pos m~0) with (2 * Z.pos m).
    rewrite Z.log2_double by lia. lia.
  - reflexivity.
Qed.

Lemma Zdigits2_log2 (m : Z) : 0 < m -> Zdigits2 m = Z.log2 m + 1.
Proof.
  destruct m as [|p|p]; try lia. intros _. apply digits2_log2.
Qed.

Lemma digits_bounds (m : Z) :
  0 < m -> 2 ^ Z.log2 m <= m < 2 ^ (Z.log2 m + 1).
Proof.
  intros Hm. pose proof (Z.log2_spec m Hm) as H.
  replace (Z.succ (Z.log2 m)) with (Z.log2 m + 1) in H by lia. exact H.
Qed.

Lemma log2_bounds_unique (m d : Z) :
  2 ^ (d - 1) <= m < 2 ^ d -> 0 < d -> Z.log2 m + 1 = d.
Proof.
  intros H Hd. rewrite (Z.log2_unique m (d - 1)); [lia | lia |].
  replace (Z.succ (d - 1)) with d by lia. exact H.
Qed.

(** *** Shifting right *)

Lemma shr_1_m (mrs : shr_record) :
  0 <= shr_m mrs -> shr_m (shr_1 mrs) = shr_m mrs / 2.
Proof.
  destruct mrs as [m r s]. cbn [shr_m]. intros Hm.
  destruct m as [|p|p]; [reflexivity| |lia].
  destruct p as [p|p|]; cbn [shr_1 shr_m].
  - change (Z.pos p~1) with (2 * Z.pos p + 1).
    apply Z.div_unique with (r := 1); lia.
  - change (Z.pos p~0) with (2 * Z.pos p).
    apply Z.div_unique with (r := 0); lia.
  - reflexivity.
Qed.

Lemma iter_shr_1_m (p : positive) : forall mrs,
  0 <= shr_m mrs ->
  shr_m (SpecFloat.iter_pos shr_1 p mrs) = shr_m mrs / 2 ^ Z.pos p.
Proof.
  induction p as [p IH|p IH|]; intros mrs Hm; cbn [SpecFloat.iter_pos].
  - assert (H1 : 0 <= shr_m (shr_1 mrs))
      by (rewrite shr_1_m by exact Hm; apply Z.div_pos; lia).
    assert (H2 : 0 <= shr_m (SpecFloat.iter_pos shr_1 p (shr_1 mrs)))
      by (rewrite IH by exact H1; apply Z.div_pos; [lia | apply Z.pow_pos_nonneg; lia]).
    rewrite IH by exact H2. rewrite IH by exact H1. rewrite shr_1_m by exact Hm.
    rewrite !Z.div_div by (try apply Z.pow_pos_nonneg; lia).
    f_equal. replace (Z.pos p~1) with (1 + (Z.pos p + Z.pos p)) by lia.
    rewrite !Z.pow_add_r by lia. lia.
  - assert (H2 : 0 <= shr_m (SpecFloat.iter_pos shr_1 p mrs))
      by (rewrite IH by exact Hm; apply Z.div_pos; [lia | apply Z.pow_pos_nonneg; lia]).
    rewrite IH by exact H2. rewrite IH by exact Hm.
    rewrite !Z.div_div by (try apply Z.pow_pos_nonneg; lia).
    f_equal. replace (Z.pos p~0) with (Z.pos p + Z.pos p) by lia.
    rewrite !Z.pow_add_r by lia. lia.
  - rewrite shr_1_m by exact Hm. reflexivity.
Qed.

Lemma shr_m_spec (m : Z) (l : location) (e n : Z) :
  0 <= m -> 0 <= n ->
  shr_m (fst (shr (shr_record_of_loc m l) e n)) = m / 2 ^ n /\
  snd (shr (shr_record_of_loc m l) e n) = e + n.
Proof.
  intros Hm Hn.
  assert (Hrec : shr_m (shr_record_of_loc m l) = m)
    by (destruct l as [|[]]; reflexivity).
  destruct n as [|p|p]; [| |lia]; cbn [shr fst snd].
  - rewrite Hrec, Z.pow_0_r, Z.div_1_r. split; [reflexivity | lia].
  - rewrite iter_shr_1_m by (rewrite Hrec; exact Hm). rewrite Hrec.
    split; reflexivity.
Qed.

Lemma round_nearest_even_cases (m : Z) (l : location) :
  round_nearest_even m l = m \/ round_nearest_even m l = m + 1.
Proof.
  destruct l as [|[]]; cbn [round_nearest_even]; auto.
  destruct (Z.even m); auto.
Qed.

Lemma loc_of_shr_record_of_loc (m : Z) (l : location) :
  loc_of_shr_record (shr_record_of_loc m l) = l.
Proof. destruct l as [|[]]; reflexivity. Qed.

(** *** Rounding a located mantissa *)

Lemma fexp_normal (e : Z) : -1021 <= e -> fexp prec emax e = e - 53.
Proof. intros He. unfold fexp, SpecFloat.emin, prec, emax. lia. Qed.

Lemma quotient_bounds (m n : Z) :
  0 <= n -> 2 ^ (52 + n) <= m < 2 ^ (53 + n) ->
  2 ^ 52 <= m / 2 ^ n < 2 ^ 53.
Proof.
  intros Hn [Hlo Hhi].
  assert (Hp : 0 < 2 ^ n) by (apply Z.pow_pos_nonneg; lia).
  rewrite Z.pow_add_r in Hlo, Hhi by lia.
  split.
  - apply Z.div_le_lower_bound; [exact Hp | lia].
  - apply Z.div_lt_upper_bound; [exact Hp | lia].
Qed.

(** Rounding [m * 2^e] (with [m] of at least 53 bits, in the range of
    the normal numbers) keeps the sign, gives a normal number, and moves
    the value at most to the next multiple of [2^(e+n)], where [n] is
    the number of bits dropped. *)
Lemma round_aux_normal (s : bool) (m e : Z) (l : location) :
  0 < m -> 53 <= Z.log2 m + 1 ->
  -1021 <= Z.log2 m + 1 + e <= 1023 ->
  exists m2 e2 q',
    binary_round_aux prec emax s m e l = S754_finite s m2 e2 /\
    Z.pos (digits2_pos m2) = 53 /\
    (q' = m / 2 ^ (Z.log2 m + 1 - 53) \/ q' = m / 2 ^ (Z.log2 m + 1 - 53) + 1) /\
    (IZR (Z.pos m2) * bpow e2 = IZR q' * bpow (e + (Z.log2 m + 1 - 53)))%R /\
    (Z.log2 m + 1 = 53 -> l = loc_Exact -> Z.pos m2 = m /\ e2 = e).
Proof.
  intros Hm Hd Hrange.
  set (d := Z.log2 m + 1) in *. set (n := d - 53). set (q := m / 2 ^ n).
  assert (Hn : 0 <= n) by (unfold n; lia).
  assert (Hq : 2 ^ 52 <= q < 2 ^ 53).
  { apply quotient_bounds; [exact Hn|].
    pose proof (digits_bounds m Hm) as Hb. fold d in Hb.
    replace (52 + n) with (Z.log2 m) by (unfold n, d; lia).
    replace (53 + n) with d by (unfold n; lia). exact Hb. }
  unfold binary_round_aux, shr_fexp.
  rewrite (Zdigits2_log2 m Hm). fold d.
  rewrite (fexp_normal (d + e)) by lia.
  replace (d + e - 53 - e) with n by (unfold n; lia).
  destruct (shr_m_spec m l e n ltac:(lia) Hn) as [Hm1 He1].
  destruct (shr (shr_record_of_loc m l) e n) as [mrs' e'] eqn:E1.
  cbn [fst snd] in Hm1, He1. fold q in Hm1.
  set (m1 := round_nearest_even (shr_m mrs') (loc_of_shr_record mrs')).
  assert (Hexact : d = 53 -> l = loc_Exact -> m1 = m).
  { intros Hd53 Hl. subst l. unfold m1.
    assert (Hn0 : n = 0) by (unfold n; lia). rewrite Hn0 in E1.
    cbn [shr shr_record_of_loc] in E1. inversion E1; subst mrs'. reflexivity. }
  assert (Hm1c : m1 = q \/ m1 = q + 1).
  { unfold m1. rewrite <- Hm1. apply round_nearest_even_cases. }
  assert (Hm1pos : 0 < m1) by lia.
  assert (He' : -1074 <= e' <= 970) by (subst e'; unfold n; lia).
  assert (Hqm : d = 53 -> q = m).
  { intros Hd53. unfold q. replace n with 0 by (unfold n; lia).
    rewrite Z.pow_0_r. apply Z.div_1_r. }
  destruct (Z_lt_le_dec m1 (2 ^ 53)) as [Hsmall|Hbig].
  - (* the rounded mantissa still has 53 bits *)
    assert (Hd1 : Z.log2 m1 + 1 = 53) by (apply log2_bounds_unique; lia).
    rewrite (Zdigits2_log2 m1 Hm1pos), Hd1.
    replace (fexp prec emax (53 + e') - e') with 0
      by (unfold fexp, SpecFloat.emin, prec, emax; lia).
    destruct (shr_m_spec m1 loc_Exact e' 0 ltac:(lia) ltac:(lia)) as [Hm2 He2].
    destruct (shr (shr_record_of_loc m1 loc_Exact) e' 0) as [mrs2 e2] eqn:E2.
    cbn [fst snd] in Hm2, He2. rewrite Z.pow_0_r, Z.div_1_r in Hm2.
    rewrite Hm2. destruct m1 as [|p1|p1]; try lia.
    replace (e2 <=? emax - prec) with true
      by (symmetry; apply Z.leb_le; unfold emax, prec; lia).
    exists p1, e2, (Z.pos p1).
    split; [reflexivity|]. split; [rewrite digits2_log2; exact Hd1|].
    split; [exact Hm1c|]. split.
    + replace e2 with (e + n) by lia. reflexivity.
    + intros Hd53 Hl. split; [apply Hexact; assumption|].
      unfold n in *. lia.
  - (* the mantissa was rounded up to 2^53 *)
    assert (Hm1v : m1 = 2 ^ 53) by lia.
    assert (Hd1 : Z.log2 m1 + 1 = 54)
      by (rewrite Hm1v; rewrite Z.log2_pow2 by lia; reflexivity).
    rewrite (Zdigits2_log2 m1 Hm1pos), Hd1.
    replace (fexp prec emax (54 + e') - e') with 1
      by (unfold fexp, SpecFloat.emin, prec, emax; lia).
    destruct (shr_m_spec m1 loc_Exact e' 1 ltac:(lia) ltac:(lia)) as [Hm2 He2].
    destruct (shr (shr_record_of_loc m1 loc_Exact) e' 1) as [mrs2 e2] eqn:E2.
    cbn [fst snd] in Hm2, He2.
    assert (Hm2v : shr_m mrs2 = 2 ^ 52)
      by (rewrite Hm2, Hm1v; reflexivity).
    rewrite Hm2v. change (2 ^ 52) with (Z.pos (2 ^ 52)%positive).
    replace (e2 <=? emax - prec) with true
      by (symmetry; apply Z.leb_le; unfold emax, prec; lia).
    exists (2 ^ 52)%positive, e2, (q + 1).
    split; [reflexivity|]. split; [reflexivity|].
    split; [right; reflexivity|]. split.
    + replace e2 with (1 + (e + n)) by lia. rewrite bpow_add, bpow_1.
      replace (q + 1) with (2 ^ 53) by lia.
      change (Z.pos (2 ^ 52)%positive) with (2 ^ 52).
      change (2 ^ 53) with (2 * 2 ^ 52). rewrite mult_IZR. lra.
    + intros Hd53 Hl. specialize (Hexact Hd53 Hl). specialize (Hqm Hd53). lia.
Qed.

Lemma IZR_pow2 (n : Z) : 0 <= n -> IZR (2 ^ n) = bpow n.
Proof. intros Hn. symmetry. apply bpow_IZR, Hn. Qed.

(** The size of [m * 2^e] from the number of bits of [m]. *)
Lemma mag_bounds (m e : Z) :
  0 < m ->
  (bpow (Z.log2 m + e) <= IZR m * bpow e)%R /\
  (IZR (m + 1) * bpow e <= bpow (Z.log2 m + 1 + e))%R.
Proof.
  intros Hm. destruct (digits_bounds m Hm) as [Hlo Hhi].
  pose proof (Z.log2_nonneg m) as Hl.
  pose proof (bpow_pos e) as He.
  rewrite (bpow_add (Z.log2 m) e), (bpow_add (Z.log2 m + 1) e).
  rewrite <- (IZR_pow2 (Z.log2 m)), <- (IZR_pow2 (Z.log2 m + 1)) by lia.
  split.
  - apply Rmult_le_compat_r; [lra | apply IZR_le, Hlo].
  - apply Rmult_le_compat_r; [lra | apply IZR_le; lia].
Qed.

Lemma u_bounds : (0 < u < 1)%R.
Proof.
  unfold u. split; [apply bpow_pos|].
  change 1%R with (bpow 0). apply bpow_lt. lia.
Qed.

(** Rounding a real [x] located in the cell [[m, m+1) * 2^e]: the
    result is a normal number within the relative distance [u] of [x]. *)
Lemma round_aux_real (s : bool) (m e : Z) (l : location) (x : R) :
  0 < m -> 53 <= Z.log2 m + 1 ->
  (IZR m * bpow e <= x < IZR (m + 1) * bpow e)%R ->
  (bpow (-1022) <= x < bpow 1023)%R ->
  exists m2 e2,
    binary_round_aux prec emax s m e l = S754_finite s m2 e2 /\
    Z.pos (digits2_pos m2) = 53 /\
    ((1 - u) * x <= IZR (Z.pos m2) * bpow e2 <= (1 + u) * x)%R /\
    (Z.log2 m + 1 = 53 -> l = loc_Exact -> Z.pos m2 = m /\ e2 = e).
Proof.
  intros Hm Hd [Hxlo Hxhi] [Hrlo Hrhi].
  destruct (mag_bounds m e Hm) as [Hmlo Hmhi].
  assert (Hrange : -1021 <= Z.log2 m + 1 + e <= 1023).
  { split.
    - assert (H : -1022 < Z.log2 m + 1 + e) by (apply bpow_lt_inv; lra). lia.
    - assert (H : Z.log2 m + e < 1023) by (apply bpow_lt_inv; lra). lia. }
  destruct (round_aux_normal s m e l Hm Hd Hrange)
    as (m2 & e2 & q' & Hres & Hdig & Hq' & Hval & Hex).
  exists m2, e2. split; [exact Hres|]. split; [exact Hdig|].
  split; [|exact Hex].
  rewrite Hval.
  set (n := Z.log2 m + 1 - 53) in *.
  assert (Hn : 0 <= n) by (unfold n; lia).
  set (q := m / 2 ^ n) in *.
  assert (Hp : 0 < 2 ^ n) by (apply Z.pow_pos_nonneg; lia).
  assert (Hq : 2 ^ 52 <= q < 2 ^ 53).
  { apply quotient_bounds; [exact Hn|].
    pose proof (digits_bounds m Hm) as Hb.
    replace (52 + n) with (Z.log2 m) by (unfold n; lia).
    replace (53 + n) with (Z.log2 m + 1) by (unfold n; lia). exact Hb. }
  assert (Hdiv : q * 2 ^ n <= m < (q + 1) * 2 ^ n).
  { pose proof (Z.div_mod m (2 ^ n) ltac:(lia)) as Hdm.
    pose proof (Z.mod_pos_bound m (2 ^ n) Hp) as Hmod. fold q in Hdm. lia. }
  pose proof (bpow_pos (e + n)) as Hw. set (w := bpow (e + n)) in *.
  assert (Hwv : w = (bpow e * IZR (2 ^ n))%R).
  { unfold w. rewrite bpow_add, (IZR_pow2 n Hn). reflexivity. }
  pose proof (bpow_pos e) as He.
  assert (Hlow : (IZR q * w <= x)%R).
  { apply Rle_trans with (2 := Hxlo). rewrite Hwv.
    assert (H1 : (IZR q * IZR (2 ^ n) <= IZR m)%R)
      by (rewrite <- mult_IZR; apply IZR_le; lia).
    nra. }
  assert (Hhigh : (x <= IZR (q + 1) * w)%R).
  { apply Rle_trans with (1 := Rlt_le _ _ Hxhi). rewrite Hwv.
    assert (H1 : (IZR (m + 1) <= IZR (q + 1) * IZR (2 ^ n))%R)
      by (rewrite <- mult_IZR; apply IZR_le; lia).
    nra. }
  assert (Hq52 : (bpow 52 <= IZR q)%R)
    by (rewrite <- IZR_pow2 by lia; apply IZR_le; lia).
  assert (Hu : (u * bpow 52 = 1)%R).
  { unfold u. rewrite <- bpow_add. reflexivity. }
  assert (Hwx : (w <= u * x)%R).
  { pose proof u_bounds. assert (Hx : (bpow 52 * w <= x)%R) by nra.
    replace w with (u * (bpow 52 * w))%R by (rewrite <- Rmult_assoc, Hu; lra).
    nra. }
  rewrite plus_IZR in Hhigh.
  destruct Hq' as [-> | ->]; [|rewrite plus_IZR]; split; nra.
Qed.

(** *** Aligning and normalizing *)

Lemma iter_xO (d m : positive) :
  Z.pos (Pos.iter xO m d) = Z.pos m * 2 ^ Z.pos d.
Proof.
  induction d as [|d IH] using Pos.peano_ind.
  - cbn [Pos.iter]. lia.
  - rewrite Pos.iter_succ, Pos2Z.inj_xO, IH, Pos2Z.inj_succ, Z.pow_succ_r by lia.
    lia.
Qed.

Lemma shl_align_spec (m : positive) (e e' : Z) :
  e' <= e ->
  Z.pos (fst (shl_align m e e')) = Z.pos m * 2 ^ (e - e') /\
  snd (shl_align m e e') = e'.
Proof.
  intros He. unfold shl_align.
  destruct (e' - e) as [|d|d] eqn:E; try lia; cbn [fst snd].
  - replace (e - e') with 0 by lia. split; lia.
  - rewrite iter_xO. replace (e - e') with (Z.pos d) by lia. split; reflexivity.
Qed.

Lemma shl_align_id (m : positive) (e e' : Z) :
  e <= e' -> shl_align m e e' = (m, e).
Proof.
  intros He. unfold shl_align. destruct (e' - e) eqn:E; try reflexivity. lia.
Qed.

(** A mantissa that fits is kept as it is. *)
Lemma round_aux_canonical (s : bool) (m : positive) (e : Z) :
  fexp prec emax (Z.pos (digits2_pos m) + e) = e -> e <= 971 ->
  binary_round_aux prec emax s (Z.pos m) e loc_Exact = S754_finite s m e.
Proof.
  intros Hcan He. unfold binary_round_aux, shr_fexp.
  cbn [Zdigits2]. rewrite Hcan, Z.sub_diag. cbn [shr shr_record_of_loc shr_m
    loc_of_shr_record round_nearest_even Zdigits2].
  rewrite Hcan, Z.sub_diag. cbn [shr shr_record_of_loc shr_m].
  replace (e <=? emax - prec) with true
    by (symmetry; apply Z.leb_le; unfold emax, prec; lia).
  reflexivity.
Qed.

(** [binary_round] of a positive mantissa at an exponent not below the
    least one, without overflow: the result is finite with the same
    sign, within the relative distance [u] of [m * 2^e]; it is normal
    when the result is at least [2^-1022]. *)
Lemma binary_round_real (s : bool) (m : positive) (e : Z) :
  -1074 <= e -> (IZR (Z.pos m) * bpow e < bpow 1023)%R ->
  exists m2 e2,
    binary_round prec emax s m e = S754_finite s m2 e2 /\
    ((1 - u) * (IZR (Z.pos m) * bpow e) <= IZR (Z.pos m2) * bpow e2
     <= (1 + u) * (IZR (Z.pos m) * bpow e))%R /\
    ((bpow (-1022) <= IZR (Z.pos m) * bpow e)%R -> Z.pos (digits2_pos m2) = 53) /\
    (Z.pos (digits2_pos m) <= 53 ->
     (IZR (Z.pos m2) * bpow e2 = IZR (Z.pos m) * bpow e)%R).
Proof.
  intros He Hhi.
  pose proof u_bounds as Hu.
  assert (Hm : 0 < Z.pos m) by lia.
  destruct (mag_bounds (Z.pos m) e Hm) as [Hmlo Hmhi].
  assert (Hx : (0 < IZR (Z.pos m) * bpow e)%R).
  { pose proof (bpow_pos e). assert (0 < IZR (Z.pos m))%R by (apply IZR_lt; lia). nra. }
  assert (Hde : Z.log2 (Z.pos m) + e < 1023) by (apply bpow_lt_inv; lra).
  unfold binary_round. rewrite digits2_log2.
  set (d := Z.log2 (Z.pos m) + 1) in *.
  destruct (Z_le_gt_dec (fexp prec emax (d + e)) e) as [Hshift|Hround].
  - (* at most 53 bits: the mantissa is shifted left, nothing is lost *)
    destruct (shl_align_spec m e (fexp prec emax (d + e)) Hshift) as [Hm' He'].
    destruct (shl_align m e (fexp prec emax (d + e))) as [m' e'] eqn:E.
    cbn [fst snd] in Hm', He'. subst e'.
    set (k := e - fexp prec emax (d + e)) in *.
    assert (Hk : 0 <= k) by (unfold k; lia).
    assert (Hd' : Z.pos (digits2_pos m') = d + k).
    { rewrite digits2_log2, Hm', Z.log2_mul_pow2 by lia. unfold d. lia. }
    assert (Hval : (IZR (Z.pos m') * bpow (fexp prec emax (d + e))
                    = IZR (Z.pos m) * bpow e)%R).
    { rewrite Hm', mult_IZR, IZR_pow2 by exact Hk.
      replace e with (k + fexp prec emax (d + e)) at 2 by (unfold k; lia).
      rewrite bpow_add. ring. }
    rewrite round_aux_canonical.
    + exists m', (fexp prec emax (d + e)).
      split; [reflexivity|]. rewrite Hval.
      split; [split; nra|]. split; [|intros _; reflexivity].
      intros Hnorm.
      assert (Hlo : -1022 < d + e).
      { apply bpow_lt_inv. rewrite plus_IZR in Hmhi.
        pose proof (bpow_pos e). nra. }
      rewrite Hd'. unfold k. rewrite fexp_normal by lia. lia.
    + rewrite Hd'. f_equal. unfold k. lia.
    + unfold fexp, SpecFloat.emin, prec, emax in *. lia.
  - (* more than 53 bits: the mantissa is rounded *)
    rewrite shl_align_id by lia.
    assert (Hd : 54 <= d)
      by (unfold fexp, SpecFloat.emin, prec, emax in Hround; lia).
    assert (Hnorm : (bpow (-1022) <= IZR (Z.pos m) * bpow e)%R).
    { apply Rle_trans with (2 := Hmlo). apply bpow_le. unfold d in Hd. lia. }
    destruct (round_aux_real s (Z.pos m) e loc_Exact (IZR (Z.pos m) * bpow e)
                Hm ltac:(fold d; lia))
      as (m2 & e2 & Hres & Hdig & Hval & _).
    + split; [lra|]. rewrite plus_IZR. pose proof (bpow_pos e). nra.
    + split; [exact Hnorm | exact Hhi].
    + exists m2, e2. split; [exact Hres|]. split; [exact Hval|].
      split; [intros _; exact Hdig|].
      intros Hle. lia.
Qed.

(** *** The operations on positive normal numbers *)

Lemma digits53_bounds (m : positive) :
  Z.pos (digits2_pos m) = 53 -> 2 ^ 52 <= Z.pos m < 2 ^ 53.
Proof.
  rewrite digits2_log2. intros Hd.
  pose proof (digits_bounds (Z.pos m) ltac:(lia)) as Hb.
  replace (Z.log2 (Z.pos m)) with 52 in Hb by lia. exact Hb.
Qed.

Lemma valid_finite (x : float) (s : bool) (m : positive) (e : Z) :
  Prim2SF x = S754_finite s m e ->
  fexp prec emax (Z.pos (digits2_pos m) + e) = e /\ e <= 971.
Proof.
  intros Hx. pose proof (Prim2SF_valid x) as Hv. rewrite Hx in Hv.
  cbn [SpecFloat.valid_binary] in Hv. unfold bounded, canonical_mantissa in Hv.
  apply andb_true_iff in Hv. destruct Hv as [Hc Hb].
  apply Z.eqb_eq in Hc. apply Z.leb_le in Hb.
  split; [exact Hc | unfold emax, prec in Hb; lia].
Qed.

Lemma normal_pos_repr (x : float) :
  normal_pos x = true ->
  exists m e,
    Prim2SF x = S754_finite false m e /\
    Z.pos (digits2_pos m) = 53 /\ -1074 <= e <= 971 /\
    toR x = (IZR (Z.pos m) * bpow e)%R /\
    (bpow (-1022) <= toR x)%R.
Proof.
  unfold normal_pos, toR. destruct (Prim2SF x) as [| | |[|] m e] eqn:E;
    try discriminate.
  intros Hd. apply Z.eqb_eq in Hd.
  destruct (valid_finite x false m e E) as [Hc He].
  rewrite Hd in Hc. unfold fexp, SpecFloat.emin, prec, emax in Hc.
  exists m, e. split; [reflexivity|]. split; [exact Hd|].
  split; [lia|]. split; [reflexivity|].
  cbn [SF2R cond_Zopp].
  destruct (digits53_bounds m Hd) as [Hlo _].
  apply Rle_trans with (bpow 52 * bpow e)%R.
  - rewrite <- bpow_add. apply bpow_le. lia.
  - apply Rmult_le_compat_r; [left; apply bpow_pos|].
    rewrite <- IZR_pow2 by lia. apply IZR_le, Hlo.
Qed.

Lemma normal_pos_intro (x : float) (m : positive) (e : Z) :
  Prim2SF x = S754_finite false m e -> Z.pos (digits2_pos m) = 53 ->
  normal_pos x = true /\ toR x = (IZR (Z.pos m) * bpow e)%R.
Proof.
  intros Hx Hd. unfold normal_pos, toR. rewrite Hx. cbn [SF2R cond_Zopp].
  split; [apply Z.eqb_eq, Hd | reflexivity].
Qed.

Lemma normal_pos_positive (x : float) : normal_pos x = true -> (0 < toR x)%R.
Proof.
  intros Hx. destruct (normal_pos_repr x Hx) as (m & e & _ & _ & _ & _ & Hlo).
  pose proof (bpow_pos (-1022)). lra.
Qed.

(** Addition. *)
Lemma add_normal (x y : float) :
  normal_pos x = true -> normal_pos y = true ->
  (toR x + toR y < bpow 1023)%R ->
  normal_pos (x + y) = true /\
  ((1 - u) * (toR x + toR y) <= toR (x + y) <= (1 + u) * (toR x + toR y))%R.
Proof.
  intros Hx Hy Hsum.
  destruct (normal_pos_repr x Hx) as (mx & ex & Ex & Hdx & Hex & Vx & Lx).
  destruct (normal_pos_repr y Hy) as (my & ey & Ey & Hdy & Hey & Vy & Ly).
  pose proof (add_spec x y) as Hspec. rewrite Ex, Ey in Hspec.
  unfold SF64add, SFadd in Hspec. cbv zeta in Hspec.
  set (ez := Z.min ex ey) in *.
  destruct (shl_align_spec mx ex ez ltac:(unfold ez; lia)) as [Hax _].
  destruct (shl_align_spec my ey ez ltac:(unfold ez; lia)) as [Hay _].
  set (a := fst (shl_align mx ex ez)) in *.
  set (b := fst (shl_align my ey ez)) in *.
  cbn [cond_Zopp Z.add binary_normalize] in Hspec.
  assert (Hval : (IZR (Z.pos (a + b)) * bpow ez = toR x + toR y)%R).
  { rewrite Pos2Z.inj_add, plus_IZR, Hax, Hay, !mult_IZR.
    rewrite !IZR_pow2 by (unfold ez; lia).
    rewrite Vx, Vy, Rmult_plus_distr_r, !Rmult_assoc, <- !bpow_add.
    replace (ex - ez + ez) with ex by lia.
    replace (ey - ez + ez) with ey by lia. reflexivity. }
  destruct (binary_round_real false (a + b) ez ltac:(unfold ez; lia))
    as (m2 & e2 & Hres & Hbnd & Hnorm & _).
  { rewrite Hval. exact Hsum. }
  rewrite Hres in Hspec. rewrite Hval in Hbnd, Hnorm.
  destruct (normal_pos_intro (x + y) m2 e2 Hspec) as [Hn Hv].
  { apply Hnorm. pose proof (bpow_pos (-1022)). lra. }
  split; [exact Hn|]. rewrite Hv. exact Hbnd.
Qed.

(** Multiplication of two normal numbers of any sign: here of a number
    with itself, which is what the sum of squares needs. *)
Lemma SFmul_real (sx sy : bool) (mx my : positive) (ex ey : Z) :
  Z.pos (digits2_pos mx) = 53 -> Z.pos (digits2_pos my) = 53 ->
  let P := ((IZR (Z.pos mx) * bpow ex) * (IZR (Z.pos my) * bpow ey))%R in
  (bpow (-1022) <= P < bpow 1023)%R ->
  exists m2 e2,
    SFmul prec emax (S754_finite sx mx ex) (S754_finite sy my ey)
    = S754_finite (xorb sx sy) m2 e2 /\
    Z.pos (digits2_pos m2) = 53 /\
    ((1 - u) * P <= IZR (Z.pos m2) * bpow e2 <= (1 + u) * P)%R.
Proof.
  intros Hdx Hdy P HP. cbn [SFmul].
  destruct (digits53_bounds mx Hdx) as [Hxlo Hxhi].
  destruct (digits53_bounds my Hdy) as [Hylo Hyhi].
  assert (HPv : P = (IZR (Z.pos (mx * my)) * bpow (ex + ey))%R).
  { unfold P. rewrite Pos2Z.inj_mul, mult_IZR, bpow_add. ring. }
  destruct (round_aux_real (xorb sx sy) (Z.pos (mx * my)) (ex + ey) loc_Exact P)
    as (m2 & e2 & Hres & Hdig & Hbnd & _).
  - lia.
  - assert (H : 104 <= Z.log2 (Z.pos (mx * my))).
    { change 104 with (Z.log2 (2 ^ 104)). apply Z.log2_le_mono.
      rewrite Pos2Z.inj_mul. change (2 ^ 104) with (2 ^ 52 * 2 ^ 52).
      apply Z.mul_le_mono_nonneg; lia. }
    lia.
  - rewrite HPv, plus_IZR. pose proof (bpow_pos (ex + ey)). split; nra.
  - exact HP.
  - exists m2, e2. split; [exact Hres|]. split; [exact Hdig | exact Hbnd].
Qed.

(** Division. *)
Lemma div_normal (x y : float) :
  normal_pos x = true -> normal_pos y = true ->
  (bpow (-1021) <= toR x / toR y < bpow 1023)%R ->
  normal_pos (x / y) = true /\
  ((1 - u) * (toR x / toR y) <= toR (x / y) <= (1 + u) * (toR x / toR y))%R.
Proof.
  intros Hx Hy [Hlo Hhi].
  destruct (normal_pos_repr x Hx) as (mx & ex & Ex & Hdx & Hex & Vx & Lx).
  destruct (normal_pos_repr y Hy) as (my & ey & Ey & Hdy & Hey & Vy & Ly).
  destruct (digits53_bounds mx Hdx) as [Hxlo Hxhi].
  destruct (digits53_bounds my Hdy) as [Hylo Hyhi].
  pose proof (bpow_pos ex) as Pex. pose proof (bpow_pos ey) as Pey.
  assert (Pmx : (0 < IZR (Z.pos mx))%R) by (apply IZR_lt; lia).
  assert (Pmy : (0 < IZR (Z.pos my))%R) by (apply IZR_lt; lia).
  set (q := Z.pos mx * 2 ^ 53 / Z.pos my).
  set (e' := ex - ey - 53).
  assert (Hdm : q * Z.pos my <= Z.pos mx * 2 ^ 53 < (q + 1) * Z.pos my).
  { pose proof (Z.div_mod (Z.pos mx * 2 ^ 53) (Z.pos my) ltac:(lia)) as H.
    pose proof (Z.mod_pos_bound (Z.pos mx * 2 ^ 53) (Z.pos my) ltac:(lia)) as Hm.
    fold q in H. lia. }
  assert (Hq : 2 ^ 52 <= q).
  { apply Z.div_le_lower_bound; lia. }
  (* the quotient, as a real *)
  assert (Hquo : (toR x / toR y
                  = IZR (Z.pos mx * 2 ^ 53) / IZR (Z.pos my) * bpow e')%R).
  { rewrite Vx, Vy, mult_IZR, (IZR_pow2 53) by lia. unfold e'.
    replace (ex - ey - 53) with (ex + (- ey + -53)) by lia.
    rewrite !bpow_add, bpow_opp.
    replace (bpow (-53)) with (/ bpow 53)%R
      by (rewrite <- bpow_opp; reflexivity).
    pose proof (bpow_pos 53). field. lra. }
  assert (Hcell : (IZR q * bpow e' <= toR x / toR y < IZR (q + 1) * bpow e')%R).
  { rewrite Hquo. pose proof (bpow_pos e') as Pe.
    assert (H1 : (IZR q * IZR (Z.pos my) <= IZR (Z.pos mx * 2 ^ 53))%R)
      by (rewrite <- mult_IZR; apply IZR_le; lia).
    assert (H2 : (IZR (Z.pos mx * 2 ^ 53) < IZR (q + 1) * IZR (Z.pos my))%R)
      by (rewrite <- mult_IZR; apply IZR_lt; lia).
    split.
    - apply Rmult_le_compat_r; [lra|].
      apply (Rmult_le_reg_r (IZR (Z.pos my))); [exact Pmy|].
      unfold Rdiv. rewrite Rmult_assoc, Rinv_l by lra. lra.
    - apply Rmult_lt_compat_r; [lra|].
      apply (Rmult_lt_reg_r (IZR (Z.pos my))); [exact Pmy|].
      unfold Rdiv. rewrite Rmult_assoc, Rinv_l by lra. lra. }
  assert (Hexp : -1021 <= ex - ey).
  { assert (H : -1021 < ex - ey + 1); [|lia].
    apply bpow_lt_inv. apply Rle_lt_trans with (1 := Hlo).
    assert (H1 : (IZR (Z.pos mx) < bpow 53)%R)
      by (rewrite <- IZR_pow2 by lia; apply IZR_lt; lia).
    assert (H2 : (bpow 52 <= IZR (Z.pos my))%R)
      by (rewrite <- IZR_pow2 by lia; apply IZR_le; lia).
    assert (PY : (0 < toR y)%R) by (rewrite Vy; nra).
    apply (Rmult_lt_reg_r (toR y)); [exact PY|].
    unfold Rdiv. rewrite Rmult_assoc, Rinv_l, Rmult_1_r by lra.
    apply Rlt_le_trans with (bpow 53 * bpow ex)%R; [rewrite Vx; nra|].
    rewrite Vy.
    apply Rle_trans with (bpow (ex - ey + 1) * (bpow 52 * bpow ey))%R.
    - rewrite <- !bpow_add. apply bpow_le. lia.
    - apply Rmult_le_compat_l; [left; apply bpow_pos | nra]. }
  pose proof (div_spec x y) as Hspec. rewrite Ex, Ey in Hspec.
  unfold SF64div, SFdiv, SFdiv_core_binary in Hspec.
  cbn [Zdigits2] in Hspec. rewrite Hdx, Hdy in Hspec.
  replace (53 + ex - (53 + ey)) with (ex - ey) in Hspec by lia.
  rewrite (fexp_normal (ex - ey) Hexp) in Hspec.
  replace (Z.min (ex - ey - 53) (ex - ey)) with e' in Hspec by (unfold e'; lia).
  replace (ex - ey - e') with 53 in Hspec by (unfold e'; lia).
  cbv iota in Hspec. rewrite Z.shiftl_mul_pow2 in Hspec by lia.
  assert (Hqv : fst (Z.div_eucl (Z.pos mx * 2 ^ 53) (Z.pos my)) = q)
    by reflexivity.
  destruct (Z.div_eucl (Z.pos mx * 2 ^ 53) (Z.pos my)) as [q0 r] eqn:E.
  cbn [fst] in Hqv. subst q0. cbn [xorb] in Hspec.
  destruct (round_aux_real false q e' (new_location (Z.pos my) r)
              (toR x / toR y)%R)
    as (m2 & e2 & Hres & Hdig & Hbnd & _).
  - lia.
  - assert (H : 52 <= Z.log2 q)
      by (change 52 with (Z.log2 (2 ^ 52)); apply Z.log2_le_mono, Hq).
    lia.
  - exact Hcell.
  - split; [|exact Hhi]. apply Rle_trans with (2 := Hlo). apply bpow_le. lia.
  - rewrite Hres in Hspec.
    destruct (normal_pos_intro (x / y) m2 e2 Hspec Hdig) as [Hn Hv].
    split; [exact Hn|]. rewrite Hv. exact Hbnd.
Qed.

(** Square root. *)
Lemma sqrt_normal (x : float) :
  normal_pos x = true ->
  normal_pos (PrimFloat.sqrt x) = true /\
  ((1 - u) * sqrt (toR x) <= toR (PrimFloat.sqrt x) <= (1 + u) * sqrt (toR x))%R.
Proof.
  intros Hx.
  destruct (normal_pos_repr x Hx) as (m & e & Ex & Hd & He & Vx & Lx).
  destruct (digits53_bounds m Hd) as [Hmlo Hmhi].
  set (e' := e / 2 - 26).
  set (s := e - 2 * e').
  assert (Hs : s = 52 \/ s = 53).
  { pose proof (Z.div_mod e 2 ltac:(lia)) as Hdm.
    pose proof (Z.mod_pos_bound e 2 ltac:(lia)) as Hmod.
    unfold s, e'. lia. }
  assert (He' : -563 <= e' <= 459).
  { pose proof (Z.div_mod e 2 ltac:(lia)) as Hdm.
    pose proof (Z.mod_pos_bound e 2 ltac:(lia)) as Hmod.
    unfold e'. lia. }
  set (m' := Z.pos m * 2 ^ s).
  assert (Hm' : 2 ^ 104 <= m' < 2 ^ 106).
  { unfold m'. destruct Hs as [-> | ->].
    - change (2 ^ 104) with (2 ^ 52 * 2 ^ 52).
      change (2 ^ 106) with (2 ^ 54 * 2 ^ 52). lia.
    - change (2 ^ 104) with (2 ^ 51 * 2 ^ 53).
      change (2 ^ 106) with (2 ^ 53 * 2 ^ 53). lia. }
  set (q := Z.sqrt m').
  assert (Hsq : q * q <= m' < (q + 1) * (q + 1)).
  { pose proof (Z.sqrt_spec m' ltac:(lia)) as H. fold q in H.
    replace (Z.succ q) with (q + 1) in H by lia. exact H. }
  assert (Hq : 2 ^ 52 <= q < 2 ^ 53).
  { split.
    - change (2 ^ 52) with (Z.sqrt (2 ^ 104)). apply Z.sqrt_le_mono. lia.
    - apply Z.sqrt_lt_square; [lia | lia |].
      change (2 ^ 53 * 2 ^ 53) with (2 ^ 106). lia. }
  pose proof (bpow_pos e') as Pe'.
  assert (HX : (toR x = IZR m' * (bpow e' * bpow e'))%R).
  { rewrite Vx. unfold m'. rewrite mult_IZR, IZR_pow2 by lia.
    rewrite Rmult_assoc, <- !bpow_add. do 2 f_equal. unfold s. lia. }
  assert (Hcell : (IZR q * bpow e' <= sqrt (toR x) < IZR (q + 1) * bpow e')%R).
  { assert (Pq : (0 <= IZR q)%R) by (apply IZR_le; lia).
    assert (Pq1 : (0 <= IZR (q + 1))%R) by (apply IZR_le; lia).
    assert (H1 : (IZR q * IZR q <= IZR m')%R)
      by (rewrite <- mult_IZR; apply IZR_le; lia).
    assert (H2 : (IZR m' < IZR (q + 1) * IZR (q + 1))%R)
      by (rewrite <- mult_IZR; apply IZR_lt; lia).
    assert (PB : (0 < bpow e' * bpow e')%R) by nra.
    assert (Pm : (0 <= IZR m')%R) by (apply IZR_le; lia).
    split.
    - rewrite <- (sqrt_square (IZR q * bpow e')) by (apply Rmult_le_pos; lra).
      apply sqrt_le_1_alt. rewrite HX.
      replace (IZR q * bpow e' * (IZR q * bpow e'))%R
        with (IZR q * IZR q * (bpow e' * bpow e'))%R by ring.
      apply Rmult_le_compat_r; lra.
    - rewrite <- (sqrt_square (IZR (q + 1) * bpow e'))
        by (apply Rmult_le_pos; lra).
      apply sqrt_lt_1_alt. rewrite HX.
      replace (IZR (q + 1) * bpow e' * (IZR (q + 1) * bpow e'))%R
        with (IZR (q + 1) * IZR (q + 1) * (bpow e' * bpow e'))%R by ring.
      split; [apply Rmult_le_pos; lra|].
      apply Rmult_lt_compat_r; lra. }
  pose proof (sqrt_spec x) as Hspec. rewrite Ex in Hspec.
  unfold SF64sqrt, SFsqrt, SFsqrt_core_binary in Hspec.
  cbn [Zdigits2] in Hspec. rewrite Hd in Hspec.
  rewrite !Z.div2_div in Hspec.
  replace ((53 + e + 1) / 2) with (e / 2 + 27) in Hspec
    by (replace (53 + e + 1) with (e + 27 * 2) by lia;
        rewrite Z.div_add by lia; reflexivity).
  rewrite (fexp_normal (e / 2 + 27)) in Hspec by (unfold e' in He'; lia).
  replace (Z.min (e / 2 + 27 - 53) (e / 2)) with e' in Hspec by (unfold e'; lia).
  fold s in Hspec.
  assert (Hshift : match s with
                   | Z.pos _ => Z.shiftl (Z.pos m) s
                   | 0 => Z.pos m
                   | Z.neg _ => 0
                   end = m').
  { unfold m'. destruct Hs as [-> | ->]; rewrite Z.shiftl_mul_pow2 by lia;
      reflexivity. }
  rewrite Hshift in Hspec.
  assert (Hqv : fst (Z.sqrtrem m') = q) by (unfold q; apply Z.sqrtrem_sqrt).
  destruct (Z.sqrtrem m') as [q0 r] eqn:E. cbn [fst] in Hqv. subst q0.
  destruct (round_aux_real false q e'
              (if (r =? 0)%Z then loc_Exact
               else loc_Inexact (if (r <=? q)%Z then Lt else Gt))
              (sqrt (toR x)))
    as (m2 & e2 & Hres & Hdig & Hbnd & _).
  - lia.
  - assert (H : 52 <= Z.log2 q)
      by (change 52 with (Z.log2 (2 ^ 52)); apply Z.log2_le_mono; lia).
    lia.
  - exact Hcell.
  - destruct Hcell as [Hc1 Hc2]. split.
    + apply Rle_trans with (2 := Hc1).
      apply Rle_trans with (bpow 52 * bpow e')%R.
      * rewrite <- bpow_add. apply bpow_le. lia.
      * apply Rmult_le_compat_r; [lra|].
        rewrite <- IZR_pow2 by lia. apply IZR_le. lia.
    + apply Rlt_le_trans with (1 := Hc2).
      apply Rle_trans with (bpow 53 * bpow e')%R.
      * apply Rmult_le_compat_r; [lra|].
        rewrite <- IZR_pow2 by lia. apply IZR_le. lia.
      * rewrite <- bpow_add. apply bpow_le. lia.
  - rewrite Hres in Hspec.
    destruct (normal_pos_intro (PrimFloat.sqrt x) m2 e2 Hspec Hdig) as [Hn Hv].
    split; [exact Hn|]. rewrite Hv. exact Hbnd.
Qed.

(** The square of a normal number of either sign. *)
Lemma square_normal (a : float) (s : bool) (m : positive) (e : Z) :
  Prim2SF a = S754_finite s m e -> Z.pos (digits2_pos m) = 53 ->
  let A := (IZR (Z.pos m) * bpow e)%R in
  (bpow (-1022) <= A * A < bpow 1023)%R ->
  normal_pos (a * a) = true /\
  ((1 - u) * (A * A) <= toR (a * a) <= (1 + u) * (A * A))%R.
Proof.
  intros Ea Hd A HA.
  destruct (SFmul_real s s m m e e Hd Hd HA) as (m2 & e2 & Hres & Hdig & Hbnd).
  pose proof (mul_spec a a) as Hspec. rewrite Ea in Hspec.
  unfold SF64mul in Hspec. rewrite Hres, xorb_nilpotent in Hspec.
  destruct (normal_pos_intro (a * a) m2 e2 Hspec Hdig) as [Hn Hv].
  split; [exact Hn|]. rewrite Hv. exact Hbnd.
Qed.

(** Adding to, dividing and taking the root of +0. *)
Lemma add_zero_l (y : float) :
  normal_pos y = true -> (PrimFloat.zero + y)%float = y.
Proof.
  intros Hy. destruct (normal_pos_repr y Hy) as (m & e & Ey & _).
  apply Prim2SF_inj. rewrite add_spec, Ey. reflexivity.
Qed.

(** *** Rounding down *)

Lemma shr_1_r (mrs : shr_record) :
  0 <= shr_m mrs -> shr_r (shr_1 mrs) = Z.testbit (shr_m mrs) 0.
Proof.
  destruct mrs as [m r s]. cbn [shr_m]. intros Hm.
  destruct m as [|p|p]; [reflexivity| |lia].
  destruct p; reflexivity.
Qed.

Lemma iter_shr_1_r (p : positive) : forall mrs,
  0 <= shr_m mrs ->
  shr_r (SpecFloat.iter_pos shr_1 p mrs) = Z.testbit (shr_m mrs) (Z.pos p - 1).
Proof.
  induction p as [p IH|p IH|]; intros mrs Hm; cbn [SpecFloat.iter_pos].
  - assert (H1 : 0 <= shr_m (shr_1 mrs))
      by (rewrite shr_1_m by exact Hm; apply Z.div_pos; lia).
    assert (H2 : 0 <= shr_m (SpecFloat.iter_pos shr_1 p (shr_1 mrs)))
      by (rewrite iter_shr_1_m by exact H1; apply Z.div_pos;
          [lia | apply Z.pow_pos_nonneg; lia]).
    rewrite IH by exact H2. rewrite iter_shr_1_m by exact H1.
    rewrite shr_1_m by exact Hm.
    rewrite Z.div_div by (try apply Z.pow_pos_nonneg; lia).
    replace (2 * 2 ^ Z.pos p) with (2 ^ (Z.pos p + 1))
      by (rewrite Z.pow_add_r by lia; lia).
    rewrite Z.div_pow2_bits by lia. f_equal. lia.
  - assert (H2 : 0 <= shr_m (SpecFloat.iter_pos shr_1 p mrs))
      by (rewrite iter_shr_1_m by exact Hm; apply Z.div_pos;
          [lia | apply Z.pow_pos_nonneg; lia]).
    rewrite IH by exact H2. rewrite iter_shr_1_m by exact Hm.
    rewrite Z.div_pow2_bits by lia. f_equal. lia.
  - rewrite shr_1_r by exact Hm. reflexivity.
Qed.

(** Rounding [m * 2^e] when the first of the bits dropped is 0: the
    mantissa is cut, nothing is added. *)
Lemma round_aux_down (s : bool) (m e : Z) :
  0 < m -> 53 <= Z.log2 m + 1 ->
  -1021 <= Z.log2 m + 1 + e <= 1023 ->
  (Z.log2 m + 1 = 53 \/ Z.testbit m (Z.log2 m + 1 - 53 - 1) = false) ->
  exists q,
    Z.pos q = m / 2 ^ (Z.log2 m + 1 - 53) /\
    binary_round_aux prec emax s m e loc_Exact
    = S754_finite s q (e + (Z.log2 m + 1 - 53)).
Proof.
  intros Hm Hd Hrange Hbit.
  set (d := Z.log2 m + 1) in *. set (n := d - 53) in *. set (q := m / 2 ^ n).
  assert (Hn : 0 <= n) by (unfold n; lia).
  assert (Hq : 2 ^ 52 <= q < 2 ^ 53).
  { apply quotient_bounds; [exact Hn|].
    pose proof (digits_bounds m Hm) as Hb. fold d in Hb.
    replace (52 + n) with (Z.log2 m) by (unfold n, d; lia).
    replace (53 + n) with d by (unfold n; lia). exact Hb. }
  unfold binary_round_aux, shr_fexp.
  rewrite (Zdigits2_log2 m Hm). fold d.
  rewrite (fexp_normal (d + e)) by lia.
  replace (d + e - 53 - e) with n by (unfold n; lia).
  destruct (shr_m_spec m loc_Exact e n ltac:(lia) Hn) as [Hm1 He1].
  assert (Hloc : round_nearest_even
                   (shr_m (fst (shr (shr_record_of_loc m loc_Exact) e n)))
                   (loc_of_shr_record
                      (fst (shr (shr_record_of_loc m loc_Exact) e n))) = q).
  { rewrite Hm1. fold q.
    destruct n as [|p|p] eqn:En; [reflexivity| |lia].
    cbn [shr fst shr_record_of_loc].
    assert (Hr : shr_r (SpecFloat.iter_pos shr_1 p
                          {| shr_m := m; shr_r := false; shr_s := false |})
                 = false).
    { rewrite iter_shr_1_r by (cbn [shr_m]; lia). cbn [shr_m].
      destruct Hbit as [Hbit|Hbit]; [lia | exact Hbit]. }
    destruct (SpecFloat.iter_pos shr_1 p _) as [m' r' s'].
    cbn [shr_r] in Hr. subst r'. destruct s'; reflexivity. }
  destruct (shr (shr_record_of_loc m loc_Exact) e n) as [mrs' e'] eqn:E1.
  cbn [fst snd] in Hm1, He1, Hloc. rewrite Hloc.
  assert (Hqpos : 0 < q) by lia.
  assert (Hd1 : Z.log2 q + 1 = 53) by (apply log2_bounds_unique; lia).
  rewrite (Zdigits2_log2 q Hqpos), Hd1.
  replace (fexp prec emax (53 + e') - e') with 0
    by (unfold fexp, SpecFloat.emin, prec, emax; lia).
  cbn [shr shr_record_of_loc shr_m].
  destruct q as [|pq|pq] eqn:Eq; try lia.
  replace (e' <=? emax - prec) with true
    by (symmetry; apply Z.leb_le; unfold emax, prec; lia).
  exists pq. split; [reflexivity|]. subst e'. reflexivity.
Qed.

Lemma testbit_above (a b j : Z) :
  0 <= j -> 0 <= b < 2 ^ j -> Z.testbit (a * 2 ^ j + b) j = Z.odd a.
Proof.
  intros Hj Hb.
  replace j with (0 + j) at 2 by lia.
  rewrite <- Z.div_pow2_bits by lia.
  rewrite Z.div_add_l by (apply Z.pow_nonzero; lia).
  rewrite Z.div_small by exact Hb. rewrite Z.add_0_r. apply Z.bit0_odd.
Qed.

End FloatCore.

Section Powers.

Import B64.
Local Open Scope R_scope.

(** Integers below [2^53] are doubles. *)
Lemma of_nat_exact (n : nat) :
  (0 < n)%nat -> (Z.of_nat n < 2 ^ 53)%Z ->
  normal_pos (F64.of_nat n) = true /\ toR (F64.of_nat n) = INR n.
Proof.
  intros Hpos Hlt. unfold F64.of_nat.
  pose proof (of_uint63_spec (Uint63.of_Z (Z.of_nat n))) as Hspec.
  rewrite Uint63.of_Z_spec, Z.mod_small in Hspec
    by (split; [lia|]; apply Z.lt_trans with (1 := Hlt); reflexivity).
  destruct (Z.of_nat n) as [|p|p] eqn:E; try lia.
  cbn [binary_normalize] in Hspec.
  assert (Hval : IZR (Z.pos p) * bpow 0 = INR n)
    by (rewrite bpow_0, Rmult_1_r, INR_IZR_INZ, E; reflexivity).
  assert (H1 : 1 <= INR n) by (change 1 with (INR 1); apply le_INR; lia).
  destruct (binary_round_real false p 0 ltac:(lia)) as (m2 & e2 & Hres & _ & Hnorm & Hex).
  { rewrite Hval, INR_IZR_INZ, E, <- (IZR_pow2 1023) by lia.
    apply IZR_lt. apply Z.lt_trans with (1 := Hlt). reflexivity. }
  rewrite Hres in Hspec.
  destruct (normal_pos_intro _ m2 e2 Hspec) as [Hn Hv].
  { apply Hnorm. rewrite Hval.
    apply Rle_trans with (2 := H1). change 1 with (bpow 0). apply bpow_le. lia. }
  split; [exact Hn|]. rewrite Hv, Hex, Hval; [reflexivity|].
  rewrite digits2_log2.
  assert (Z.log2 (Z.pos p) < 53)%Z by (apply Z.log2_lt_pow2; lia). lia.
Qed.

Lemma pow_1pu_ge (n : nat) : 1 <= (1 + u) ^ n.
Proof. apply pow_R1_Rle. pose proof u_bounds. lra. Qed.

Lemma pow_1mu_bounds (n : nat) : 0 < (1 - u) ^ n <= 1.
Proof.
  pose proof u_bounds as Hu. split.
  - apply pow_lt. lra.
  - apply Rle_trans with (1 ^ n); [apply pow_incr; lra | rewrite pow1; lra].
Qed.

Lemma pow_1pu_upper (n : nat) :
  INR n * u <= 1 / 2 -> (1 + u) ^ n <= 1 + 2 * INR n * u.
Proof.
  intros Hn. pose proof u_bounds as Hu.
  assert (Hkey : forall k : nat, (1 + u) ^ k * (1 - INR k * u) <= 1).
  { induction k as [|k IH].
    - simpl. lra.
    - rewrite S_INR. cbn [pow]. pose proof (pow_1pu_ge k) as Hk.
      set (t := (1 + u) ^ k) in *. pose proof (pos_INR k) as Hpk.
      assert (H : (1 + u) * (1 - (INR k + 1) * u) <= 1 - INR k * u) by nra.
      nra. }
  specialize (Hkey n). pose proof (pow_1pu_ge n) as Ht.
  set (t := (1 + u) ^ n) in *. pose proof (pos_INR n) as Hpn.
  set (c := INR n * u) in *.
  assert (Hc : 0 <= c) by (unfold c; nra).
  replace (2 * INR n * u) with (2 * c) by (unfold c; ring).
  nra.
Qed.

Lemma pow_1mu_lower (n : nat) : 1 - INR n * u <= (1 - u) ^ n.
Proof.
  pose proof u_bounds as Hu.
  induction n as [|n IH].
  - simpl. lra.
  - rewrite S_INR. cbn [pow]. pose proof (pow_1mu_bounds n) as Hb.
    set (t := (1 - u) ^ n) in *. pose proof (pos_INR n) as Hpn. nra.
Qed.

Lemma in_range_repr (lo hi : Z) (a : float) :
  in_range lo hi a = true ->
  exists s m e,
    Prim2SF a = S754_finite s m e /\ Z.pos (digits2_pos m) = 53%Z /\
    Rabs (toR a) = IZR (Z.pos m) * bpow e /\
    bpow (lo - 1) <= Rabs (toR a) < bpow hi.
Proof.
  unfold in_range, toR. destruct (Prim2SF a) as [| | |s m e]; try discriminate.
  intros H. apply andb_true_iff in H. destruct H as [H H3].
  apply andb_true_iff in H. destruct H as [H1 H2].
  apply Z.eqb_eq in H1. apply Z.leb_le in H2, H3.
  exists s, m, e. split; [reflexivity|]. split; [exact H1|].
  destruct (digits53_bounds m H1) as [Hmlo Hmhi].
  pose proof (bpow_pos e) as Pe.
  assert (Pm : 0 < IZR (Z.pos m)) by (apply IZR_lt; lia).
  assert (Habs : Rabs (SF2R (S754_finite s m e)) = IZR (Z.pos m) * bpow e).
  { cbn [SF2R]. rewrite Rabs_mult, (Rabs_pos_eq (bpow e)) by lra.
    f_equal. destruct s; cbn [cond_Zopp].
    - rewrite opp_IZR, Rabs_Ropp. apply Rabs_pos_eq. lra.
    - apply Rabs_pos_eq. lra. }
  split; [exact Habs|]. rewrite Habs. split.
  - apply Rle_trans with (bpow 52 * bpow e).
    + rewrite <- bpow_add. apply bpow_le. lia.
    + apply Rmult_le_compat_r; [lra|].
      rewrite <- IZR_pow2 by lia. apply IZR_le, Hmlo.
  - apply Rlt_le_trans with (bpow 53 * bpow e).
    + apply Rmult_lt_compat_r; [lra|].
      rewrite <- IZR_pow2 by lia. apply IZR_lt, Hmhi.
    + rewrite <- bpow_add. apply bpow_le. lia.
Qed.

Lemma bpow_14 : bpow 14 = 16384.
Proof. rewrite <- IZR_pow2 by lia. reflexivity. Qed.

Lemma u_scaled : bpow 14 * u = bpow (-38).
Proof. unfold u. rewrite <- bpow_add. reflexivity. Qed.

Lemma bpow_m38_small : bpow (-38) <= / 4.
Proof.
  apply Rle_trans with (bpow (-2)); [apply bpow_le; lia|].
  unfold bpow. simpl. lra.
Qed.

Lemma INR_to_nat (z : Z) : (0 <= z)%Z -> INR (Z.to_nat z) = IZR z.
Proof. intros Hz. rewrite INR_IZR_INZ, Z2Nat.id by exact Hz. reflexivity. Qed.

End Powers.

Section NonNegative.

Import B64 Exact.
Local Open Scope R_scope.

Lemma toR_zero : toR PrimFloat.zero = 0.
Proof. reflexivity. Qed.

Lemma nonneg_value (x : float) : nonneg x -> 0 <= toR x.
Proof.
  intros [-> | Hx]; [rewrite toR_zero; lra|].
  left. apply normal_pos_positive, Hx.
Qed.

Lemma nonneg_zero (x : float) : nonneg x -> toR x = 0 -> x = PrimFloat.zero.
Proof.
  intros [Hx | Hx] H0; [exact Hx|].
  pose proof (normal_pos_positive x Hx). lra.
Qed.

Lemma nonneg_in_cases (lo hi : Z) (x : float) :
  nonneg_in lo hi x = true ->
  x = PrimFloat.zero \/
  (normal_pos x = true /\ bpow (lo - 1) <= toR x < bpow hi).
Proof.
  unfold nonneg_in. intros H.
  destruct (Prim2SF x) as [[|]| | |[|] m e] eqn:E; try discriminate.
  - left. apply Prim2SF_inj. rewrite E. reflexivity.
  - right.
    assert (Hr : in_range lo hi x = true) by (unfold in_range; rewrite E; exact H).
    destruct (in_range_repr lo hi x Hr) as (s & m' & e' & E' & Hd & HA & Hb).
    rewrite E in E'. inversion E'; subst s m' e'.
    destruct (normal_pos_intro x m e E Hd) as [Hn Hv].
    split; [exact Hn|].
    rewrite Rabs_pos_eq in Hb; [exact Hb|].
    left. apply normal_pos_positive, Hn.
Qed.

Lemma nonneg_in_nonneg (lo hi : Z) (x : float) :
  nonneg_in lo hi x = true -> nonneg x.
Proof.
  intros H. destruct (nonneg_in_cases lo hi x H) as [H0 | [Hn _]];
    [left | right]; assumption.
Qed.

Lemma nonneg_in_intro (lo hi : Z) (x : float) :
  nonneg x -> (0 < toR x -> bpow (lo - 1) <= toR x < bpow hi) ->
  nonneg_in lo hi x = true.
Proof.
  intros [-> | Hx] Hb; [reflexivity|].
  specialize (Hb (normal_pos_positive x Hx)).
  destruct (normal_pos_repr x Hx) as (m & e & E & Hd & He & Hv & _).
  unfold nonneg_in. rewrite E.
  destruct (digits53_bounds m Hd) as [Hmlo Hmhi].
  pose proof (bpow_pos e) as Pe.
  assert (H1 : bpow (52 + e) <= toR x).
  { rewrite Hv, bpow_add. apply Rmult_le_compat_r; [lra|].
    rewrite <- IZR_pow2 by lia. apply IZR_le, Hmlo. }
  assert (H2 : toR x < bpow (53 + e)).
  { rewrite Hv, bpow_add. apply Rmult_lt_compat_r; [lra|].
    rewrite <- IZR_pow2 by lia. apply IZR_lt, Hmhi. }
  assert (H3 : (lo - 1 < 53 + e)%Z) by (apply bpow_lt_inv; lra).
  assert (H4 : (52 + e < hi)%Z) by (apply bpow_lt_inv; lra).
  apply andb_true_iff. split; [apply andb_true_iff; split|].
  - apply Z.eqb_eq, Hd.
  - apply Z.leb_le. lia.
  - apply Z.leb_le. lia.
Qed.

Lemma add_zero_r (x : float) :
  normal_pos x = true -> (x + PrimFloat.zero)%float = x.
Proof.
  intros Hx. destruct (normal_pos_repr x Hx) as (m & e & Ex & _).
  apply Prim2SF_inj. rewrite add_spec, Ex. reflexivity.
Qed.

(** Addition of non-negative numbers. *)
Lemma add_nonneg (x y : float) :
  nonneg x -> nonneg y -> toR x + toR y < bpow 1023 ->
  nonneg (x + y) /\
  (1 - u) * (toR x + toR y) <= toR (x + y) <= (1 + u) * (toR x + toR y).
Proof.
  intros Hx Hy Hsum. pose proof u_bounds as Hu.
  pose proof (nonneg_value x Hx) as Px. pose proof (nonneg_value y Hy) as Py.
  destruct Hx as [-> | Hx]; destruct Hy as [-> | Hy].
  - split; [left; reflexivity|].
    change (toR (PrimFloat.zero + PrimFloat.zero)) with 0.
    rewrite toR_zero. lra.
  - rewrite add_zero_l by exact Hy. split; [right; exact Hy|].
    rewrite toR_zero in *. nra.
  - rewrite add_zero_r by exact Hx. split; [right; exact Hx|].
    rewrite toR_zero in *. nra.
  - destruct (add_normal x y Hx Hy Hsum) as [Hn Hb].
    split; [right; exact Hn | exact Hb].
Qed.

(** *** Comparison *)

Lemma normal_exp_lt (m1 m2 : positive) (e1 e2 : Z) :
  Z.pos (digits2_pos m1) = 53%Z -> Z.pos (digits2_pos m2) = 53%Z ->
  (e1 < e2)%Z ->
  IZR (Z.pos m1) * bpow e1 < IZR (Z.pos m2) * bpow e2.
Proof.
  intros H1 H2 He.
  destruct (digits53_bounds m1 H1) as [_ Hhi].
  destruct (digits53_bounds m2 H2) as [Hlo _].
  pose proof (bpow_pos e1) as P1. pose proof (bpow_pos e2) as P2.
  apply Rlt_le_trans with (bpow 53 * bpow e1).
  - apply Rmult_lt_compat_r; [lra|].
    rewrite <- IZR_pow2 by lia. apply IZR_lt, Hhi.
  - apply Rle_trans with (bpow 52 * bpow e2).
    + rewrite <- !bpow_add. apply bpow_le. lia.
    + apply Rmult_le_compat_r; [lra|].
      rewrite <- IZR_pow2 by lia. apply IZR_le, Hlo.
Qed.

Lemma ltb_normal (x y : float) :
  normal_pos x = true -> normal_pos y = true ->
  (x <? y)%float = true <-> toR x < toR y.
Proof.
  intros Hx Hy.
  destruct (normal_pos_repr x Hx) as (mx & ex & Ex & Hdx & _ & Vx & _).
  destruct (normal_pos_repr y Hy) as (my & ey & Ey & Hdy & _ & Vy & _).
  rewrite ltb_spec, Ex, Ey, Vx, Vy. unfold SFltb. cbn [SFcompare].
  pose proof (bpow_pos ex) as Pex.
  destruct (Z.compare_spec ex ey) as [He | He | He].
  - subst ey. change (Pos.compare_cont Eq mx my) with (Pos.compare mx my).
    destruct (Pos.compare_spec mx my) as [Hm | Hm | Hm].
    + subst my. split; [discriminate | lra].
    + split; [intros _ | reflexivity].
      apply Rmult_lt_compat_r; [lra | apply IZR_lt; lia].
    + split; [discriminate|]. intros H. exfalso.
      assert (IZR (Z.pos my) < IZR (Z.pos mx)) by (apply IZR_lt; lia). nra.
  - split; [intros _ | reflexivity]. apply normal_exp_lt; assumption.
  - split; [discriminate|]. intros H. exfalso.
    pose proof (normal_exp_lt my mx ey ex Hdy Hdx He). lra.
Qed.

Lemma ltb_nonneg (x y : float) :
  nonneg x -> nonneg y -> (x <? y)%float = true <-> toR x < toR y.
Proof.
  intros [-> | Hx] [-> | Hy].
  - rewrite toR_zero. split; [discriminate | lra].
  - pose proof (normal_pos_positive y Hy) as Py. rewrite toR_zero.
    destruct (normal_pos_repr y Hy) as (m & e & Ey & _).
    rewrite ltb_spec, Ey. split; [intros _; exact Py | reflexivity].
  - pose proof (normal_pos_positive x Hx) as Px. rewrite toR_zero.
    destruct (normal_pos_repr x Hx) as (m & e & Ex & _).
    rewrite ltb_spec, Ex. split; [discriminate | lra].
  - apply ltb_normal; assumption.
Qed.

Lemma ltb_nonneg_false (x y : float) :
  nonneg x -> nonneg y -> (x <? y)%float = false <-> toR y <= toR x.
Proof.
  intros Hx Hy. pose proof (ltb_nonneg x y Hx Hy) as H.
  destruct (x <? y)%float.
  - split; [discriminate|]. intros Hle. exfalso.
    assert (toR x < toR y) by (apply H; reflexivity). lra.
  - split; [intros _ | reflexivity].
    destruct (Rle_lt_dec (toR y) (toR x)) as [Hle|Hlt]; [exact Hle|].
    apply H in Hlt. discriminate.
Qed.

Lemma eqb_normal_refl (x : float) :
  normal_pos x = true -> (x =? x)%float = true.
Proof.
  intros Hx. destruct (normal_pos_repr x Hx) as (m & e & Ex & _).
  rewrite eqb_spec, Ex. unfold SFeqb. cbn [SFcompare].
  rewrite Z.compare_refl. change (Pos.compare_cont Eq m m) with (Pos.compare m m).
  rewrite Pos.compare_refl. reflexivity.
Qed.

Lemma is_nan_nonneg (x : float) : nonneg x -> PrimFloat.is_nan x = false.
Proof.
  intros [-> | Hx]; [reflexivity|].
  unfold PrimFloat.is_nan. rewrite eqb_normal_refl by exact Hx. reflexivity.
Qed.

Lemma is_zero_normal (x : float) :
  normal_pos x = true -> PrimFloat.is_zero x = false.
Proof.
  intros Hx. destruct (normal_pos_repr x Hx) as (m & e & Ex & _).
  unfold PrimFloat.is_zero. rewrite eqb_spec, Ex. reflexivity.
Qed.

(** On non-negative numbers one step of [Math.max] and of [Math.min]
    is a comparison. *)
Lemma max2_nonneg (h x : float) :
  nonneg h -> nonneg x ->
  F64.max2 h x = if (h <? x)%float then x else h.
Proof.
  intros Hh Hx. unfold F64.max2.
  rewrite (is_nan_nonneg h Hh), (is_nan_nonneg x Hx). cbn [orb].
  destruct (h <? x)%float eqn:E; [reflexivity|].
  destruct Hh as [-> | Hh].
  - destruct Hx as [-> | Hx]; [reflexivity|].
    rewrite (is_zero_normal x Hx), andb_false_r. reflexivity.
  - rewrite (is_zero_normal h Hh). reflexivity.
Qed.

Lemma min2_nonneg (l x : float) :
  nonneg l -> nonneg x ->
  F64.min2 l x = if (x <? l)%float then x else l.
Proof.
  intros Hl Hx. unfold F64.min2.
  rewrite (is_nan_nonneg l Hl), (is_nan_nonneg x Hx). cbn [orb].
  destruct (x <? l)%float eqn:E; [reflexivity|].
  destruct Hl as [-> | Hl].
  - destruct Hx as [-> | Hx]; [reflexivity|].
    rewrite (is_zero_normal x Hx), andb_false_r. reflexivity.
  - rewrite (is_zero_normal l Hl). reflexivity.
Qed.

Lemma Math_max_float (vs : list float) : forall v,
  Forall nonneg (v :: vs) ->
  In (Math_max v vs) (v :: vs) /\
  Forall (fun x => toR x <= toR (Math_max v vs)) (v :: vs).
Proof.
  unfold Math_max. induction vs as [|x vs IH]; intros v Hall; cbn [fold_left].
  - split; [left; reflexivity|]. constructor; [lra | constructor].
  - inversion Hall as [|? ? Hv Hrest]; subst.
    inversion Hrest as [|? ? Hx Hvs]; subst.
    change (Math_max2 v x) with (F64.max2 v x).
    rewrite (max2_nonneg v x Hv Hx).
    destruct (v <? x)%float eqn:E.
    + apply (ltb_nonneg v x Hv Hx) in E.
      destruct (IH x Hrest) as [Hin Hle].
      split; [right; exact Hin|].
      inversion Hle as [|? ? Hxm Hrm]; subst.
      constructor; [lra | exact Hle].
    + apply (ltb_nonneg_false v x Hv Hx) in E.
      destruct (IH v (Forall_cons v Hv Hvs)) as [Hin Hle].
      inversion Hle as [|? ? Hvm Hrm]; subst.
      split.
      * destruct Hin as [Hin|Hin]; [left; exact Hin | right; right; exact Hin].
      * constructor; [exact Hvm|]. constructor; [lra | exact Hrm].
Qed.

Lemma Math_min_float (vs : list float) : forall v,
  Forall nonneg (v :: vs) ->
  In (Math_min v vs) (v :: vs) /\
  Forall (fun x => toR (Math_min v vs) <= toR x) (v :: vs).
Proof.
  unfold Math_min. induction vs as [|x vs IH]; intros v Hall; cbn [fold_left].
  - split; [left; reflexivity|]. constructor; [lra | constructor].
  - inversion Hall as [|? ? Hv Hrest]; subst.
    inversion Hrest as [|? ? Hx Hvs]; subst.
    change (Math_min2 v x) with (F64.min2 v x).
    rewrite (min2_nonneg v x Hv Hx).
    destruct (x <? v)%float eqn:E.
    + apply (ltb_nonneg x v Hx Hv) in E.
      destruct (IH x Hrest) as [Hin Hle].
      split; [right; exact Hin|].
      inversion Hle as [|? ? Hxm Hrm]; subst.
      constructor; [lra | exact Hle].
    + apply (ltb_nonneg_false x v Hx Hv) in E.
      destruct (IH v (Forall_cons v Hv Hvs)) as [Hin Hle].
      inversion Hle as [|? ? Hvm Hrm]; subst.
      split.
      * destruct Hin as [Hin|Hin]; [left; exact Hin | right; right; exact Hin].
      * constructor; [exact Hvm|]. constructor; [lra | exact Hrm].
Qed.

(** *** Sums *)

Lemma Rsum_nonneg (l : list float) :
  Forall nonneg l -> 0 <= Exact.Rsum (map toR l).
Proof.
  induction 1 as [|x l Hx _ IH]; cbn [map Exact.Rsum fold_right]; [lra|].
  pose proof (nonneg_value x Hx). fold (Exact.Rsum (map toR l)). lra.
Qed.

(** The accumulated sum of non-negative numbers: every addition rounds,
    so the result is within the factor [(1 +- u)^n] of the exact sum. *)
Lemma sum_float (l : list float) : forall acc,
  nonneg acc -> Forall nonneg l ->
  (1 + u) ^ length l * (toR acc + Exact.Rsum (map toR l)) < bpow 1023 ->
  nonneg (fold_left PrimFloat.add l acc) /\
  (1 - u) ^ length l * (toR acc + Exact.Rsum (map toR l))
  <= toR (fold_left PrimFloat.add l acc)
  <= (1 + u) ^ length l * (toR acc + Exact.Rsum (map toR l)).
Proof.
  pose proof u_bounds as Hu.
  induction l as [|x l IH]; intros acc Hacc Hl Hov;
    cbn [fold_left map length pow Exact.Rsum fold_right] in *.
  - split; [exact Hacc | lra].
  - fold (Exact.Rsum (map toR l)) in *.
    inversion Hl as [|? ? Hx Hl']; subst.
    pose proof (nonneg_value acc Hacc) as Pacc.
    pose proof (nonneg_value x Hx) as Px.
    pose proof (Rsum_nonneg l Hl') as Ps.
    pose proof (pow_1pu_ge (length l)) as Ht.
    pose proof (pow_1mu_bounds (length l)) as Hb.
    set (S := Exact.Rsum (map toR l)) in *.
    set (t := (1 + u) ^ length l) in *. set (t' := (1 - u) ^ length l) in *.
    assert (Htot : toR acc + toR x + S <= (1 + u) * t * (toR acc + (toR x + S))).
    { assert (1 <= (1 + u) * t) by nra.
      assert (0 <= toR acc + (toR x + S)) by lra. nra. }
    destruct (add_nonneg acc x Hacc Hx) as [Hn [Hlo Hhi]]; [lra|].
    assert (Hup : toR (acc + x) + S <= (1 + u) * (toR acc + (toR x + S))) by nra.
    assert (Hdown : (1 - u) * (toR acc + (toR x + S)) <= toR (acc + x) + S) by nra.
    destruct (IH (acc + x)%float Hn Hl') as [Hr [Hrlo Hrhi]].
    { fold S t. apply Rle_lt_trans with (2 := Hov).
      replace ((1 + u) * t * (toR acc + (toR x + S)))
        with (t * ((1 + u) * (toR acc + (toR x + S)))) by ring.
      apply Rmult_le_compat_l; lra. }
    fold S t t' in Hrlo, Hrhi.
    split; [exact Hr|]. split.
    + apply Rle_trans with (2 := Hrlo).
      replace ((1 - u) * t' * (toR acc + (toR x + S)))
        with (t' * ((1 - u) * (toR acc + (toR x + S)))) by ring.
      apply Rmult_le_compat_l; lra.
    + apply Rle_trans with (1 := Hrhi).
      replace ((1 + u) * t * (toR acc + (toR x + S)))
        with (t * ((1 + u) * (toR acc + (toR x + S)))) by ring.
      apply Rmult_le_compat_l; lra.
Qed.

(** Division of a non-negative number by a positive one. *)
Lemma div_nonneg (s n : float) :
  nonneg s -> normal_pos n = true ->
  (0 < toR s -> bpow (-1021) <= toR s / toR n < bpow 1023) ->
  nonneg (s / n) /\
  (1 - u) * (toR s / toR n) <= toR (s / n) <= (1 + u) * (toR s / toR n).
Proof.
  intros [-> | Hs] Hn Hb.
  - destruct (normal_pos_repr n Hn) as (m & e & En & _).
    assert (Hz : (PrimFloat.zero / n)%float = PrimFloat.zero).
    { apply Prim2SF_inj. rewrite div_spec, En. reflexivity. }
    rewrite Hz, toR_zero. split; [left; reflexivity|].
    unfold Rdiv. rewrite Rmult_0_l. lra.
  - destruct (div_normal s n Hs Hn (Hb (normal_pos_positive s Hs))) as [Hq Hbq].
    split; [right; exact Hq | exact Hbq].
Qed.

(** *** Subtraction *)

Lemma aligned_value (m : positive) (e ez : Z) :
  (ez <= e)%Z ->
  IZR (Z.pos (fst (shl_align m e ez))) * bpow ez = IZR (Z.pos m) * bpow e.
Proof.
  intros He. destruct (shl_align_spec m e ez He) as [Hv _].
  rewrite Hv, mult_IZR, IZR_pow2, Rmult_assoc, <- bpow_add by lia.
  do 2 f_equal. lia.
Qed.

(** The difference of two non-negative numbers: it is finite, has the
    sign of the exact difference, and is within the relative distance
    [u] of it. *)
Lemma sub_nonneg (y x : float) :
  nonneg y -> nonneg x -> toR y < bpow 1023 -> toR x < bpow 1023 ->
  ((y - x <? PrimFloat.zero)%float = true <-> toR y < toR x) /\
  (toR x <= toR y ->
   (1 - u) * (toR y - toR x) <= toR (y - x) <= (1 + u) * (toR y - toR x)).
Proof.
  intros Hy Hx Hyb Hxb. pose proof u_bounds as Hu.
  destruct Hy as [-> | Hy]; destruct Hx as [-> | Hx].
  - split; [split; [discriminate | rewrite toR_zero; lra]|].
    intros _. change (toR (PrimFloat.zero - PrimFloat.zero)) with 0.
    rewrite toR_zero. lra.
  - pose proof (normal_pos_positive x Hx) as Px.
    destruct (normal_pos_repr x Hx) as (m & e & Ex & _).
    rewrite toR_zero. split; [|intros H; lra].
    rewrite ltb_spec, sub_spec, Ex. split; [intros _; exact Px | reflexivity].
  - pose proof (normal_pos_positive y Hy) as Py.
    destruct (normal_pos_repr y Hy) as (m & e & Ey & _).
    assert (Hz : (y - PrimFloat.zero)%float = y).
    { apply Prim2SF_inj. rewrite sub_spec, Ey. reflexivity. }
    rewrite Hz, toR_zero. split; [|intros _; nra].
    rewrite ltb_spec, Ey. split; [discriminate | lra].
  - destruct (normal_pos_repr x Hx) as (mx & ex & Ex & Hdx & Hex & Vx & Lx).
    destruct (normal_pos_repr y Hy) as (my & ey & Ey & Hdy & Hey & Vy & Ly).
    pose proof (sub_spec y x) as Hspec. rewrite Ex, Ey in Hspec.
    unfold SF64sub, SFsub in Hspec. cbv zeta in Hspec.
    set (ez := Z.min ey ex) in *.
    pose proof (aligned_value my ey ez ltac:(unfold ez; lia)) as Hay.
    pose proof (aligned_value mx ex ez ltac:(unfold ez; lia)) as Hax.
    set (a := fst (shl_align my ey ez)) in *.
    set (b := fst (shl_align mx ex ez)) in *.
    cbn [cond_Zopp] in Hspec.
    assert (Hval : IZR (Z.pos a - Z.pos b) * bpow ez = toR y - toR x).
    { rewrite minus_IZR, Rmult_minus_distr_r, Hay, Hax, Vx, Vy. reflexivity. }
    pose proof (bpow_pos ez) as Pez.
    pose proof (normal_pos_positive x Hx) as Px.
    pose proof (normal_pos_positive y Hy) as Py.
    destruct (Z.pos a - Z.pos b)%Z as [|p|p] eqn:ED;
      cbn [binary_normalize] in Hspec.
    + rewrite Rmult_0_l in Hval.
      assert (Hz : (y - x)%float = PrimFloat.zero)
        by (apply Prim2SF_inj; rewrite Hspec; reflexivity).
      rewrite Hz, toR_zero. split; [|intros _; nra].
      split; [discriminate | lra].
    + assert (Pp : 0 < IZR (Z.pos p)) by (apply IZR_lt; lia).
      destruct (binary_round_real false p ez ltac:(unfold ez; lia))
        as (m2 & e2 & Hres & Hbnd & _).
      { rewrite Hval. lra. }
      rewrite Hres in Hspec. rewrite Hval in Hbnd.
      assert (Hv : toR (y - x) = IZR (Z.pos m2) * bpow e2)
        by (unfold toR; rewrite Hspec; reflexivity).
      split; [|intros _; rewrite Hv; exact Hbnd].
      rewrite ltb_spec, Hspec. split; [discriminate|]. intros H. nra.
    + assert (Pp : 0 < IZR (Z.pos p)) by (apply IZR_lt; lia).
      change (Z.neg p) with (- Z.pos p)%Z in Hval. rewrite opp_IZR in Hval.
      destruct (binary_round_real true p ez ltac:(unfold ez; lia))
        as (m2 & e2 & Hres & _).
      { replace (IZR (Z.pos p) * bpow ez) with (toR x - toR y) by lra. lra. }
      rewrite Hres in Hspec.
      split; [|intros H; exfalso; nra].
      rewrite ltb_spec, Hspec. split; [intros _; nra | reflexivity].
Qed.

Lemma Rsum_positive (lo hi : Z) (l : list float) :
  Forall (fun v => nonneg_in lo hi v = true) l ->
  0 < Rsum (map toR l) -> bpow (lo - 1) <= Rsum (map toR l).
Proof.
  induction 1 as [|x l Hx Hl IH]; cbn [map Rsum fold_right]; [lra|].
  fold (Rsum (map toR l)). intros Hpos.
  assert (Hs : 0 <= Rsum (map toR l)).
  { apply Rsum_nonneg. eapply Forall_impl; [|exact Hl].
    intros v. apply nonneg_in_nonneg. }
  destruct (nonneg_in_cases lo hi x Hx) as [-> | [_ [Hb _]]].
  - rewrite toR_zero in *. rewrite Rplus_0_l in *. apply IH, Hpos.
  - lra.
Qed.

End NonNegative.

(** ** Volume *)

Section Volume.

Lemma sumsq_zero (frame : list float) :
  Forall (fun x => x = PrimFloat.zero \/ x = PrimFloat.neg_zero) frame ->
  fold_left (fun sum x => num_add sum (num_mul x x)) frame (of_nat 0)
  = PrimFloat.zero.
Proof.
  induction 1 as [|x frame Hx _ IH]; [reflexivity|].
  cbn [fold_left].
  replace (num_add (of_nat 0) (num_mul x x)) with (of_nat (A := float) 0);
    [exact IH|].
  destruct Hx as [-> | ->]; vm_compute; reflexivity.
Qed.

Lemma sumsq_repeat (a : R) (n : nat) : forall acc : R,
  fold_left (fun sum x => num_add sum (num_mul x x)) (repeat a n) acc
  = (acc + INR n * (a * a))%R.
Proof.
  induction n as [|n IH]; intros acc.
  - cbn [repeat fold_left]. simpl. lra.
  - cbn [repeat fold_left]. rewrite IH, S_INR. cbn [num_add num_mul R_Number]. lra.
Qed.

Lemma rms_constant (a : R) (n : nat) :
  0 < n -> rms (repeat a n) = Rabs a.
Proof.
  intros Hn. unfold rms. rewrite sumsq_repeat, repeat_length.
  cbn [of_nat num_div Math_sqrt R_Number].
  assert (Hpos : (0 < INR n)%R) by (apply lt_0_INR; exact Hn).
  replace ((INR 0 + INR n * (a * a)) / INR n)%R with (Rsqr a)
    by (unfold Rsqr; simpl; field; lra).
  apply sqrt_Rsqr_abs.
Qed.

Lemma sumsq_exact (xs : list R) : forall acc : R,
  fold_left (fun sum x => num_add sum (num_mul x x)) xs acc
  = (acc + Exact.Rsum (map (fun x => x * x) xs))%R.
Proof.
  unfold Exact.Rsum.
  induction xs as [|x xs IH]; intros acc; cbn [fold_left map fold_right].
  - lra.
  - rewrite IH. cbn [num_add num_mul R_Number]. lra.
Qed.

End Volume.

Section Rms.

Import B64 Exact.
Local Open Scope R_scope.

Lemma sample_cases (x : float) :
  float32_sample x = true ->
  (x = PrimFloat.zero \/ x = PrimFloat.neg_zero) \/ in_range (-148) 128 x = true.
Proof.
  unfold float32_sample, in_range.
  destruct (Prim2SF x) as [[|]| | |s m e] eqn:E; try discriminate; intros H.
  - left. right. apply Prim2SF_inj. rewrite E. reflexivity.
  - left. left. apply Prim2SF_inj. rewrite E. reflexivity.
  - right. exact H.
Qed.

Lemma in_range_sample (x : float) :
  in_range (-148) 128 x = true -> float32_sample x = true.
Proof.
  unfold float32_sample, in_range.
  destruct (Prim2SF x) as [| | |s m e]; try discriminate. intros H. exact H.
Qed.

(** The square of a sample. *)
Lemma square_sample (x : float) :
  float32_sample x = true ->
  nonneg_in (-298) 257 (x * x) = true /\
  (1 - u) * (toR x * toR x) <= toR (x * x) <= (1 + u) * (toR x * toR x).
Proof.
  intros Hx. pose proof u_bounds as Hu.
  destruct (sample_cases x Hx) as [[-> | ->] | Hr].
  - split; [reflexivity|].
    change (toR (PrimFloat.zero * PrimFloat.zero)) with 0.
    rewrite toR_zero. lra.
  - split; [reflexivity|].
    change (toR (PrimFloat.neg_zero * PrimFloat.neg_zero)) with 0.
    change (toR PrimFloat.neg_zero) with 0. lra.
  - destruct (in_range_repr _ _ x Hr) as (s & m & e & Ex & Hd & HA & HAlo & HAhi).
    change (-148 - 1)%Z with (-149)%Z in HAlo.
    assert (Hsq : toR x * toR x = Rabs (toR x) * Rabs (toR x)).
    { rewrite <- Rabs_mult. symmetry. apply Rabs_pos_eq.
      apply Rle_0_sqr. }
    rewrite Hsq. set (A := Rabs (toR x)) in *.
    pose proof (bpow_pos (-149)) as P149.
    assert (HAA : bpow (-298) <= A * A < bpow 256).
    { change (-298)%Z with (-149 + -149)%Z. change 256%Z with (128 + 128)%Z.
      rewrite !bpow_add. pose proof (bpow_pos 128). split; nra. }
    destruct (square_normal x s m e Ex Hd) as [Hp [HPlo HPhi]].
    { cbv zeta. rewrite <- HA. split.
      - apply Rle_trans with (2 := proj1 HAA). apply bpow_le. lia.
      - apply Rlt_le_trans with (1 := proj2 HAA). apply bpow_le. lia. }
    cbv zeta in HPlo, HPhi. rewrite <- HA in HPlo, HPhi.
    split; [|split; assumption].
    apply nonneg_in_intro; [right; exact Hp|]. intros _.
    change (-298 - 1)%Z with (-1 + -298)%Z. change 257%Z with (1 + 256)%Z.
    rewrite !bpow_add, bpow_1.
    replace (bpow (-1)) with (/ 2) by (unfold bpow; simpl; lra).
    pose proof (bpow_pos (-298)). assert (u <= / 2).
    { unfold u. apply Rle_trans with (bpow (-1)); [apply bpow_le; lia|].
      unfold bpow. simpl. lra. }
    split; nra.
Qed.

Lemma sumsq_map (l : list float) : forall acc,
  fold_left (fun sum x => (sum + x * x)%float) l acc
  = fold_left PrimFloat.add (map (fun x => (x * x)%float) l) acc.
Proof.
  induction l as [|x l IH]; intros acc; cbn [fold_left map]; [reflexivity|].
  apply IH.
Qed.

Lemma squares_sum (l : list float) :
  Forall (fun x => float32_sample x = true) l ->
  Forall (fun p => nonneg_in (-298) 257 p = true)
         (map (fun x => (x * x)%float) l) /\
  (1 - u) * Rsum (map (fun x => toR x * toR x) l)
  <= Rsum (map toR (map (fun x => (x * x)%float) l))
  <= (1 + u) * Rsum (map (fun x => toR x * toR x) l).
Proof.
  induction 1 as [|x l Hx _ [IHc IHb]]; cbn [map Rsum fold_right].
  - split; [constructor | lra].
  - destruct (square_sample x Hx) as [Hc Hb].
    split; [constructor; assumption|].
    fold (Rsum (map toR (map (fun x => (x * x)%float) l))).
    fold (Rsum (map (fun x => toR x * toR x) l)). lra.
Qed.

Lemma Rsum_squares_nonneg (l : list float) :
  0 <= Rsum (map (fun x => toR x * toR x) l).
Proof.
  induction l as [|x l IH]; cbn [map Rsum fold_right]; [lra|].
  fold (Rsum (map (fun x => toR x * toR x) l)).
  pose proof (Rle_0_sqr (toR x)) as H. unfold Rsqr in H. lra.
Qed.

Lemma sqrt_nonneg (x : float) :
  nonneg x ->
  nonneg (PrimFloat.sqrt x) /\
  (1 - u) * sqrt (toR x) <= toR (PrimFloat.sqrt x) <= (1 + u) * sqrt (toR x).
Proof.
  intros [-> | Hx].
  - split; [left; reflexivity|].
    change (toR (PrimFloat.sqrt PrimFloat.zero)) with 0.
    rewrite toR_zero, sqrt_0. lra.
  - destruct (sqrt_normal x Hx) as [Hn Hb]. split; [right; exact Hn | exact Hb].
Qed.

Lemma sqrt_scaled (c x : R) : 0 <= c -> 0 <= x -> sqrt (c * c * x) = c * sqrt x.
Proof.
  intros Hc Hx. rewrite sqrt_mult_alt by nra. rewrite sqrt_square by exact Hc.
  reflexivity.
Qed.

(** The RMS of a chunk of 15,600 samples, in double precision: a
    non-negative double within the relative distance [2^-38] of the
    square root of the mean of the squares. *)
Lemma rms_close (frame : list float) :
  length frame = FRAME_SAMPLES ->
  Forall (fun x => float32_sample x = true) frame ->
  let exact := sqrt (Rsum (map (fun x => toR x * toR x) frame) / INR FRAME_SAMPLES) in
  volume_sized (rms frame) = true /\
  Rabs (toR (rms frame) - exact) <= bpow (-38) * exact.
Proof.
  intros Hlen Hall exact.
  pose proof u_bounds as Hu. pose proof bpow_14 as H14.
  pose proof u_scaled as Hus. rewrite H14 in Hus.
  pose proof bpow_m38_small as H38. pose proof (bpow_pos (-38)) as P38.
  destruct (squares_sum frame Hall) as [Hsq [Hqlo Hqhi]].
  pose proof (Rsum_squares_nonneg frame) as HX0.
  set (SX := Rsum (map (fun x => toR x * toR x) frame)) in *.
  set (sq := map (fun x => (x * x)%float) frame) in *.
  set (SQ := Rsum (map toR sq)) in *.
  assert (Hsqn : Forall nonneg sq)
    by (eapply Forall_impl; [|exact Hsq]; intros p; apply nonneg_in_nonneg).
  assert (Hsqlen : length sq = FRAME_SAMPLES)
    by (unfold sq; rewrite length_map; exact Hlen).
  assert (HN : INR FRAME_SAMPLES = 15600) by (apply INR_to_nat; lia).
  remember (Z.to_nat 7801) as k eqn:Ek.
  assert (Hk : INR k = 7801) by (rewrite Ek; apply INR_to_nat; lia).
  assert (Hnk : (FRAME_SAMPLES + 2 = k + k)%nat) by (unfold FRAME_SAMPLES; lia).
  pose proof (pow_1pu_ge FRAME_SAMPLES) as Htge.
  pose proof (pow_1mu_bounds FRAME_SAMPLES) as Htb.
  assert (Ht : (1 + u) ^ FRAME_SAMPLES <= 2).
  { apply Rle_trans with (1 := pow_1pu_upper _ ltac:(rewrite HN; lra)).
    rewrite HN. lra. }
  assert (Ht' : / 2 <= (1 - u) ^ FRAME_SAMPLES).
  { apply Rle_trans with (2 := pow_1mu_lower _). rewrite HN. lra. }
  assert (Hkk : (1 + u) ^ FRAME_SAMPLES * ((1 + u) * (1 + u))
                = (1 + u) ^ k * (1 + u) ^ k).
  { rewrite <- pow_add, <- Hnk, pow_add. f_equal. simpl. ring. }
  assert (Hkk' : (1 - u) ^ FRAME_SAMPLES * ((1 - u) * (1 - u))
                 = (1 - u) ^ k * (1 - u) ^ k).
  { rewrite <- pow_add, <- Hnk, pow_add. f_equal. simpl. ring. }
  assert (Hk1 : (1 + u) ^ k * (1 + u) <= 1 + bpow (-38)).
  { replace ((1 + u) ^ k * (1 + u)) with ((1 + u) ^ S k)
      by (cbn [pow]; apply Rmult_comm).
    apply Rle_trans with (1 := pow_1pu_upper (S k) ltac:(rewrite S_INR, Hk; lra)).
    rewrite S_INR, Hk. lra. }
  assert (Hk1' : 1 - bpow (-38) <= (1 - u) ^ k * (1 - u)).
  { replace ((1 - u) ^ k * (1 - u)) with ((1 - u) ^ S k)
      by (cbn [pow]; apply Rmult_comm).
    apply Rle_trans with (2 := pow_1mu_lower (S k)).
    rewrite S_INR, Hk. lra. }
  pose proof (pow_1pu_ge k) as Hkge. pose proof (pow_1mu_bounds k) as Hkb.
  (* the sum *)
  assert (HSQ0 : 0 <= SQ) by (apply Rsum_nonneg, Hsqn).
  assert (HSQup : SQ <= 15600 * bpow 257).
  { rewrite <- HN, <- Hsqlen. unfold SQ. rewrite <- (length_map toR sq).
    apply Rsum_upper. apply Forall_map. eapply Forall_impl; [|exact Hsq].
    intros p Hp. cbv beta.
    destruct (nonneg_in_cases _ _ p Hp) as [-> | [_ [_ Hb]]].
    - rewrite toR_zero. left. apply bpow_pos.
    - lra. }
  pose proof (bpow_pos 257) as P257.
  assert (Hbig : 2 * (2 * (bpow 14 * bpow 257)) < bpow 1023).
  { replace 2 with (bpow 1) by apply bpow_1.
    rewrite <- !bpow_add. apply bpow_lt. lia. }
  rewrite H14 in Hbig.
  destruct (sum_float sq PrimFloat.zero (or_introl eq_refl) Hsqn)
    as [Hsn [Hslo Hshi]].
  { rewrite toR_zero, Rplus_0_l, Hsqlen. fold SQ.
    apply Rle_lt_trans with (2 * (15600 * bpow 257)); [|lra].
    apply Rmult_le_compat; lra. }
  rewrite toR_zero, Rplus_0_l, Hsqlen in Hslo, Hshi. fold SQ in Hslo, Hshi.
  unfold rms. rewrite Hlen.
  change (Math_sqrt ?x) with (PrimFloat.sqrt x).
  change (num_div ?x ?y) with (PrimFloat.div x y).
  change (of_nat ?n) with (F64.of_nat n).
  change (F64.of_nat 0) with PrimFloat.zero.
  change (fold_left _ frame PrimFloat.zero)
    with (fold_left (fun sum x => (sum + x * x)%float) frame PrimFloat.zero).
  rewrite sumsq_map. fold sq.
  set (sum := fold_left PrimFloat.add sq PrimFloat.zero) in *.
  set (t := (1 + u) ^ FRAME_SAMPLES) in *.
  set (t' := (1 - u) ^ FRAME_SAMPLES) in *.
  (* the mean *)
  destruct (of_nat_exact FRAME_SAMPLES) as [Hn HnV].
  { unfold FRAME_SAMPLES. lia. }
  { unfold FRAME_SAMPLES. rewrite Z2Nat.id by lia. reflexivity. }
  rewrite HN in HnV.
  assert (Hlow : 0 < toR sum -> bpow (-300) <= toR sum).
  { intros Hpos. assert (HSQpos : 0 < SQ) by nra.
    pose proof (Rsum_positive (-298) 257 sq Hsq HSQpos) as H. fold SQ in H.
    change (-298 - 1)%Z with (-299)%Z in H.
    change (-300)%Z with (-1 + -299)%Z. rewrite bpow_add.
    replace (bpow (-1)) with (/ 2) by (unfold bpow; simpl; lra).
    pose proof (bpow_pos (-299)). nra. }
  assert (Hhigh : toR sum <= 2 * (15600 * bpow 257)).
  { apply Rle_trans with (1 := Hshi). apply Rmult_le_compat; lra. }
  destruct (div_nonneg sum (F64.of_nat FRAME_SAMPLES) Hsn Hn) as [Hm [HMlo HMhi]].
  { intros Hpos. rewrite HnV. specialize (Hlow Hpos). split.
    - apply Rle_trans with (bpow (-300) * bpow (-14)).
      + rewrite <- bpow_add. apply bpow_le. lia.
      + unfold Rdiv. pose proof (bpow_pos (-300)).
        apply Rmult_le_compat; [lra | left; apply bpow_pos | lra |].
        replace (bpow (-14)) with (/ bpow 14) by (rewrite <- bpow_opp; reflexivity).
        rewrite H14. apply Rinv_le_contravar; lra.
    - apply Rle_lt_trans with (toR sum); [unfold Rdiv; lra | lra]. }
  rewrite HnV in HMlo, HMhi.
  set (mean := (sum / F64.of_nat FRAME_SAMPLES)%float) in *.
  set (E := SX / INR FRAME_SAMPLES) in *.
  assert (HE0 : 0 <= E) by (unfold E; rewrite HN; unfold Rdiv; lra).
  assert (HMup : toR mean <= (1 + u) ^ k * (1 + u) ^ k * E).
  { rewrite <- Hkk. unfold E. rewrite HN. fold t.
    apply Rle_trans with (1 := HMhi).
    apply Rle_trans with ((1 + u) * (t * ((1 + u) * SX) / 15600)).
    - apply Rmult_le_compat_l; [lra|]. unfold Rdiv.
      apply Rmult_le_compat_r; [lra|].
      apply Rle_trans with (1 := Hshi). apply Rmult_le_compat_l; lra.
    - right. unfold Rdiv. ring. }
  assert (HMdown : (1 - u) ^ k * (1 - u) ^ k * E <= toR mean).
  { rewrite <- Hkk'. unfold E. rewrite HN. fold t'.
    apply Rle_trans with (2 := HMlo).
    apply Rle_trans with ((1 - u) * (t' * ((1 - u) * SX) / 15600)).
    - right. unfold Rdiv. ring.
    - apply Rmult_le_compat_l; [lra|]. unfold Rdiv.
      apply Rmult_le_compat_r; [lra|].
      apply Rle_trans with (2 := Hslo). apply Rmult_le_compat_l; lra. }
  (* the root *)
  destruct (sqrt_nonneg mean Hm) as [Hr [HRlo HRhi]].
  pose proof (sqrt_pos E) as HsE.
  assert (Hsup : sqrt (toR mean) <= (1 + u) ^ k * sqrt E).
  { rewrite <- sqrt_scaled by lra. apply sqrt_le_1_alt, HMup. }
  assert (Hsdown : (1 - u) ^ k * sqrt E <= sqrt (toR mean)).
  { rewrite <- sqrt_scaled by lra. apply sqrt_le_1_alt, HMdown. }
  set (r := toR (PrimFloat.sqrt mean)) in *.
  set (c := (1 + u) ^ k) in *. set (c' := (1 - u) ^ k) in *.
  fold exact. set (x := sqrt E) in *.
  assert (Hx : exact = x) by reflexivity.
  assert (Hrup : r <= (1 + bpow (-38)) * x).
  { apply Rle_trans with (1 := HRhi).
    apply Rle_trans with ((1 + u) * (c * x)).
    - apply Rmult_le_compat_l; lra.
    - replace ((1 + u) * (c * x)) with (c * (1 + u) * x) by ring.
      apply Rmult_le_compat_r; lra. }
  assert (Hrdown : (1 - bpow (-38)) * x <= r).
  { apply Rle_trans with (2 := HRlo).
    apply Rle_trans with ((1 - u) * (c' * x)).
    - replace ((1 - u) * (c' * x)) with (c' * (1 - u) * x) by ring.
      apply Rmult_le_compat_r; lra.
    - apply Rmult_le_compat_l; lra. }
  split; [|rewrite Hx; apply Rabs_le; split; lra].
  (* the size of the result *)
  apply nonneg_in_intro; [exact Hr|]. fold r. intros Hrpos.
  assert (HMpos : 0 < toR mean).
  { destruct (Rle_lt_dec (toR mean) 0) as [Hle|Hlt]; [|exact Hlt].
    exfalso. assert (Hz : sqrt (toR mean) = 0) by (apply sqrt_neg_0; exact Hle).
    rewrite Hz in HRhi. lra. }
  assert (HSpos : 0 < toR sum).
  { destruct (Rle_lt_dec (toR sum) 0) as [Hle|Hlt]; [|exact Hlt].
    exfalso. unfold Rdiv in HMhi. nra. }
  specialize (Hlow HSpos).
  assert (HMlow : bpow (-316) <= toR mean).
  { apply Rle_trans with (2 := HMlo).
    apply Rle_trans with (bpow (-1) * (bpow (-300) * bpow (-14))).
    - rewrite <- !bpow_add. apply bpow_le. lia.
    - replace (bpow (-1)) with (/ 2) by (unfold bpow; simpl; lra).
      replace (bpow (-14)) with (/ bpow 14) by (rewrite <- bpow_opp; reflexivity).
      rewrite H14. pose proof (bpow_pos (-300)).
      apply Rmult_le_compat; [lra | | lra |].
      + apply Rmult_le_pos; lra.
      + unfold Rdiv. apply Rmult_le_compat; lra. }
  assert (HMhigh : toR mean <= bpow 260).
  { apply Rle_trans with (1 := HMhi).
    apply Rle_trans with (2 * (2 * bpow 257)).
    - apply Rmult_le_compat; [lra | unfold Rdiv; lra | lra | unfold Rdiv; lra].
    - apply Rle_trans with (bpow 1 * (bpow 1 * bpow 257)).
      + rewrite bpow_1. lra.
      + rewrite <- !bpow_add. apply bpow_le. lia. }
  assert (Hs1 : bpow (-158) <= sqrt (toR mean)).
  { rewrite <- (sqrt_square (bpow (-158))) by (left; apply bpow_pos).
    apply sqrt_le_1_alt. rewrite <- bpow_add. exact HMlow. }
  assert (Hs2 : sqrt (toR mean) <= bpow 130).
  { rewrite <- (sqrt_square (bpow 130)) by (left; apply bpow_pos).
    apply sqrt_le_1_alt. rewrite <- bpow_add. exact HMhigh. }
  pose proof (bpow_pos (-158)) as P158. pose proof (bpow_pos 130) as P130.
  split.
  - change (-500 - 1)%Z with (-501)%Z.
    apply Rle_trans with (bpow (-1) * bpow (-158)).
    + rewrite <- bpow_add. apply bpow_le. lia.
    + replace (bpow (-1)) with (/ 2) by (unfold bpow; simpl; lra).
      apply Rle_trans with (2 := HRlo). apply Rmult_le_compat; lra.
  - apply Rle_lt_trans with (1 := HRhi).
    apply Rle_lt_trans with (bpow 1 * bpow 130).
    + rewrite bpow_1. apply Rmult_le_compat; lra.
    + rewrite <- bpow_add. apply bpow_lt. lia.
Qed.

Lemma Rsum_repeat (f : float -> R) (a : float) (n : nat) :
  Rsum (map f (repeat a n)) = INR n * f a.
Proof.
  induction n as [|n IH]; [simpl; lra|].
  cbn [repeat map Rsum fold_right]. fold (Rsum (map f (repeat a n))).
  rewrite IH, S_INR. ring.
Qed.

(** A chunk of equal samples: the RMS is within [2^-38] of the
    amplitude. *)
Lemma rms_constant_close (a : float) :
  float32_sample a = true ->
  volume_sized (rms (repeat a FRAME_SAMPLES)) = true /\
  Rabs (toR (rms (repeat a FRAME_SAMPLES)) - Rabs (toR a))
  <= bpow (-38) * Rabs (toR a).
Proof.
  intros Ha.
  destruct (rms_close (repeat a FRAME_SAMPLES) (repeat_length a _))
    as [Hc Hb].
  { apply Forall_forall. intros x Hx. apply repeat_spec in Hx. subst x. exact Ha. }
  split; [exact Hc|]. cbv zeta in Hb.
  rewrite Rsum_repeat in Hb.
  assert (HN : 0 < INR FRAME_SAMPLES) by (apply lt_0_INR; unfold FRAME_SAMPLES; lia).
  replace (INR FRAME_SAMPLES * (toR a * toR a) / INR FRAME_SAMPLES)
    with (Rsqr (toR a)) in Hb by (unfold Rsqr; field; lra).
  rewrite sqrt_Rsqr_abs in Hb. exact Hb.
Qed.

End Rms.

Section Observed.

Import B64 Exact.
Local Open Scope R_scope.

(** C5: [processAudioChunk] appends to the volume history the value
    [rms] of the chunk it takes, and hands that chunk to the classifier.
    In double precision, for a chunk of 15,600 samples as a
    [Float32Array] holds them, [rms] is a non-negative double and is the
    square root of the mean of the squares up to the rounding of the
    15,600 additions, the division and the root: its relative distance
    from it is at most [2^-38].  For a chunk of zeros (of either sign)
    it is exactly +0, and for a chunk of equal samples [a] it is [|a|]
    within the same relative distance.  In exact arithmetic [rms] is
    the square root of the mean of the squares, and [|a|] for a chunk
    of equal samples [a]. *)
Theorem rms_observed (s : State float) (frame : list float) (a : float)
    (xs : list R) (b : R) :
  ready s ->
  let chunk := firstn FRAME_SAMPLES (audioBufferRef s) in
  volumeHistoryRef (fst (processAudioChunk s))
  = volumeHistoryRef s ++ [rms chunk] /\
  snd (processAudioChunk s) = Some chunk /\
  (length frame = FRAME_SAMPLES -> forallb float32_sample frame = true ->
   volume_sized (rms frame) = true /\
   Rabs (toR (rms frame)
         - sqrt (Rsum (map (fun x => toR x * toR x) frame) / INR FRAME_SAMPLES))
   <= bpow (-38)
      * sqrt (Rsum (map (fun x => toR x * toR x) frame) / INR FRAME_SAMPLES)) /\
  (length frame = FRAME_SAMPLES ->
   Forall (fun x => x = PrimFloat.zero \/ x = PrimFloat.neg_zero) frame ->
   rms frame = PrimFloat.zero) /\
  (float32_sample a = true ->
   Rabs (toR (rms (repeat a FRAME_SAMPLES)) - Rabs (toR a))
   <= bpow (-38) * Rabs (toR a)) /\
  rms xs = sqrt (Rsum (map (fun x => x * x) xs) / INR (length xs)) /\
  rms (repeat b FRAME_SAMPLES) = Rabs b.
Proof.
  intros Hr chunk. unfold processAudioChunk.
  rewrite ready_guard by exact Hr. cbn [fst snd volumeHistoryRef].
  split; [reflexivity|]. split; [reflexivity|].
  split; [|split; [|split; [|split]]].
  - intros Hlen Hall. apply rms_close; [exact Hlen|].
    apply Forall_forall. apply forallb_forall. exact Hall.
  - intros Hlen Hzero. unfold rms. rewrite sumsq_zero by exact Hzero.
    rewrite Hlen. vm_compute. reflexivity.
  - intros Ha. apply rms_constant_close, Ha.
  - unfold rms. rewrite sumsq_exact.
    cbn [of_nat num_div Math_sqrt R_Number]. simpl (INR 0).
    rewrite Rplus_0_l. reflexivity.
  - apply rms_constant, FRAME_SAMPLES_pos.
Qed.

End Observed.

(** The rounding is there: for a chunk of 15,600 samples that all hold
    0.1 (as a [Float32Array] holds it) the computed RMS,
    0.10000000149010764, is below the amplitude, 0.10000000149011612,
    by less than one part in [10^13]. *)
Lemma rms_constant_rounds :
  let frame := repeat Scenario.tenth32 FRAME_SAMPLES in
  num_lt (rms frame) (Math_abs Scenario.tenth32) = true /\
  rms frame = 0.10000000149010764%float /\
  Math_abs Scenario.tenth32 = 0.10000000149011612%float.
Proof. cbv zeta. repeat split; vm_compute; reflexivity. Qed.

(** Amplitudes whose squares and sums are exact give their RMS exactly. *)
Example rms_exact_amplitudes :
  rms (repeat 1%float FRAME_SAMPLES) = 1%float /\
  rms (repeat (-0.5)%float FRAME_SAMPLES) = 0.5%float.
Proof. split; vm_compute; reflexivity. Qed.

(** A buffered chunk of zeros; a chunk that holds 0.1 throughout, in
    double precision; a chunk of ones in exact arithmetic. *)
Lemma rms_observed_witness :
  volumeHistoryRef (fst (processAudioChunk Scenario.zeros_buffered))
  = [PrimFloat.zero] /\
  (Rabs (B64.toR (rms (repeat Scenario.tenth32 FRAME_SAMPLES))
         - Rabs (B64.toR Scenario.tenth32))
   <= B64.bpow (-38) * Rabs (B64.toR Scenario.tenth32))%R /\
  rms (repeat 1%R FRAME_SAMPLES) = Rabs 1.
Proof.
  pose proof (rms_observed Scenario.zeros_buffered
                (repeat PrimFloat.zero FRAME_SAMPLES) Scenario.tenth32 [] 1%R)
    as H.
  cbv zeta in H.
  replace (firstn FRAME_SAMPLES (audioBufferRef Scenario.zeros_buffered))
    with (repeat PrimFloat.zero FRAME_SAMPLES) in H
    by (symmetry; apply firstn_all2; unfold Scenario.zeros_buffered;
        cbn [audioBufferRef]; rewrite repeat_length; apply Nat.le_refl).
  destruct H as (Hpush & _ & _ & Hzero & Hclose & _ & Hconst).
  - repeat split; try reflexivity. discriminate.
  - split; [|split; [apply Hclose; reflexivity | exact Hconst]].
    rewrite Hpush, Hzero; [reflexivity | apply repeat_length |].
    apply Forall_forall. intros x Hx. apply repeat_spec in Hx. left. exact Hx.
Defined.

(** ** Session statistics in double precision *)

(** C7, as stated, fails: no sample of the history is strictly below
    0.01, so the silence fraction is 0 (percent), not 40. *)
Lemma silence_is_strict :
  exists m,
    calculateMetrics Scenario.volumes8 = Some m /\
    filter (fun v => num_lt v lit_0_01) Scenario.volumes8 = [] /\
    silencePercent m = 0%float /\
    num_lt (silencePercent m) 40%float = true.
Proof.
  eexists. split; [vm_compute; reflexivity|].
  repeat split; vm_compute; reflexivity.
Qed.

(** C7 (as amended): for the volume history [0.01, 0.02, 0.2, 0.03, 0.01]
    the silence test is the strict [v < 0.01], no sample passes it and
    the silence fraction is 0; the sorted history starts with 0.01, the
    lowest tenth is [ceil(5 * 0.1) = 1] sample and the noise floor is
    0.01. *)
Theorem scenario_metrics :
  exists m,
    calculateMetrics Scenario.volumes8 = Some m /\
    num_lt 0.01%float lit_0_01 = false /\
    silencePercent m = 0%float /\
    Math_ceil (num_mul (of_nat (length Scenario.volumes8)) lit_0_1 : float) = 1%Z /\
    noiseFloorSamples Scenario.volumes8 = [0.01%float] /\
    noiseFloor m = 0.01%float.
Proof.
  eexists. split; [vm_compute; reflexivity|].
  repeat split; vm_compute; reflexivity.
Qed.

(** C6, as stated, fails in double precision: 27 bursts of 4,096 samples
    of a steady signal of amplitude 0.1 make seven chunks; the seven
    volumes are equal, their rounded sum divided by 7 is above each of
    them, and the average is above the peak. *)
Lemma average_above_peak :
  let s := run (StartClicked true :: repeat (AudioProcess Scenario.steady) 27)
               Scenario.loaded in
  exists m,
    volumeHistoryRef s = repeat 0.10000000149010764%float 7 /\
    calculateMetrics (volumeHistoryRef s) = Some m /\
    peakVolume m = 0.10000000149010764%float /\
    avgVolume m = 0.10000000149010765%float /\
    num_lt (peakVolume m) (avgVolume m) = true.
Proof.
  cbv zeta. eexists. split; [vm_compute; reflexivity|].
  split; [vm_compute; reflexivity|].
  repeat split; vm_compute; reflexivity.
Qed.

Section FloatStatistics.

Import B64 Exact.
Local Open Scope R_scope.

(** *** Sorting *)

Lemma insert_float (x y : float) (rest : list float) :
  insert x (y :: rest)
  = if (y - x <? PrimFloat.zero)%float then y :: insert x rest
    else x :: y :: rest.
Proof. reflexivity. Qed.

Lemma insert_float_perm (x : float) (l : list float) :
  Permutation (insert x l) (x :: l).
Proof.
  induction l as [|y l IH]; [reflexivity|].
  rewrite insert_float. destruct (y - x <? PrimFloat.zero)%float; [|reflexivity].
  rewrite IH. apply perm_swap.
Qed.

Lemma insert_float_sorted (x : float) (l : list float) :
  bounded x -> Forall bounded l ->
  StronglySorted B64.le l -> StronglySorted B64.le (insert x l).
Proof.
  intros [Hx Hxb] Hl Hs. induction Hs as [|y l Hs IH Hy].
  - repeat constructor.
  - inversion Hl as [|? ? [Hyn Hyb] Hl']; subst.
    rewrite insert_float.
    destruct (sub_nonneg y x Hyn Hx Hyb Hxb) as [Hsign _].
    destruct (y - x <? PrimFloat.zero)%float eqn:E.
    + assert (Hlt : toR y < toR x) by (apply Hsign; reflexivity).
      constructor; [apply IH, Hl'|].
      apply (Permutation_Forall (Permutation_sym (insert_float_perm x l))).
      constructor; [unfold B64.le; lra | exact Hy].
    + assert (Hge : toR x <= toR y).
      { destruct (Rle_lt_dec (toR x) (toR y)) as [H|H]; [exact H|].
        apply Hsign in H. discriminate. }
      constructor; [constructor; assumption|].
      constructor; [exact Hge|].
      eapply Forall_impl; [|exact Hy]. unfold B64.le. intros z Hz. lra.
Qed.

Lemma sortAscending_float_perm (l : list float) :
  Permutation (sortAscending l) l.
Proof.
  unfold sortAscending. induction l as [|x l IH]; [reflexivity|].
  cbn [fold_right]. rewrite insert_float_perm, IH. reflexivity.
Qed.

Lemma sortAscending_float_sorted (l : list float) :
  Forall bounded l -> StronglySorted B64.le (sortAscending l).
Proof.
  unfold sortAscending. induction 1 as [|x l Hx Hl IH]; [constructor|].
  cbn [fold_right]. apply insert_float_sorted; [exact Hx | | exact IH].
  apply (Permutation_Forall (Permutation_sym (sortAscending_float_perm l))), Hl.
Qed.

Lemma sorted_values (l : list float) :
  StronglySorted B64.le l -> StronglySorted Rle (map toR l).
Proof.
  induction 1 as [|x l Hs IH Hx]; cbn [map]; constructor; [exact IH|].
  apply Forall_map. exact Hx.
Qed.

(** *** [Math.ceil] and the tenth of a length *)

Lemma ceil_float (x : float) :
  normal_pos x = true ->
  IZR (F64.ceil x) - 1 < toR x <= IZR (F64.ceil x).
Proof.
  intros Hx. destruct (normal_pos_repr x Hx) as (m & e & Ex & _ & _ & Vx & _).
  unfold F64.ceil. rewrite Ex, Vx.
  destruct (0 <=? e)%Z eqn:He.
  - apply Z.leb_le in He. rewrite mult_IZR, IZR_pow2 by exact He. lra.
  - apply Z.leb_gt in He.
    assert (Hp : (0 < 2 ^ (- e))%Z) by (apply Z.pow_pos_nonneg; lia).
    set (c := (- (- Z.pos m / 2 ^ (- e)))%Z).
    assert (Hc : ((c - 1) * 2 ^ (- e) < Z.pos m <= c * 2 ^ (- e))%Z).
    { pose proof (Z.div_mod (- Z.pos m) (2 ^ (- e)) ltac:(lia)) as Hdm.
      pose proof (Z.mod_pos_bound (- Z.pos m) (2 ^ (- e)) Hp) as Hmod.
      unfold c. nia. }
    assert (Hb : bpow e * IZR (2 ^ (- e)) = 1).
    { rewrite IZR_pow2, <- bpow_add by lia.
      replace (e + - e)%Z with 0%Z by lia. reflexivity. }
    pose proof (bpow_pos e) as Pe.
    assert (H1 : IZR ((c - 1) * 2 ^ (- e)) < IZR (Z.pos m)) by (apply IZR_lt; lia).
    assert (H2 : IZR (Z.pos m) <= IZR (c * 2 ^ (- e))) by (apply IZR_le; lia).
    rewrite mult_IZR, minus_IZR in H1. rewrite mult_IZR in H2.
    set (w := IZR (2 ^ (- e))) in *. set (b := bpow e) in *.
    assert (G1 : (IZR c - 1) * w * b < IZR (Z.pos m) * b)
      by (apply Rmult_lt_compat_r; assumption).
    assert (G2 : IZR (Z.pos m) * b <= IZR c * w * b)
      by (apply Rmult_le_compat_r; [lra | assumption]).
    replace ((IZR c - 1) * w * b) with ((IZR c - 1) * (b * w)) in G1 by ring.
    replace (IZR c * w * b) with (IZR c * (b * w)) in G2 by ring.
    rewrite Hb in G1, G2. lra.
Qed.

Lemma mul_normal_bounds (x y : float) :
  normal_pos x = true -> normal_pos y = true ->
  bpow (-1022) <= toR x * toR y < bpow 1023 ->
  normal_pos (x * y) = true /\
  (1 - u) * (toR x * toR y) <= toR (x * y) <= (1 + u) * (toR x * toR y).
Proof.
  intros Hx Hy Hb.
  destruct (normal_pos_repr x Hx) as (mx & ex & Ex & Hdx & _ & Vx & _).
  destruct (normal_pos_repr y Hy) as (my & ey & Ey & Hdy & _ & Vy & _).
  rewrite Vx, Vy in Hb |- *.
  destruct (SFmul_real false false mx my ex ey Hdx Hdy Hb)
    as (m2 & e2 & Hres & Hdig & Hbnd).
  pose proof (mul_spec x y) as Hspec. rewrite Ex, Ey in Hspec.
  unfold SF64mul in Hspec. rewrite Hres in Hspec.
  destruct (normal_pos_intro (x * y) m2 e2 Hspec Hdig) as [Hn Hv].
  split; [exact Hn|]. rewrite Hv. exact Hbnd.
Qed.

(** The mantissa of an integer below [2^53]. *)
Lemma of_nat_mantissa (n : nat) :
  (0 < n)%nat -> (Z.of_nat n < 2 ^ 53)%Z ->
  exists m e,
    Prim2SF (F64.of_nat n) = S754_finite false m e /\
    Z.pos (digits2_pos m) = 53%Z /\ (-52 <= e <= 0)%Z /\
    Z.pos m = (Z.of_nat n * 2 ^ (- e))%Z.
Proof.
  intros Hn Hlt. destruct (of_nat_exact n Hn Hlt) as [Hnp Hv].
  destruct (normal_pos_repr _ Hnp) as (m & e & E & Hd & _ & Vm & _).
  rewrite Hv, INR_IZR_INZ in Vm.
  destruct (digits53_bounds m Hd) as [Hmlo Hmhi].
  pose proof (bpow_pos e) as Pe.
  assert (He : (e <= 0)%Z).
  { destruct (Z_le_gt_dec e 0) as [H|H]; [exact H|]. exfalso.
    assert (H2 : 2 <= bpow e)
      by (rewrite <- bpow_1; apply bpow_le; lia).
    assert (H3 : IZR (2 ^ 52) <= IZR (Z.pos m)) by (apply IZR_le, Hmlo).
    assert (H4 : IZR (Z.of_nat n) < IZR (2 ^ 53)) by (apply IZR_lt, Hlt).
    change (2 ^ 53)%Z with (2 * 2 ^ 52)%Z in H4. rewrite mult_IZR in H4.
    assert (0 < IZR (2 ^ 52)) by (apply IZR_lt; reflexivity). nra. }
  assert (Hm : Z.pos m = (Z.of_nat n * 2 ^ (- e))%Z).
  { apply eq_IZR. rewrite mult_IZR, IZR_pow2 by lia. rewrite Vm.
    rewrite Rmult_assoc, <- bpow_add.
    replace (e + - e)%Z with 0%Z by lia. rewrite bpow_0. ring. }
  exists m, e. split; [exact E|]. split; [exact Hd|]. split; [|exact Hm].
  split; [|exact He].
  destruct (Z_le_gt_dec (-52) e) as [H|H]; [exact H|]. exfalso.
  assert (H1 : (2 ^ 53 <= 2 ^ (- e))%Z) by (apply Z.pow_le_mono_r; lia).
  nia.
Qed.

Lemma tenth_value :
  Prim2SF 0.1%float = S754_finite false 7205759403792794 (-56).
Proof. vm_compute. reflexivity. Qed.

(** Ten times a length: the product with the double 0.1 is the tenth,
    exactly. *)
Lemma tenth_of_multiple (k : nat) :
  (0 < k)%nat -> (Z.of_nat (10 * k) < 2 ^ 32)%Z ->
  normal_pos (F64.of_nat (10 * k) * 0.1) = true /\
  toR (F64.of_nat (10 * k) * 0.1) = INR k.
Proof.
  intros Hk Hlt.
  destruct (of_nat_mantissa (10 * k)) as (m & e & E & Hd & He & Hm); [lia | lia|].
  destruct (digits53_bounds m Hd) as [Hmlo Hmhi].
  set (t := (- e)%Z) in *.
  set (K := (Z.of_nat k * 2 ^ t)%Z).
  assert (Ht : (0 < 2 ^ t)%Z) by (apply Z.pow_pos_nonneg; unfold t; lia).
  assert (HmK : Z.pos m = (10 * K)%Z) by (unfold K; lia).
  assert (HKpos : (0 < K)%Z) by (unfold K; lia).
  set (M := Z.pos (m * 7205759403792794)).
  assert (HM : M = (K * 2 ^ 56 + 4 * K)%Z).
  { unfold M. rewrite Pos2Z.inj_mul, HmK.
    change (2 ^ 56)%Z with 72057594037927936%Z. lia. }
  assert (HMb : (2 ^ 104 <= M < 2 ^ 106)%Z).
  { unfold M. rewrite Pos2Z.inj_mul.
    change (2 ^ 104)%Z with (2 ^ 52 * 2 ^ 52)%Z.
    change (2 ^ 106)%Z with (2 ^ 53 * 2 ^ 53)%Z.
    assert (2 ^ 52 <= 7205759403792794 < 2 ^ 53)%Z
      by (split; [discriminate | reflexivity]).
    split; [apply Z.mul_le_mono_nonneg; lia | apply Z.mul_lt_mono_nonneg; lia]. }
  assert (Hlog : (Z.log2 M = 104 \/ Z.log2 M = 105)%Z).
  { assert (104 <= Z.log2 M)%Z
      by (change 104%Z with (Z.log2 (2 ^ 104)); apply Z.log2_le_mono; lia).
    assert (Z.log2 M < 106)%Z by (apply Z.log2_lt_pow2; lia). lia. }
  set (sh := (Z.log2 M + 1 - 53)%Z).
  assert (H4K : (0 <= 4 * K < 2 ^ (sh - 1))%Z).
  { split; [lia|]. unfold sh. destruct Hlog as [Hl | Hl]; rewrite Hl.
    - pose proof (digits_bounds M ltac:(lia)) as Hdb. rewrite Hl in Hdb.
      change (2 ^ (104 + 1 - 53 - 1))%Z with (2 ^ 51)%Z.
      change (2 ^ (104 + 1))%Z with (2 ^ 49 * 2 ^ 56)%Z in Hdb.
      assert (K < 2 ^ 49)%Z by nia.
      change (2 ^ 51)%Z with (4 * 2 ^ 49)%Z. lia.
    - change (2 ^ (105 + 1 - 53 - 1))%Z with (2 ^ 52)%Z.
      change (2 ^ 53)%Z with (2 * 2 ^ 52)%Z in Hmhi. lia. }
  assert (Hsh : (sh = 52 \/ sh = 53)%Z) by (unfold sh; lia).
  assert (Hsplit : M = (K * 2 ^ (57 - sh) * 2 ^ (sh - 1) + 4 * K)%Z).
  { rewrite HM, <- Z.mul_assoc, <- Z.pow_add_r by lia.
    replace (57 - sh + (sh - 1))%Z with 56%Z by lia. reflexivity. }
  destruct (round_aux_down false M (- t + -56)%Z) as (q & Hq & Hres).
  - lia.
  - lia.
  - unfold t. lia.
  - right. fold sh. rewrite Hsplit, testbit_above by lia.
    replace (57 - sh)%Z with (1 + (56 - sh))%Z by lia.
    rewrite Z.pow_add_r, Z.pow_1_r by lia.
    replace (K * (2 * 2 ^ (56 - sh)))%Z with (2 * (K * 2 ^ (56 - sh)))%Z by lia.
    rewrite Z.odd_mul. reflexivity.
  - fold sh in Hq, Hres.
    assert (Hqv : Z.pos q = (K * 2 ^ (56 - sh))%Z).
    { rewrite Hq, HM.
      replace (K * 2 ^ 56)%Z with (K * 2 ^ (56 - sh) * 2 ^ sh)%Z
        by (rewrite <- Z.mul_assoc, <- Z.pow_add_r by lia;
            replace (56 - sh + sh)%Z with 56%Z by lia; reflexivity).
      rewrite Z.div_add_l by (apply Z.pow_nonzero; lia).
      rewrite Z.div_small; [lia|]. split; [lia|].
      apply Z.lt_trans with (1 := proj2 H4K). apply Z.pow_lt_mono_r; lia. }
    pose proof (mul_spec (F64.of_nat (10 * k)) 0.1%float) as Hspec.
    rewrite E, tenth_value in Hspec. unfold SF64mul in Hspec.
    cbn [SFmul xorb] in Hspec. fold M in Hspec.
    replace (e + -56)%Z with (- t + -56)%Z in Hspec by (unfold t; lia).
    rewrite Hres in Hspec.
    assert (Hdq : Z.pos (digits2_pos q) = 53%Z).
    { rewrite digits2_log2. apply log2_bounds_unique; [|lia].
      rewrite Hq. apply quotient_bounds; [lia|].
      pose proof (digits_bounds M ltac:(lia)) as Hdb.
      replace (52 + sh)%Z with (Z.log2 M) by (unfold sh; lia).
      replace (53 + sh)%Z with (Z.log2 M + 1)%Z by (unfold sh; lia). exact Hdb. }
    destruct (normal_pos_intro _ q _ Hspec Hdq) as [Hn Hv].
    split; [exact Hn|]. rewrite Hv, Hqv. unfold K.
    rewrite !mult_IZR, !IZR_pow2 by (unfold t; lia).
    rewrite !Rmult_assoc, <- !bpow_add.
    replace (t + (56 - sh + (- t + -56 + sh)))%Z with 0%Z by lia.
    rewrite bpow_0, Rmult_1_r, INR_IZR_INZ. reflexivity.
Qed.

Lemma tenth_real : 10 * toR 0.1 = 1 + bpow (-54).
Proof.
  unfold toR. rewrite tenth_value. cbn [SF2R cond_Zopp].
  rewrite <- Rmult_assoc.
  replace (10 * IZR 7205759403792794) with (IZR (2 ^ 56 + 4))
    by (rewrite <- mult_IZR; reflexivity).
  rewrite plus_IZR, IZR_pow2 by lia.
  replace 4 with (bpow 2) by (unfold bpow; simpl; lra).
  rewrite Rmult_plus_distr_r, <- !bpow_add. reflexivity.
Qed.

Lemma bpow_m20_small : bpow (-20) <= / 1000.
Proof.
  replace (bpow (-20)) with (/ bpow 20) by (rewrite <- bpow_opp; reflexivity).
  rewrite <- IZR_pow2 by lia. change (2 ^ 20)%Z with 1048576%Z.
  apply Rinv_le_contravar; lra.
Qed.

(** The size of the lowest tenth, as the code computes it in double
    precision: [Math.ceil(n * 0.1)] is [ceil(n / 10)] for every length
    an array can have. *)
Lemma tenth_exact (n : nat) :
  (0 < n)%nat -> (Z.of_nat n < 2 ^ 32)%Z ->
  Z.to_nat (Math_ceil (num_mul (of_nat n) lit_0_1 : float))
  = ((n + 9) / 10)%nat.
Proof.
  intros Hn Hlt.
  change (Z.to_nat (F64.ceil (F64.of_nat n * 0.1)) = ((n + 9) / 10)%nat).
  pose proof (Nat.div_mod_eq n 10) as Hdm.
  pose proof (Nat.mod_upper_bound n 10 ltac:(discriminate)) as Hj.
  pose proof (Nat.div_mod_eq (n + 9) 10) as Hdm9.
  pose proof (Nat.mod_upper_bound (n + 9) 10 ltac:(discriminate)) as Hj9.
  set (k := (n / 10)%nat) in *. set (j := (n mod 10)%nat) in *.
  destruct (Nat.eq_dec j 0) as [Hj0|Hj0].
  - (* a multiple of ten *)
    assert (Hnk : n = (10 * k)%nat) by lia.
    destruct (tenth_of_multiple k ltac:(lia) ltac:(rewrite <- Hnk; exact Hlt))
      as [Hnorm Hval].
    rewrite <- Hnk in Hnorm, Hval.
    destruct (ceil_float _ Hnorm) as [Hc1 Hc2]. rewrite Hval in Hc1, Hc2.
    rewrite INR_IZR_INZ in Hc1, Hc2.
    assert (Hc : F64.ceil (F64.of_nat n * 0.1) = Z.of_nat k).
    { apply le_IZR in Hc2.
      assert (H : (F64.ceil (F64.of_nat n * 0.1) - 1 < Z.of_nat k)%Z)
        by (apply lt_IZR; rewrite minus_IZR; exact Hc1).
      lia. }
    rewrite Hc, Nat2Z.id. lia.
  - (* between two multiples *)
    destruct (of_nat_exact n Hn ltac:(lia)) as [Hnn Hv].
    destruct (nonneg_in_cases (-3) (-3) 0.1%float eq_refl) as [H0 | [Ht _]].
    { exfalso. apply (f_equal Prim2SF) in H0. vm_compute in H0. discriminate. }
    pose proof tenth_real as Hc0. pose proof bpow_m20_small as H20.
    pose proof (bpow_pos (-54)) as P54. pose proof u_bounds as Hu.
    assert (HN : INR n < bpow 32)
      by (rewrite INR_IZR_INZ, <- IZR_pow2 by lia; apply IZR_lt, Hlt).
    assert (HNk : INR n = 10 * INR k + INR j).
    { rewrite Hdm at 1. rewrite plus_INR, mult_INR.
      replace (INR 10) with 10 by (simpl; lra). reflexivity. }
    assert (Hj1 : 1 <= INR j <= 9).
    { split; [change 1 with (INR 1); apply le_INR; lia|].
      replace 9 with (INR 9) by (simpl; lra). apply le_INR. lia. }
    pose proof (pos_INR k) as Pk.
    assert (Hun : INR n * u <= / 1000).
    { apply Rle_trans with (2 := H20). apply Rle_trans with (bpow 32 * u); [nra|].
      unfold u. rewrite <- bpow_add. apply bpow_le. lia. }
    assert (Hbn : INR n * bpow (-54) <= / 1000).
    { apply Rle_trans with (2 := H20).
      apply Rle_trans with (bpow 32 * bpow (-54)); [nra|].
      rewrite <- bpow_add. apply bpow_le. lia. }
    set (X := INR n * toR 0.1).
    assert (HX : 10 * X = INR n + INR n * bpow (-54))
      by (unfold X; rewrite <- Rmult_assoc, (Rmult_comm 10), Rmult_assoc, Hc0; ring).
    assert (HXn : X <= INR n) by nra.
    destruct (mul_normal_bounds (F64.of_nat n) 0.1%float Hnn Ht) as [Hm [Hlo Hhi]].
    { rewrite Hv. fold X. split.
      - apply Rle_trans with (bpow (-4)); [apply bpow_le; lia|].
        replace (bpow (-4)) with (/ 16) by (unfold bpow; simpl; lra).
        assert (0 <= INR n * bpow (-54)) by nra. lra.
      - apply Rle_lt_trans with (1 := HXn).
        apply Rlt_le_trans with (1 := HN). apply bpow_le. lia. }
    rewrite Hv in Hlo, Hhi. fold X in Hlo, Hhi.
    set (V := toR (F64.of_nat n * 0.1)) in *.
    assert (HuX : u * X <= / 1000) by nra.
    assert (HX0 : 0 <= X) by nra.
    assert (HV1 : INR k < V) by nra.
    assert (HV2 : V < INR k + 1) by nra.
    destruct (ceil_float _ Hm) as [Hc1 Hc2].
    fold V in Hc1, Hc2.
    assert (Hc : F64.ceil (F64.of_nat n * 0.1) = (Z.of_nat k + 1)%Z).
    { rewrite INR_IZR_INZ in HV1, HV2.
      assert (H1 : (Z.of_nat k < F64.ceil (F64.of_nat n * 0.1))%Z)
        by (apply lt_IZR; lra).
      assert (H2 : (F64.ceil (F64.of_nat n * 0.1) - 1 < Z.of_nat k + 1)%Z)
        by (apply lt_IZR; rewrite minus_IZR, plus_IZR; lra).
      lia. }
    rewrite Hc. lia.
Qed.

(** *** Means *)

Lemma four_u : 4 * u = bpow (-50).
Proof.
  unfold u. replace 4 with (bpow 2) by (unfold bpow; simpl; lra).
  rewrite <- bpow_add. reflexivity.
Qed.

(** The mean of a list of at most [2^32] non-negative doubles, as the
    code computes it: the rounded sum divided by the length. *)
Lemma mean_float (l : list float) :
  l <> [] ->
  Forall (fun v => nonneg_in (-500) 500 v = true) l ->
  (Z.of_nat (length l) < 2 ^ 32)%Z ->
  let mean := (sum l / F64.of_nat (length l))%float in
  let exact := Rsum (map toR l) / INR (length l) in
  nonneg mean /\
  (1 - u) ^ (length l + 1) * exact <= toR mean <= (1 + u) ^ (length l + 1) * exact.
Proof.
  intros Hne Hall Hlen mean exact. pose proof u_bounds as Hu.
  assert (Hnn : Forall nonneg l)
    by (eapply Forall_impl; [|exact Hall]; intros v; apply nonneg_in_nonneg).
  assert (Hn : (0 < length l)%nat) by (destruct l; [congruence | simpl; lia]).
  destruct (of_nat_exact (length l) Hn) as [Hnf Hnv]; [lia|].
  set (n := length l) in *.
  assert (HN : 1 <= INR n < bpow 32).
  { split; [change 1 with (INR 1); apply le_INR; lia|].
    rewrite INR_IZR_INZ, <- IZR_pow2 by lia. apply IZR_lt, Hlen. }
  pose proof (Rsum_nonneg l Hnn) as Hs0.
  assert (Hsup : Rsum (map toR l) <= INR n * bpow 500).
  { unfold n. rewrite <- (length_map toR l). apply Rsum_upper.
    apply Forall_map. eapply Forall_impl; [|exact Hall].
    intros v Hv. cbv beta.
    destruct (nonneg_in_cases _ _ v Hv) as [-> | [_ [_ Hb]]].
    - rewrite toR_zero. left. apply bpow_pos.
    - lra. }
  set (S := Rsum (map toR l)) in *.
  assert (Hnu : INR n * u <= / 4).
  { apply Rle_trans with (bpow 32 * u); [nra|].
    unfold u. rewrite <- bpow_add.
    apply Rle_trans with (bpow (-2)); [apply bpow_le; lia|].
    unfold bpow. simpl. lra. }
  assert (Ht : (1 + u) ^ n <= 2).
  { apply Rle_trans with (1 := pow_1pu_upper n ltac:(lra)). lra. }
  assert (Ht' : / 2 <= (1 - u) ^ n).
  { apply Rle_trans with (2 := pow_1mu_lower n). lra. }
  pose proof (pow_1pu_ge n) as Htge. pose proof (pow_1mu_bounds n) as Htb.
  pose proof (bpow_pos 500) as P500.
  assert (HS534 : 2 * (bpow 32 * bpow 500) < bpow 1023).
  { replace 2 with (bpow 1) by apply bpow_1.
    rewrite <- !bpow_add. apply bpow_lt. lia. }
  destruct (sum_float l PrimFloat.zero (or_introl eq_refl) Hnn)
    as [Hsn [Hslo Hshi]].
  { rewrite toR_zero, Rplus_0_l. fold n S.
    apply Rle_lt_trans with (2 := HS534).
    apply Rmult_le_compat; [lra | lra | lra | nra]. }
  rewrite toR_zero, Rplus_0_l in Hslo, Hshi. fold n S in Hslo, Hshi.
  change (fold_left PrimFloat.add l PrimFloat.zero) with (sum l) in *.
  set (t := (1 + u) ^ n) in *. set (t' := (1 - u) ^ n) in *.
  assert (Pn : 0 < / INR n) by (apply Rinv_0_lt_compat; lra).
  destruct (div_nonneg (sum l) (F64.of_nat n) Hsn Hnf) as [Hmn [Hmlo Hmhi]].
  { intros Hpos. rewrite Hnv.
    assert (HSpos : 0 < S) by nra.
    pose proof (Rsum_positive (-500) 500 l Hall HSpos) as HSlo. fold S in HSlo.
    change (-500 - 1)%Z with (-501)%Z in HSlo.
    pose proof (bpow_pos (-501)) as P501.
    assert (Hinv : bpow (-32) <= / INR n).
    { replace (bpow (-32)) with (/ bpow 32) by (rewrite <- bpow_opp; reflexivity).
      apply Rinv_le_contravar; lra. }
    pose proof (bpow_pos (-32)) as P32.
    split.
    - apply Rle_trans with (/ 2 * bpow (-501) * bpow (-32)).
      + replace (/ 2) with (bpow (-1)) by (unfold bpow; simpl; lra).
        rewrite <- !bpow_add. apply bpow_le. lia.
      + unfold Rdiv. apply Rmult_le_compat; [nra | lra | nra | lra].
    - apply Rle_lt_trans with (toR (sum l)).
      + unfold Rdiv. rewrite <- (Rmult_1_r (toR (sum l))) at 2.
        apply Rmult_le_compat_l; [lra|].
        rewrite <- Rinv_1. apply Rinv_le_contravar; lra.
      + apply Rle_lt_trans with (2 := HS534).
        apply Rle_trans with (1 := Hshi).
        apply Rmult_le_compat; [lra | lra | lra | nra]. }
  rewrite Hnv in Hmlo, Hmhi. fold mean in Hmn, Hmlo, Hmhi.
  split; [exact Hmn|].
  unfold exact. rewrite !pow_add, !pow_1. fold t t' S.
  assert (Hq1 : t' * S / INR n <= toR (sum l) / INR n)
    by (unfold Rdiv; apply Rmult_le_compat_r; lra).
  assert (Hq2 : toR (sum l) / INR n <= t * S / INR n)
    by (unfold Rdiv; apply Rmult_le_compat_r; lra).
  split.
  - apply Rle_trans with (2 := Hmlo).
    replace (t' * (1 - u) * (S / INR n)) with ((1 - u) * (t' * S / INR n))
      by (unfold Rdiv; ring).
    apply Rmult_le_compat_l; lra.
  - apply Rle_trans with (1 := Hmhi).
    replace (t * (1 + u) * (S / INR n)) with ((1 + u) * (t * S / INR n))
      by (unfold Rdiv; ring).
    apply Rmult_le_compat_l; lra.
Qed.

Lemma class_bounded (v : float) :
  nonneg_in (-500) 500 v = true -> bounded v.
Proof.
  intros Hv. split; [apply (nonneg_in_nonneg _ _ v Hv)|].
  destruct (nonneg_in_cases _ _ v Hv) as [-> | [_ [_ Hb]]].
  - rewrite toR_zero. apply bpow_pos.
  - apply Rlt_trans with (1 := Hb). apply bpow_lt. lia.
Qed.

(** The lowest tenth of a history of doubles. *)
Lemma lowest_float (volumes : list float) :
  volumes <> [] ->
  Forall (fun v => nonneg_in (-500) 500 v = true) volumes ->
  (Z.of_nat (length volumes) < 2 ^ 32)%Z ->
  let lowest := noiseFloorSamples volumes in
  lowest <> [] /\ incl lowest volumes /\
  length lowest = ((length volumes + 9) / 10)%nat /\
  (length lowest <= length volumes)%nat /\
  INR (length volumes) * Rsum (map toR lowest)
  <= INR (length lowest) * Rsum (map toR volumes).
Proof.
  intros Hne Hall Hlen lowest.
  assert (Hn : (0 < length volumes)%nat)
    by (destruct volumes; [congruence | simpl; lia]).
  pose proof (sortAscending_float_perm volumes) as Hperm.
  assert (Hsorted : StronglySorted B64.le (sortAscending volumes)).
  { apply sortAscending_float_sorted. eapply Forall_impl; [|exact Hall].
    intros v. apply class_bounded. }
  unfold lowest, noiseFloorSamples.
  rewrite (Permutation_length Hperm).
  rewrite (tenth_exact (length volumes) Hn Hlen).
  pose proof (Nat.div_mod_eq (length volumes + 9) 10) as Hdm.
  pose proof (Nat.mod_upper_bound (length volumes + 9) 10 ltac:(discriminate)) as Hr.
  set (k := ((length volumes + 9) / 10)%nat) in *.
  assert (Hk : (1 <= k <= length volumes)%nat) by lia.
  split; [|split; [|split; [|split]]].
  - destruct (sortAscending volumes) as [|y ys] eqn:E.
    + apply Permutation_length in Hperm. simpl in Hperm. lia.
    + destruct k; [lia | discriminate].
  - intros x Hx. apply (Permutation_in x Hperm).
    rewrite <- (firstn_skipn k (sortAscending volumes)).
    apply in_or_app. left. exact Hx.
  - rewrite length_firstn, (Permutation_length Hperm). lia.
  - rewrite length_firstn, (Permutation_length Hperm). lia.
  - pose proof (lowest_mean (map toR (sortAscending volumes)) k
                  (sorted_values _ Hsorted)) as Hmean.
    rewrite firstn_map, !length_map in Hmean.
    rewrite (Permutation_length Hperm) in Hmean.
    rewrite (Rsum_perm _ _ (Permutation_map toR Hperm)) in Hmean.
    exact Hmean.
Qed.

(** The session statistics in double precision, for a history of at
    most [2^32] volumes that are +0 or normal numbers between [2^-501]
    and [2^500]. *)
Lemma metrics_float (volumes : list float) :
  volumes <> [] ->
  Forall (fun v => nonneg_in (-500) 500 v = true) volumes ->
  (Z.of_nat (length volumes) < 2 ^ 32)%Z ->
  exists m min,
    calculateMetrics volumes = Some m /\ minVolume volumes = Some min /\
    In (peakVolume m) volumes /\
    Forall (fun v => toR v <= toR (peakVolume m)) volumes /\
    In min volumes /\
    Forall (fun v => toR min <= toR v) volumes /\
    volumeRange m = (peakVolume m - min)%float /\
    (1 - u) * (toR (peakVolume m) - toR min) <= toR (volumeRange m)
    <= (1 + u) * (toR (peakVolume m) - toR min) /\
    let lowest := noiseFloorSamples volumes in
    let eps := INR (length volumes + 1) * bpow (-50) in
    (1 - eps) * (Rsum (map toR volumes) / INR (length volumes))
    <= toR (avgVolume m)
    <= (1 + eps) * (Rsum (map toR volumes) / INR (length volumes)) /\
    (1 - eps) * (Rsum (map toR lowest) / INR (length lowest))
    <= toR (noiseFloor m)
    <= (1 + eps) * (Rsum (map toR lowest) / INR (length lowest)) /\
    toR (noiseFloor m) <= (1 + eps) * toR (avgVolume m) /\
    toR (avgVolume m) <= (1 + eps) * toR (peakVolume m) /\
    toR min <= (1 + eps) * toR (noiseFloor m).
Proof.
  intros Hne Hall Hlen. pose proof u_bounds as Hu.
  destruct (lowest_float volumes Hne Hall Hlen)
    as (Hlne & Hincl & Hkeq & Hklen & Hmean).
  assert (Hlall : Forall (fun v => nonneg_in (-500) 500 v = true)
                         (noiseFloorSamples volumes)).
  { apply Forall_forall. intros x Hx. rewrite Forall_forall in Hall.
    apply Hall, Hincl, Hx. }
  destruct (mean_float volumes Hne Hall Hlen) as [Havn [Havlo Havhi]].
  destruct (mean_float (noiseFloorSamples volumes) Hlne Hlall ltac:(lia))
    as [Hnfn [Hnflo Hnfhi]].
  assert (Hnn : Forall nonneg volumes)
    by (eapply Forall_impl; [|exact Hall]; intros v; apply nonneg_in_nonneg).
  destruct volumes as [|v vs]; [congruence|].
  set (volumes := v :: vs) in *.
  destruct (Math_max_float vs v Hnn) as [Hmax_in Hmax_all].
  destruct (Math_min_float vs v Hnn) as [Hmin_in Hmin_all].
  fold volumes in Hmax_in, Hmax_all, Hmin_in, Hmin_all.
  set (peak := Math_max v vs) in *. set (min := Math_min v vs) in *.
  assert (Hpk : bounded peak)
    by (apply class_bounded; rewrite Forall_forall in Hall; apply Hall, Hmax_in).
  assert (Hmn : bounded min)
    by (apply class_bounded; rewrite Forall_forall in Hall; apply Hall, Hmin_in).
  assert (Hminpeak : toR min <= toR peak)
    by (rewrite Forall_forall in Hmin_all; apply Hmin_all, Hmax_in).
  destruct (sub_nonneg peak min (proj1 Hpk) (proj1 Hmn) (proj2 Hpk) (proj2 Hmn))
    as [_ Hrange].
  specialize (Hrange Hminpeak).
  eexists. exists min.
  split; [reflexivity|]. split; [reflexivity|].
  cbn [avgVolume peakVolume volumeRange noiseFloor].
  fold peak min.
  split; [exact Hmax_in|]. split; [exact Hmax_all|].
  split; [exact Hmin_in|]. split; [exact Hmin_all|].
  split; [reflexivity|]. split; [exact Hrange|].
  (* the two means *)
  set (lowest := noiseFloorSamples volumes) in *.
  change (num_div (sum volumes) (of_nat (length volumes)))
    with (sum volumes / F64.of_nat (length volumes))%float.
  change (num_div (sum lowest) (of_nat (length lowest)))
    with (sum lowest / F64.of_nat (length lowest))%float.
  cbv zeta in Havn, Havlo, Havhi, Hnfn, Hnflo, Hnfhi.
  set (avg := (sum volumes / F64.of_nat (length volumes))%float) in *.
  set (nf := (sum lowest / F64.of_nat (length lowest))%float) in *.
  set (n := length volumes) in *. set (k := length lowest) in *.
  assert (Hk : (0 < k)%nat)
    by (unfold k; destruct lowest; [congruence | simpl; lia]).
  assert (Hn : (0 < n)%nat) by lia.
  assert (HN : 1 <= INR n) by (change 1 with (INR 1); apply le_INR; lia).
  assert (HK : 1 <= INR k) by (change 1 with (INR 1); apply le_INR; lia).
  assert (HKN : INR k <= INR n) by (apply le_INR; lia).
  set (SV := Rsum (map toR volumes)) in *.
  set (SL := Rsum (map toR lowest)) in *.
  assert (HSV : 0 <= SV) by (apply Rsum_nonneg, Hnn).
  assert (HSL : 0 <= SL).
  { apply Rsum_nonneg. eapply Forall_impl; [|exact Hlall].
    intros x. apply nonneg_in_nonneg. }
  (* means and extremes, exactly *)
  assert (Pn : 0 < / INR n) by (apply Rinv_0_lt_compat; lra).
  assert (Pk : 0 < / INR k) by (apply Rinv_0_lt_compat; lra).
  assert (HE_peak : SV / INR n <= toR peak).
  { assert (H : SV <= INR n * toR peak).
    { unfold SV, n. rewrite <- (length_map toR volumes). apply Rsum_upper.
      apply Forall_map. exact Hmax_all. }
    apply (Rmult_le_reg_r (INR n)); [lra|].
    unfold Rdiv. rewrite Rmult_assoc, Rinv_l by lra. lra. }
  assert (HL_min : toR min <= SL / INR k).
  { assert (H : INR k * toR min <= SL).
    { unfold SL, k. rewrite <- (length_map toR lowest). apply Rsum_lower.
      apply Forall_map. apply Forall_forall. intros x Hx.
      rewrite Forall_forall in Hmin_all. apply Hmin_all, Hincl, Hx. }
    apply (Rmult_le_reg_r (INR k)); [lra|].
    unfold Rdiv. rewrite Rmult_assoc, Rinv_l by lra. lra. }
  assert (HLV : SL / INR k <= SV / INR n).
  { apply (Rmult_le_reg_r (INR k * INR n)); [nra|].
    replace (SL / INR k * (INR k * INR n)) with (INR n * SL * (INR k * / INR k))
      by (unfold Rdiv; ring).
    replace (SV / INR n * (INR k * INR n)) with (INR k * SV * (INR n * / INR n))
      by (unfold Rdiv; ring).
    rewrite !Rinv_r by lra. lra. }
  assert (HEL : 0 <= SL / INR k) by (unfold Rdiv; nra).
  assert (HEV : 0 <= SV / INR n) by (unfold Rdiv; nra).
  (* the rounding factors *)
  set (c := INR (n + 1) * u).
  assert (Hc : 0 <= c <= / 4).
  { unfold c. rewrite plus_INR. simpl (INR 1). split; [nra|].
    assert (Hb : INR n + 1 <= bpow 32).
    { rewrite <- (IZR_pow2 32) by lia.
      replace (INR n + 1) with (IZR (Z.of_nat n + 1))
        by (rewrite plus_IZR, <- INR_IZR_INZ; reflexivity).
      apply IZR_le. lia. }
    apply Rle_trans with (bpow 32 * u); [nra|].
    unfold u. rewrite <- bpow_add.
    apply Rle_trans with (bpow (-2)); [apply bpow_le; lia|].
    unfold bpow. simpl. lra. }
  assert (Heps : INR (n + 1) * bpow (-50) = 4 * c)
    by (unfold c; rewrite <- four_u; ring).
  cbv zeta. rewrite Heps.
  assert (HT : (1 + u) ^ (n + 1) <= 1 + 2 * c).
  { apply Rle_trans with (1 := pow_1pu_upper (n + 1) ltac:(fold c; lra)).
    unfold c. right. ring. }
  assert (HT' : 1 - c <= (1 - u) ^ (n + 1)) by apply pow_1mu_lower.
  assert (HTk : (1 + u) ^ (k + 1) <= 1 + 2 * c).
  { apply Rle_trans with (2 := HT). apply Rle_pow; [lra | lia]. }
  assert (HTk' : 1 - c <= (1 - u) ^ (k + 1)).
  { apply Rle_trans with (2 := pow_1mu_lower (k + 1)).
    assert (INR (k + 1) <= INR (n + 1)) by (apply le_INR; lia).
    unfold c. nra. }
  set (T := (1 + u) ^ (n + 1)) in *. set (T' := (1 - u) ^ (n + 1)) in *.
  set (Tk := (1 + u) ^ (k + 1)) in *. set (Tk' := (1 - u) ^ (k + 1)) in *.
  set (EV := SV / INR n) in *. set (EL := SL / INR k) in *.
  pose proof (nonneg_value avg Havn) as Pavg.
  pose proof (nonneg_value nf Hnfn) as Pnf.
  pose proof (nonneg_value peak (proj1 Hpk)) as Ppeak.
  pose proof (nonneg_value min (proj1 Hmn)) as Pmin.
  assert (Havg_lo : (1 - c) * EV <= toR avg) by nra.
  assert (Havg_hi : toR avg <= (1 + 2 * c) * EV) by nra.
  assert (Hnf_lo : (1 - c) * EL <= toR nf) by nra.
  assert (Hnf_hi : toR nf <= (1 + 2 * c) * EL) by nra.
  split; [split; nra|]. split; [split; nra|].
  split; [|split].
  - (* the noise floor against the average *)
    assert (H1 : (1 - c) * toR nf <= (1 + 2 * c) * toR avg).
    { apply Rle_trans with ((1 - c) * ((1 + 2 * c) * EV)).
      - apply Rmult_le_compat_l; [lra|].
        apply Rle_trans with (1 := Hnf_hi). apply Rmult_le_compat_l; lra.
      - replace ((1 - c) * ((1 + 2 * c) * EV)) with ((1 + 2 * c) * ((1 - c) * EV))
          by ring.
        apply Rmult_le_compat_l; lra. }
    nra.
  - (* the average against the peak *)
    apply Rle_trans with (1 := Havg_hi).
    apply Rle_trans with ((1 + 2 * c) * toR peak).
    + apply Rmult_le_compat_l; lra.
    + apply Rmult_le_compat_r; lra.
  - (* the minimum against the noise floor *)
    assert (H1 : (1 - c) * toR min <= toR nf).
    { apply Rle_trans with (2 := Hnf_lo). apply Rmult_le_compat_l; lra. }
    nra.
Qed.

End FloatStatistics.

Section FloatPipeline.

Import B64.

(** The samples still buffered are as they arrived, and every volume
    recorded is one the statistics can take. *)
Local Abbreviation sized s :=
  (Forall (fun x => float32_sample x = true) (audioBufferRef s) /\
   Forall (fun v => volume_sized v = true) (volumeHistoryRef s)).

Lemma sized_chunk (s : State float) :
  (FRAME_SAMPLES <= length (audioBufferRef s))%nat ->
  sized s -> sized (fst (processAudioChunk s)).
Proof.
  intros Hlen [Hbuf Hvol]. unfold processAudioChunk.
  destruct (negb (model s) || (length (classNames s) =? 0)%nat
            || negb (isListeningRef s)); [split; assumption|].
  cbn [fst audioBufferRef volumeHistoryRef].
  rewrite <- (firstn_skipn FRAME_SAMPLES (audioBufferRef s)) in Hbuf.
  apply Forall_app in Hbuf. destruct Hbuf as [Hframe Hrest].
  split; [exact Hrest|].
  apply Forall_app. split; [exact Hvol|].
  constructor; [|constructor].
  apply rms_close; [|exact Hframe].
  rewrite length_firstn. lia.
Qed.

Lemma sized_dispatch (ev : Event float) (s : State float) :
  float32_event ev = true -> sized s -> sized (dispatch ev s).
Proof.
  intros Hev [Hbuf Hvol].
  destruct ev as [|names| |granted|e|top|]; cbn [dispatch].
  - destruct (Status_eqb (status s) Loading && negb (model s));
      split; assumption.
  - destruct (Status_eqb (status s) Loading && model s); split; assumption.
  - destruct (Status_eqb (status s) Loading); split; assumption.
  - destruct (Status_eqb (status s) Loading || Status_eqb (status s) Listening
              || negb (model s)); [split; assumption|].
    unfold startListening.
    destruct (negb (model s) || (length (classNames s) =? 0)%nat);
      [split; assumption|].
    destruct granted; split; assumption.
  - destruct (scriptProcessorRef s); [|split; assumption].
    cbn [float32_event] in Hev.
    assert (Hin : Forall (fun x => float32_sample x = true) (inputData e))
      by (apply Forall_forall; apply forallb_forall; exact Hev).
    unfold onaudioprocess. cbv zeta. cbn [audioBufferRef].
    destruct (FRAME_SAMPLES <=? length (audioBufferRef s ++ inputData e))%nat eqn:E.
    + apply sized_chunk.
      * cbn [audioBufferRef]. apply Nat.leb_le, E.
      * cbn [audioBufferRef volumeHistoryRef].
        split; [apply Forall_app; split; assumption | exact Hvol].
    + cbn [fst audioBufferRef volumeHistoryRef].
      split; [apply Forall_app; split; assumption | exact Hvol].
  - destruct (0 <? inflight s)%nat; split; assumption.
  - destruct (Status_eqb (status s) Listening); [|split; assumption].
    split; constructor.
Qed.

Lemma sized_run (evs : list (Event float)) : forall s,
  forallb float32_event evs = true -> sized s -> sized (run evs s).
Proof.
  unfold run. induction evs as [|ev evs IH]; intros s Hevs Hs; [exact Hs|].
  cbn [forallb] in Hevs. apply andb_true_iff in Hevs. destruct Hevs as [Hev Hevs].
  cbn [fold_left]. apply IH; [exact Hevs|]. apply sized_dispatch; assumption.
Qed.

(** Every volume history that the application records from samples
    read from [Float32Array]s is one the statistics can take. *)
Lemma recorded_volumes_sized (evs : list (Event float)) :
  forallb float32_event evs = true ->
  Forall (fun v => volume_sized v = true)
         (volumeHistoryRef (run evs (loadModel_begin initial))).
Proof.
  intros Hevs. apply (sized_run evs _ Hevs). split; constructor.
Qed.

End FloatPipeline.

Section Ordering.

Import B64 Exact.
Local Open Scope R_scope.

(** C6 (as amended): for every non-empty volume history the metrics
    exist.  In exact arithmetic noise floor <= average <= peak and
    range = peak - minimum, where the average is the mean, the peak the
    maximum and the minimum the minimum of the history, and the noise
    floor is the mean of the lowest [ceil(n/10)] (at least one) samples
    of the history sorted ascending.  In double precision, for a
    history of fewer than [2^32] volumes that are +0 or normal numbers
    between [2^-501] and [2^500], the peak is the maximum and the
    minimum the minimum of the history, the range is their difference
    rounded once, the lowest samples are the first [ceil(n/10)] (at
    least one) of the history sorted ascending, the average and the
    noise floor are the means of the history and of the lowest samples
    within the relative distance [e = (n + 1) * 2^-50], and the two
    inequalities hold up to that rounding: noise floor <= (1 + e)
    average and average <= (1 + e) peak.  Every history the application
    records from samples read from [Float32Array]s consists of such
    volumes. *)
Theorem metrics_ordered (volumes : list R) (fvolumes : list float)
    (evs : list (Event float)) :
  volumes <> [] ->
  fvolumes <> [] ->
  forallb volume_sized fvolumes = true ->
  (Z.of_nat (length fvolumes) < 2 ^ 32)%Z ->
  (exists m min,
      calculateMetrics volumes = Some m /\ minVolume volumes = Some min /\
      noiseFloor m <= avgVolume m <= peakVolume m /\
      volumeRange m = peakVolume m - min /\
      avgVolume m = Rsum volumes / INR (length volumes) /\
      In (peakVolume m) volumes /\
      Forall (fun v => v <= peakVolume m) volumes /\
      In min volumes /\
      Forall (fun v => min <= v) volumes /\
      let lowest := noiseFloorSamples volumes in
      noiseFloor m = Rsum lowest / INR (length lowest) /\
      length lowest = ((length volumes + 9) / 10)%nat /\
      (1 <= length lowest)%nat /\
      exists rest,
        Permutation (lowest ++ rest) volumes /\
        StronglySorted Rle (lowest ++ rest)) /\
  (exists m min,
      calculateMetrics fvolumes = Some m /\ minVolume fvolumes = Some min /\
      In (peakVolume m) fvolumes /\
      Forall (fun v => toR v <= toR (peakVolume m)) fvolumes /\
      In min fvolumes /\
      Forall (fun v => toR min <= toR v) fvolumes /\
      volumeRange m = PrimFloat.sub (peakVolume m) min /\
      (1 - u) * (toR (peakVolume m) - toR min) <= toR (volumeRange m)
      <= (1 + u) * (toR (peakVolume m) - toR min) /\
      let lowest := noiseFloorSamples fvolumes in
      let e := INR (length fvolumes + 1) * bpow (-50) in
      length lowest = ((length fvolumes + 9) / 10)%nat /\
      (1 <= length lowest)%nat /\
      (exists rest,
          Permutation (lowest ++ rest) fvolumes /\
          StronglySorted B64.le (lowest ++ rest)) /\
      (1 - e) * (Rsum (map toR fvolumes) / INR (length fvolumes))
      <= toR (avgVolume m)
      <= (1 + e) * (Rsum (map toR fvolumes) / INR (length fvolumes)) /\
      (1 - e) * (Rsum (map toR lowest) / INR (length lowest))
      <= toR (noiseFloor m)
      <= (1 + e) * (Rsum (map toR lowest) / INR (length lowest)) /\
      toR (noiseFloor m) <= (1 + e) * toR (avgVolume m) /\
      toR (avgVolume m) <= (1 + e) * toR (peakVolume m) /\
      toR min <= (1 + e) * toR (noiseFloor m)) /\
  (forallb float32_event evs = true ->
   forallb volume_sized (volumeHistoryRef (run evs (loadModel_begin initial)))
   = true).
Proof.
  intros Hne Hfne Hsized Hflen.
  split; [|split].
  - (* exact arithmetic *)
    destruct (lowest_length volumes Hne) as [Hk Hk1].
    destruct (lowest_split volumes) as (rest & Hperm & Hsorted).
    destruct volumes as [|v vs]; [congruence|].
    set (volumes := v :: vs) in *.
    destruct (Math_max_spec vs v) as [Hmax_in Hmax_all].
    destruct (Math_min_spec vs v) as [Hmin_in Hmin_all].
    fold volumes in Hmax_in, Hmax_all, Hmin_in, Hmin_all.
    assert (Hn : 0 < INR (length volumes))
      by (apply lt_0_INR; simpl; lia).
    assert (Hkpos : 0 < INR (length (noiseFloorSamples volumes)))
      by (apply lt_0_INR; lia).
    eexists. exists (Math_min v vs).
    split; [reflexivity|]. split; [reflexivity|].
    cbn [avgVolume peakVolume volumeRange noiseFloor].
    change (num_div ?a ?b) with (a / b).
    change (num_sub ?a ?b) with (a - b).
    change (of_nat ?n) with (INR n).
    rewrite !sum_exact.
    split; [split|].
    + (* the noise floor is at most the average *)
      pose proof (lowest_mean _ (length (noiseFloorSamples volumes)) Hsorted) as Hmean.
      rewrite firstn_app, firstn_all, Nat.sub_diag, firstn_O, app_nil_r in Hmean.
      rewrite (Permutation_length Hperm), (Rsum_perm _ _ Hperm) in Hmean.
      apply (Rmult_le_reg_r (INR (length (noiseFloorSamples volumes))
                             * INR (length volumes))); [nra|].
      field_simplify; [|lra|lra]. nra.
    + (* the average is at most the peak *)
      pose proof (Rsum_upper _ _ Hmax_all) as Hup.
      apply (Rmult_le_reg_r (INR (length volumes))); [exact Hn|].
      unfold Rdiv. rewrite Rmult_assoc, Rinv_l by lra. lra.
    + split; [reflexivity|]. split; [reflexivity|].
      split; [exact Hmax_in|]. split; [exact Hmax_all|].
      split; [exact Hmin_in|]. split; [exact Hmin_all|].
      cbv zeta. split; [reflexivity|]. split; [exact Hk|]. split; [exact Hk1|].
      exists rest. split; assumption.
  - (* double precision *)
    assert (Hall : Forall (fun v => nonneg_in (-500) 500 v = true) fvolumes)
      by (apply Forall_forall; apply forallb_forall; exact Hsized).
    destruct (metrics_float fvolumes Hfne Hall Hflen)
      as (m & min & Hm & Hmin & Hpk & Hpkall & Hmn & Hmnall & Hrg & Hrgb
          & Hmean & Hfloor & Hnf & Havg & Hlow).
    destruct (lowest_float fvolumes Hfne Hall Hflen) as (Hlne & _ & Hkeq & Hklen & _).
    exists m, min.
    split; [exact Hm|]. split; [exact Hmin|].
    split; [exact Hpk|]. split; [exact Hpkall|].
    split; [exact Hmn|]. split; [exact Hmnall|].
    split; [exact Hrg|]. split; [exact Hrgb|].
    cbv zeta in Hmean, Hfloor, Hnf, Havg, Hlow |- *.
    split; [exact Hkeq|].
    split.
    { destruct (noiseFloorSamples fvolumes); [congruence | simpl; lia]. }
    split.
    { exists (skipn (Z.to_nat (Math_ceil
                (num_mul (of_nat (length (sortAscending fvolumes))) lit_0_1
                 : float)))
                    (sortAscending fvolumes)).
      unfold noiseFloorSamples. cbv zeta. rewrite firstn_skipn.
      split; [apply sortAscending_float_perm|].
      apply sortAscending_float_sorted.
      eapply Forall_impl; [|exact Hall]. intros v. apply class_bounded. }
    split; [exact Hmean|]. split; [exact Hfloor|].
    split; [exact Hnf|]. split; [exact Havg | exact Hlow].
  - (* the histories of the application *)
    intros Hevs. apply forallb_forall. apply Forall_forall.
    apply recorded_volumes_sized, Hevs.
Qed.

End Ordering.

(** The history of [average_above_peak], seven equal volumes recorded
    from a steady signal: the average exceeds the peak, within the
    bound. *)
Lemma metrics_ordered_witness :
  let evs := ModelFetched :: ClassNamesFetched ["Speech"%string; "Music"%string]
             :: StartClicked true :: repeat (AudioProcess Scenario.steady) 27 in
  let history := volumeHistoryRef (run evs (loadModel_begin initial)) in
  history = repeat 0.10000000149010764%float 7 /\
  forallb B64.volume_sized history = true /\
  (exists m,
      calculateMetrics [1; 3; 2]%R = Some m /\
      (noiseFloor m <= avgVolume m <= peakVolume m)%R) /\
  (exists m,
      calculateMetrics history = Some m /\
      (B64.toR (avgVolume m)
       <= (1 + INR (7 + 1) * B64.bpow (-50)) * B64.toR (peakVolume m))%R).
Proof.
  intros evs history.
  assert (Hh : history = repeat 0.10000000149010764%float 7)
    by (vm_compute; reflexivity).
  split; [exact Hh|].
  destruct (metrics_ordered [1; 3; 2]%R history evs) as (Hexact & Hfloat & Hrec).
  - discriminate.
  - rewrite Hh. discriminate.
  - rewrite Hh. vm_compute. reflexivity.
  - rewrite Hh. vm_compute. reflexivity.
  - split; [apply Hrec; vm_compute; reflexivity|]. split.
    + destruct Hexact as (m & min & Hm & _ & Hord & _).
      exists m. split; [exact Hm | exact Hord].
    + destruct Hfloat as (m & min & Hm & _ & _ & _ & _ & _ & _ & _
                          & _ & _ & _ & _ & _ & _ & Havg & _).
      exists m. split; [exact Hm|].
      cbv zeta in Havg. rewrite Hh in Havg at 1.
      rewrite repeat_length in Havg. exact Havg.
Defined.

(** Two loud bursts and a faint one: the two snapshots asked for are the
    ones stored. *)
Lemma snapshots_capped_witness :
  spectrumSnapshotsRef
    (fst (feed [Scenario.loud; Scenario.faint; Scenario.loud] Scenario.started))
  = firstn 50 (candidates [Scenario.loud; Scenario.faint; Scenario.loud]) /\
  length (candidates [Scenario.loud; Scenario.faint; Scenario.loud]) = 2.
Proof.
  split.
  - apply (snapshots_capped [Scenario.loud; Scenario.faint; Scenario.loud]
                            Scenario.started); reflexivity.
  - vm_compute. reflexivity.
Defined.

(** Four faint bursts with a favourable random draw: nothing is stored. *)
Lemma no_sound_no_snapshot_witness :
  spectrumSnapshotsRef
    (fst (feed (repeat Scenario.faint 4) (startListening true Scenario.loaded))) = [] /\
  spectrumData
    (stopListening
       (fst (feed (repeat Scenario.faint 4) (startListening true Scenario.loaded))))
  = [].
Proof.
  apply (no_sound_no_snapshot (repeat Scenario.faint 4) Scenario.loaded).
  - reflexivity.
  - vm_compute. discriminate.
  - apply Forall_forall. intros e He. apply repeat_spec in He. subst e.
    apply Forall_forall. intros x Hx.
    change (inputData Scenario.faint) with (repeat 0.005%float 4096) in Hx.
    apply repeat_spec in Hx. subst x. vm_compute. reflexivity.
Defined.

(** * Further properties of the pipeline *)

(** ** Chunks and volumes *)

Section Chunks.

Context {A : Type} {NumA : Number A}.

Lemma onaudioprocess_volume (e : AudioProcessingEvent A) (s : State A) :
  volumeHistoryRef (fst (onaudioprocess e s))
  = volumeHistoryRef s
      ++ match snd (onaudioprocess e s) with Some f => [rms f] | None => [] end /\
  inflight (fst (onaudioprocess e s))
  = inflight s
      + match snd (onaudioprocess e s) with Some _ => 1 | None => 0 end.
Proof.
  unfold onaudioprocess, processAudioChunk.
  destruct (FRAME_SAMPLES <=? _); [destruct (_ || _)|];
    cbn [fst snd volumeHistoryRef inflight];
    rewrite ?app_nil_r, ?Nat.add_0_r, ?Nat.add_1_r; split; reflexivity.
Qed.

(** Every chunk handed to the classifier leaves exactly one volume
    sample, its RMS, in the order of the chunks, and one pending
    inference; nothing else is added to the volume history. *)
Theorem volume_per_frame (es : list (AudioProcessingEvent A)) (s : State A) :
  volumeHistoryRef (fst (feed es s))
  = volumeHistoryRef s ++ map rms (snd (feed es s)) /\
  inflight (fst (feed es s)) = inflight s + length (snd (feed es s)).
Proof.
  revert s. induction es as [|e es IH]; intros s.
  - cbn [feed fst snd map length]. rewrite app_nil_r, Nat.add_0_r. auto.
  - destruct (onaudioprocess_volume e s) as [Hv Hi].
    specialize (IH (fst (onaudioprocess e s))). destruct IH as [IHv IHi].
    cbn [feed]. destruct (onaudioprocess e s) as [s1 out]. cbn [fst snd] in *.
    destruct (feed es s1) as [s2 frames]. cbn [fst snd] in *.
    rewrite IHv, IHi, Hv, Hi.
    destruct out; cbn [map length]; rewrite <- ?app_assoc, ?app_nil_r;
      split; try reflexivity; lia.
Qed.

(** While the audio callback is installed the guard of
    [processAudioChunk] is open: a callback that fills the buffer to
    15,600 samples or more always hands over the first 15,600, and a
    callback that does not hands over nothing. *)
Theorem chunk_guard_open (e : AudioProcessingEvent A) (s : State A) :
  reachable s ->
  scriptProcessorRef s = true ->
  snd (onaudioprocess e s)
  = if FRAME_SAMPLES <=? length (audioBufferRef s) + length (inputData e)
    then Some (firstn FRAME_SAMPLES (audioBufferRef s ++ inputData e))
    else None.
Proof.
  intros Hreach Hproc.
  destruct (reachable_invariant s Hreach) as (Hout & Hin & _).
  assert (Hl : status s = Listening).
  { destruct (status s) eqn:Hst; try reflexivity;
      (assert (Hnl : status s <> Listening) by congruence;
       rewrite <- Hst in Hout; destruct (Hout Hnl) as (_ & _ & Hoff);
       congruence). }
  destruct (Hin Hl) as (_ & Hready & _).
  unfold onaudioprocess. cbn [audioBufferRef]. rewrite length_app.
  destruct (FRAME_SAMPLES <=? _); [|reflexivity].
  unfold processAudioChunk. cbn [model classNames isListeningRef audioBufferRef].
  rewrite (ready_guard s Hready). reflexivity.
Qed.

End Chunks.

Lemma chunk_guard_open_witness :
  snd (onaudioprocess (Scenario.quiet 0.5%float 4096) Scenario.started) = None.
Proof.
  rewrite (chunk_guard_open (Scenario.quiet 0.5%float 4096) Scenario.started).
  - vm_compute. reflexivity.
  - exists [ModelFetched; ClassNamesFetched ["Speech"%string; "Music"%string];
            StartClicked true].
    reflexivity.
  - reflexivity.
Defined.

(** ** More on the session statistics, in exact arithmetic *)

Section MoreStatistics.

Import Exact.
Local Open Scope R_scope.

Lemma lt_exact (a b : R) : num_lt a b = true <-> a < b.
Proof.
  change (num_lt a b) with (lt a b). unfold lt.
  destruct (Rlt_dec a b); split; intros; try assumption; try reflexivity;
    try discriminate; contradiction.
Qed.

Lemma filter_none (T : Type) (f : T -> bool) (l : list T) :
  length (filter f l) = 0%nat <-> Forall (fun x => f x = false) l.
Proof.
  induction l as [|x l IH]; cbn [filter]; [split; auto|].
  destruct (f x) eqn:Hx; cbn [length].
  - split; [discriminate|]. intros H. inversion H; congruence.
  - rewrite IH. split; [intros H; constructor; assumption|].
    intros H. inversion H; assumption.
Qed.

Lemma filter_all (T : Type) (f : T -> bool) (l : list T) :
  length (filter f l) = length l <-> Forall (fun x => f x = true) l.
Proof.
  induction l as [|x l IH]; cbn [filter]; [split; auto|].
  pose proof (filter_length_le f l) as Hle.
  destruct (f x) eqn:Hx; cbn [length].
  - split.
    + intros H. constructor; [exact Hx|]. apply IH. lia.
    + intros H. inversion H; subst. f_equal. apply IH. assumption.
  - split; [lia|]. intros H. inversion H; congruence.
Qed.

Lemma noiseFloorSamples_incl (volumes : list R) (x : R) :
  In x (noiseFloorSamples volumes) -> In x volumes.
Proof.
  intros Hx. destruct (lowest_split volumes) as (rest & Hperm & _).
  apply (Permutation_in _ Hperm), in_or_app. left. exact Hx.
Qed.

(** For a non-empty volume history, in exact arithmetic: the silence
    figure is the percentage of samples strictly below 0.01, so it lies
    between 0 and 100, is 0 exactly when no sample is below 0.01 and 100
    exactly when all are; the range is not negative; and the noise floor
    is not below the minimum. *)
Theorem metrics_bounds (volumes : list R) :
  volumes <> [] ->
  exists m min,
    calculateMetrics volumes = Some m /\ minVolume volumes = Some min /\
    0 <= silencePercent m <= 100 /\
    (silencePercent m = 0 <-> Forall (fun v => 1 / 100 <= v) volumes) /\
    (silencePercent m = 100 <-> Forall (fun v => v < 1 / 100) volumes) /\
    0 <= volumeRange m /\
    min <= noiseFloor m.
Proof.
  intros Hne.
  destruct (lowest_length volumes Hne) as [_ Hk1].
  pose proof (noiseFloorSamples_incl volumes) as Hincl.
  destruct volumes as [|v vs]; [congruence|].
  set (volumes := v :: vs) in *.
  destruct (Math_max_spec vs v) as [Hmax_in Hmax_all].
  destruct (Math_min_spec vs v) as [Hmin_in Hmin_all].
  fold volumes in Hmax_in, Hmax_all, Hmin_in, Hmin_all.
  assert (Hn : 0 < INR (length volumes)) by (apply lt_0_INR; simpl; lia).
  eexists. exists (Math_min v vs).
  split; [reflexivity|]. split; [reflexivity|].
  cbn [silencePercent volumeRange noiseFloor].
  change (num_div ?a ?b) with (a / b).
  change (num_mul ?a ?b) with (a * b).
  change (num_sub ?a ?b) with (a - b).
  change (of_nat ?n) with (INR n).
  change (@lit_0_01 R R_Number) with (1 / 100).
  fold volumes.
  set (silent := filter (fun v0 : R => num_lt v0 (1 / 100)) volumes).
  pose proof (filter_length_le (fun v0 : R => num_lt v0 (1 / 100)) volumes) as Hle.
  fold silent in Hle.
  assert (Hs0 : 0 <= INR (length silent)) by apply pos_INR.
  assert (Hs1 : INR (length silent) <= INR (length volumes)) by (apply le_INR; exact Hle).
  replace (INR 100) with 100 by (simpl; lra).
  assert (Hfrac : 0 <= INR (length silent) / INR (length volumes) <= 1).
  { split.
    - apply Rmult_le_pos; [exact Hs0 | left; apply Rinv_0_lt_compat; exact Hn].
    - apply (Rmult_le_reg_r (INR (length volumes))); [exact Hn|].
      unfold Rdiv. rewrite Rmult_assoc, Rinv_l by lra. lra. }
  split; [lra|]. split; [|split; [|split]].
  - (* no silence *)
    split.
    + intros H0.
      assert (Hz : INR (length silent) = INR 0).
      { assert (Hq : INR (length silent) / INR (length volumes) = 0) by lra.
        apply (f_equal (fun r => r * INR (length volumes))) in Hq.
        unfold Rdiv in Hq. rewrite Rmult_assoc, Rinv_l in Hq by lra.
        simpl. lra. }
      apply INR_eq in Hz. apply filter_none in Hz.
      eapply Forall_impl; [|exact Hz]. intros x Hx. cbv beta in Hx.
      destruct (Rlt_dec x (1 / 100)) as [Hlt|Hge]; [|lra].
      apply lt_exact in Hlt. congruence.
    + intros Hall.
      assert (Hz : length silent = 0%nat).
      { apply filter_none. eapply Forall_impl; [|exact Hall].
        intros x Hx. cbv beta in Hx.
        destruct (num_lt x (1 / 100)) eqn:E; [|reflexivity].
        apply lt_exact in E. lra. }
      rewrite Hz. simpl. lra.
  - (* all silent *)
    split.
    + intros H100.
      assert (Hz : INR (length silent) = INR (length volumes)).
      { assert (Hq : INR (length silent) / INR (length volumes) = 1) by lra.
        apply (f_equal (fun r => r * INR (length volumes))) in Hq.
        unfold Rdiv in Hq. rewrite Rmult_assoc, Rinv_l in Hq by lra. lra. }
      apply INR_eq in Hz. apply filter_all in Hz.
      eapply Forall_impl; [|exact Hz]. intros x Hx. cbv beta in Hx.
      apply lt_exact in Hx. exact Hx.
    + intros Hall.
      assert (Hz : length silent = length volumes).
      { apply filter_all. eapply Forall_impl; [|exact Hall].
        intros x Hx. cbv beta in Hx. apply lt_exact. exact Hx. }
      rewrite Hz. unfold Rdiv. rewrite Rinv_r by lra. lra.
  - (* the range *)
    rewrite Forall_forall in Hmax_all. specialize (Hmax_all _ Hmin_in).
    cbv beta in Hmax_all. lra.
  - (* the noise floor *)
    rewrite sum_exact.
    assert (Hkpos : 0 < INR (length (noiseFloorSamples volumes)))
      by (apply lt_0_INR; lia).
    assert (Hlow : INR (length (noiseFloorSamples volumes)) * Math_min v vs
                   <= Rsum (noiseFloorSamples volumes)).
    { apply Rsum_lower, Forall_forall. intros x Hx.
      rewrite Forall_forall in Hmin_all. apply Hmin_all, Hincl, Hx. }
    apply (Rmult_le_reg_r (INR (length (noiseFloorSamples volumes))));
      [exact Hkpos|].
    unfold Rdiv. rewrite Rmult_assoc, Rinv_l by lra. lra.
Qed.

(** *** Order of the samples *)

Lemma sorted_perm_unique (l1 : list R) : forall l2,
  StronglySorted Rle l1 -> StronglySorted Rle l2 -> Permutation l1 l2 ->
  l1 = l2.
Proof.
  induction l1 as [|x l1 IH]; intros l2 H1 H2 Hp.
  - apply Permutation_nil in Hp. congruence.
  - destruct l2 as [|y l2];
      [apply Permutation_sym, Permutation_nil in Hp; discriminate|].
    inversion H1 as [|? ? H1' Hx]; subst. inversion H2 as [|? ? H2' Hy]; subst.
    assert (Hxy : x = y).
    { apply Rle_antisym.
      - assert (Hin : In y (x :: l1))
          by (apply (Permutation_in _ (Permutation_sym Hp)); left; reflexivity).
        destruct Hin as [->|Hin]; [lra|].
        rewrite Forall_forall in Hx. apply Hx, Hin.
      - assert (Hin : In x (y :: l2))
          by (apply (Permutation_in _ Hp); left; reflexivity).
        destruct Hin as [->|Hin]; [lra|].
        rewrite Forall_forall in Hy. apply Hy, Hin. }
    subst y. f_equal. apply IH; try assumption.
    apply Permutation_cons_inv in Hp. exact Hp.
Qed.

Lemma sortAscending_perm_eq (l l' : list R) :
  Permutation l l' -> sortAscending l = sortAscending l'.
Proof.
  intros Hp. apply sorted_perm_unique; try apply sortAscending_sorted.
  rewrite !sortAscending_perm. exact Hp.
Qed.

Lemma filter_length_perm (T : Type) (f : T -> bool) (l l' : list T) :
  Permutation l l' -> length (filter f l) = length (filter f l').
Proof.
  induction 1 as [|x l l' _ IH|x y l|l l' l'' _ IH1 _ IH2]; cbn [filter].
  - reflexivity.
  - destruct (f x); cbn [length]; congruence.
  - destruct (f x), (f y); reflexivity.
  - congruence.
Qed.

(** In exact arithmetic the statistics do not depend on the order of the
    volume samples. *)
Theorem metrics_order_independent (volumes volumes' : list R) :
  Permutation volumes volumes' ->
  calculateMetrics volumes = calculateMetrics volumes'.
Proof.
  intros Hp.
  destruct volumes as [|v vs], volumes' as [|v' vs'].
  - reflexivity.
  - apply Permutation_nil in Hp. discriminate.
  - apply Permutation_sym, Permutation_nil in Hp. discriminate.
  - assert (Hsum : sum (v :: vs) = sum (v' :: vs'))
      by (rewrite !sum_exact; apply Rsum_perm, Hp).
    assert (Hlen : length (v :: vs) = length (v' :: vs'))
      by apply Permutation_length, Hp.
    assert (Hmax : Math_max v vs = Math_max v' vs').
    { destruct (Math_max_spec vs v) as [Hi Ha].
      destruct (Math_max_spec vs' v') as [Hi' Ha'].
      rewrite Forall_forall in Ha, Ha'. apply Rle_antisym.
      - apply Ha', (Permutation_in _ Hp), Hi.
      - apply Ha, (Permutation_in _ (Permutation_sym Hp)), Hi'. }
    assert (Hmin : Math_min v vs = Math_min v' vs').
    { destruct (Math_min_spec vs v) as [Hi Ha].
      destruct (Math_min_spec vs' v') as [Hi' Ha'].
      rewrite Forall_forall in Ha, Ha'. apply Rle_antisym.
      - apply Ha, (Permutation_in _ (Permutation_sym Hp)), Hi'.
      - apply Ha', (Permutation_in _ Hp), Hi. }
    assert (Hlow : noiseFloorSamples (v :: vs) = noiseFloorSamples (v' :: vs')).
    { unfold noiseFloorSamples. rewrite (sortAscending_perm_eq _ _ Hp). reflexivity. }
    assert (Hsil : length (filter (fun x : R => num_lt x lit_0_01) (v :: vs))
                   = length (filter (fun x : R => num_lt x lit_0_01) (v' :: vs')))
      by apply filter_length_perm, Hp.
    cbn [calculateMetrics].
    rewrite Hsum, Hlen, Hmax, Hmin, Hlow, Hsil. reflexivity.
Qed.

End MoreStatistics.

Lemma metrics_bounds_witness :
  exists m,
    calculateMetrics [1 / 200; 3; 2]%R = Some m /\
    (0 <= silencePercent m <= 100)%R.
Proof.
  destruct (metrics_bounds [1 / 200; 3; 2]%R ltac:(discriminate))
    as (m & min & Hm & _ & Hs & _).
  exists m. split; [exact Hm | exact Hs].
Defined.

Lemma metrics_order_independent_witness :
  calculateMetrics [1; 3; 2]%R = calculateMetrics [3; 2; 1]%R.
Proof.
  apply metrics_order_independent.
  apply Permutation_cons_app with (l1 := [3; 2]%R) (l2 := @nil R). reflexivity.
Defined.

(** ** The averaged spectrum *)

Section Spectrum.

Context {A : Type} {NumA : Number A}.

Lemma fill_Uint8Array_length (n : nat) (data : list N) :
  length (fill_Uint8Array n data) = n.
Proof.
  unfold fill_Uint8Array.
  rewrite length_firstn, length_app, repeat_length. lia.
Qed.

Lemma captureSnapshot_sized (e : AudioProcessingEvent A) (s : State A) :
  Forall (fun snap => length snap = frequencyBinCount) (spectrumSnapshotsRef s) ->
  Forall (fun snap => length snap = frequencyBinCount) (captureSnapshot e s).
Proof.
  intros Hs. unfold captureSnapshot. destruct (_ && _); [|exact Hs].
  apply Forall_app. split; [exact Hs|].
  apply Forall_cons; [apply fill_Uint8Array_length | apply Forall_nil].
Qed.

Lemma dispatch_sized (ev : Event A) (s : State A) :
  Forall (fun snap => length snap = frequencyBinCount) (spectrumSnapshotsRef s) ->
  Forall (fun snap => length snap = frequencyBinCount)
         (spectrumSnapshotsRef (dispatch ev s)).
Proof.
  intros Hs. destruct ev as [|names| |granted|e|batch|]; cbn [dispatch].
  - destruct (_ && _); [exact Hs | exact Hs].
  - destruct (_ && _); [exact Hs | exact Hs].
  - destruct (Status_eqb _ _); [exact Hs | exact Hs].
  - destruct (_ || _); [exact Hs|]. unfold startListening.
    destruct (_ || _); [exact Hs|]. destruct granted; apply Forall_nil.
  - destruct (scriptProcessorRef s); [|exact Hs].
    pose proof (onaudioprocess_fields e s) as Hf. cbv zeta in Hf.
    destruct Hf as (_ & _ & _ & _ & _ & _ & _ & _ & _ & Hsnap).
    rewrite Hsnap. apply captureSnapshot_sized, Hs.
  - destruct (0 <? inflight s); [exact Hs | exact Hs].
  - destruct (Status_eqb _ _); [apply Forall_nil | exact Hs].
Qed.

Lemma reachable_sized (s : State A) :
  reachable s ->
  Forall (fun snap => length snap = frequencyBinCount) (spectrumSnapshotsRef s).
Proof.
  intros [evs ->].
  assert (Hgen : forall s0 : State A,
             Forall (fun snap => length snap = frequencyBinCount)
                    (spectrumSnapshotsRef s0) ->
             Forall (fun snap => length snap = frequencyBinCount)
                    (spectrumSnapshotsRef (run evs s0))).
  { induction evs as [|ev evs IH]; intros s0 H0; [exact H0|].
    cbn [run fold_left]. apply IH, dispatch_sized, H0. }
  apply Hgen. apply Forall_nil.
Qed.

Lemma displayData_length (snapshots : list (list N)) :
  snapshots <> [] ->
  Forall (fun snap => length snap = frequencyBinCount) snapshots ->
  length (displayData (A := A) snapshots) = 128.
Proof.
  intros Hne Hs. destruct snapshots as [|first rest]; [congruence|].
  inversion Hs as [|? ? Hfirst _]; subst.
  unfold displayData. rewrite length_firstn, length_map, length_seq, Hfirst.
  vm_compute. reflexivity.
Qed.

(** Every stored snapshot has the 1,024 bytes of the analyser, so when a
    session that captured at least one snapshot is stopped, the spectrum
    handed to the display has exactly 128 bins. *)
Theorem spectrum_has_128_bins (s : State A) :
  reachable s ->
  status s = Listening ->
  spectrumSnapshotsRef s <> [] ->
  Forall (fun snap => length snap = frequencyBinCount) (spectrumSnapshotsRef s) /\
  length (spectrumData (dispatch StopClicked s)) = 128.
Proof.
  intros Hreach Hl Hne. pose proof (reachable_sized s Hreach) as Hs.
  split; [exact Hs|].
  cbn [dispatch]. rewrite Hl. cbn [Status_eqb stopListening spectrumData].
  destruct (spectrumSnapshotsRef s) as [|first rest] eqn:E; [congruence|].
  cbn [length Nat.ltb Nat.leb]. apply displayData_length; [discriminate | exact Hs].
Qed.

End Spectrum.

Section ExactSpectrum.

Import Exact.
Local Open Scope R_scope.

Lemma averagedBin_exact (snapshots : list (list N)) (i : nat) :
  averagedBin snapshots i
  = Rsum (map (fun snap => INR (N.to_nat (nth i snap 0%N))) snapshots)
    / INR (length snapshots).
Proof.
  unfold averagedBin.
  change (Math_fround ?x) with x.
  assert (Hfold : forall (l : list (list N)) (a : R),
             fold_left (fun acc snap =>
                          Math_fround (num_add acc (of_nat (N.to_nat (nth i snap 0%N)))))
                       l a
             = a + Rsum (map (fun snap => INR (N.to_nat (nth i snap 0%N))) l)).
  { unfold Rsum. induction l as [|x l IH]; intros a; cbn [fold_left map fold_right].
    - lra.
    - rewrite IH. change (Math_fround ?x) with x.
      change (num_add ?a ?b) with (a + b). change (of_nat ?n) with (INR n). lra. }
  rewrite Hfold. change (of_nat 0) with (INR 0). change (num_div ?a ?b) with (a / b).
  simpl (INR 0). rewrite Rplus_0_l. reflexivity.
Qed.

Lemma Forall_firstn (T : Type) (P : T -> Prop) (n : nat) (l : list T) :
  Forall P l -> Forall P (firstn n l).
Proof.
  intros H. rewrite <- (firstn_skipn n l) in H. apply Forall_app in H. apply H.
Qed.

(** In exact arithmetic each bin of the displayed spectrum is the mean,
    over the stored snapshots, of the byte the analyser gave for that
    bin, and therefore lies between 0 and 255. *)
Theorem averaged_bins_are_byte_means (snapshots : list (list N)) :
  snapshots <> [] ->
  Forall (Forall (fun b => (b <= 255)%N)) snapshots ->
  (forall i,
      averagedBin snapshots i
      = Rsum (map (fun snap => INR (N.to_nat (nth i snap 0%N))) snapshots)
        / INR (length snapshots)) /\
  Forall (fun x => 0 <= x <= 255) (displayData snapshots).
Proof.
  intros Hne Hbytes. split; [intros i; apply averagedBin_exact|].
  assert (Hn : 0 < INR (length snapshots))
    by (apply lt_0_INR; destruct snapshots; [congruence | simpl; lia]).
  assert (Hshape : exists k, displayData snapshots
                             = firstn 128 (map (averagedBin snapshots) (seq 0 k)))
    by (destruct snapshots as [|first rest];
        [exists 0%nat; reflexivity | exists (length first); reflexivity]).
  destruct Hshape as [k ->].
  apply Forall_firstn, Forall_forall. intros x Hx.
  apply in_map_iff in Hx. destruct Hx as (i & <- & _).
  rewrite averagedBin_exact.
  set (g := fun snap : list N => INR (N.to_nat (nth i snap 0%N))).
  assert (Hg : forall snap, In snap snapshots -> 0 <= g snap <= 255).
  { intros snap Hin. unfold g. split; [apply pos_INR|].
    replace 255 with (INR 255) by (simpl; lra). apply le_INR.
    rewrite Forall_forall in Hbytes. specialize (Hbytes _ Hin).
    destruct (nth_in_or_default i snap 0%N) as [Hnth|Hnth].
    - rewrite Forall_forall in Hbytes. specialize (Hbytes _ Hnth). lia.
    - rewrite Hnth. simpl. lia. }
  assert (Hup : Rsum (map g snapshots) <= INR (length (map g snapshots)) * 255).
  { apply Rsum_upper, Forall_forall. intros y Hy.
    apply in_map_iff in Hy. destruct Hy as (snap & <- & Hin). apply Hg, Hin. }
  assert (Hlow : INR (length (map g snapshots)) * 0 <= Rsum (map g snapshots)).
  { apply Rsum_lower, Forall_forall. intros y Hy.
    apply in_map_iff in Hy. destruct Hy as (snap & <- & Hin). apply Hg, Hin. }
  rewrite length_map in Hup, Hlow.
  split.
  - apply Rmult_le_pos; [lra | left; apply Rinv_0_lt_compat; exact Hn].
  - apply (Rmult_le_reg_r (INR (length snapshots))); [exact Hn|].
    unfold Rdiv. rewrite Rmult_assoc, Rinv_l by lra. lra.
Qed.

End ExactSpectrum.

Lemma spectrum_has_128_bins_witness :
  length (spectrumData
            (dispatch StopClicked
               (run [StartClicked true; AudioProcess Scenario.loud] Scenario.loaded)))
  = 128.
Proof.
  apply (spectrum_has_128_bins
           (run [StartClicked true; AudioProcess Scenario.loud] Scenario.loaded)).
  - exists [ModelFetched; ClassNamesFetched ["Speech"%string; "Music"%string];
            StartClicked true; AudioProcess Scenario.loud].
    reflexivity.
  - reflexivity.
  - vm_compute. discriminate.
Defined.

Lemma averaged_bins_are_byte_means_witness :
  Forall (fun x => 0 <= x <= 255)%R (displayData [[10; 20]%N; [30; 255]%N]).
Proof.
  apply (averaged_bins_are_byte_means [[10; 20]%N; [30; 255]%N]).
  - discriminate.
  - repeat (apply Forall_cons || apply Forall_nil); apply N.leb_le; reflexivity.
Defined.

(** ** Failures *)

Section Failures.

Context {A : Type} {NumA : Number A}.

(** A refused microphone leaves the application in 'error' with the
    microphone message and without any session data (the detection
    history is kept); the Start button is enabled again, and a granted
    request then enters 'listening'. *)
Theorem microphone_failure_recoverable (s : State A) :
  reachable s ->
  status s = Idle \/ status s = Error ->
  model s = true ->
  classNames s <> [] ->
  let failed := dispatch (StartClicked false) s in
  status failed = Error /\
  error failed = "Failed to access microphone. Please check permissions."%string /\
  audioBufferRef failed = [] /\ volumeHistoryRef failed = [] /\
  spectrumSnapshotsRef failed = [] /\ scriptProcessorRef failed = false /\
  detections failed = detections s /\
  status (dispatch (StartClicked true) failed) = Listening.
Proof.
  intros Hreach Hst Hm Hc failed.
  destruct (reachable_invariant s Hreach) as (Hout & _).
  assert (Hnl : status s <> Listening) by (destruct Hst as [H|H]; rewrite H; discriminate).
  destruct (Hout Hnl) as (Hbuf & Hvol & Hproc).
  assert (Hfailed : failed = startListening false s).
  { unfold failed. cbn [dispatch]. rewrite Hm.
    destruct Hst as [H|H]; rewrite H; reflexivity. }
  rewrite Hfailed. unfold startListening. rewrite Hm.
  destruct (classNames s) as [|name names] eqn:E; [congruence|].
  cbn. repeat split; assumption.
Qed.

Lemma load_failure_dispatch (ev : Event A) (s : State A) :
  status s = Error -> model s = false \/ classNames s = [] ->
  scriptProcessorRef s = false ->
  let s' := dispatch ev s in
  status s' = Error /\ model s' = model s /\ classNames s' = classNames s /\
  scriptProcessorRef s' = false /\
  audioBufferRef s' = audioBufferRef s /\
  volumeHistoryRef s' = volumeHistoryRef s.
Proof.
  intros Hst Hnot Hproc.
  assert (Hguard : negb (model s) || (length (classNames s) =? 0) = true).
  { destruct Hnot as [Hm|Hc]; [rewrite Hm | rewrite Hc, orb_true_r]; reflexivity. }
  destruct ev as [|names| |granted|e|batch|]; cbn [dispatch];
    rewrite ?Hst, ?Hproc; cbn [Status_eqb andb orb];
    try (repeat split; (assumption || reflexivity)).
  - (* StartClicked *)
    unfold startListening. rewrite Hguard.
    destruct (negb (model s)); cbn; repeat split; (assumption || reflexivity).
  - (* InferenceDone *)
    destruct (0 <? inflight s); cbn; repeat split; (assumption || reflexivity).
Qed.

(** When loading the model or the class names has failed, nothing that
    can happen afterwards starts a session: the status stays 'error', the
    model and the class names stay as they are, no audio callback is ever
    installed and no sample is buffered. *)
Theorem load_failure_is_final (evs : list (Event A)) (s : State A) :
  reachable s ->
  status s = Error ->
  model s = false \/ classNames s = [] ->
  let s' := run evs s in
  status s' = Error /\ model s' = model s /\ classNames s' = classNames s /\
  scriptProcessorRef s' = false /\
  audioBufferRef s' = [] /\ volumeHistoryRef s' = [].
Proof.
  intros Hreach Hst Hnot.
  destruct (reachable_invariant s Hreach) as (Hout & _).
  assert (Hnl : status s <> Listening) by (rewrite Hst; discriminate).
  destruct (Hout Hnl) as (Hbuf & Hvol & Hproc).
  clear Hreach Hout Hnl. revert s Hst Hnot Hbuf Hvol Hproc.
  induction evs as [|ev evs IH]; intros s Hst Hnot Hbuf Hvol Hproc.
  - cbn. repeat split; assumption.
  - cbn [run fold_left].
    pose proof (load_failure_dispatch ev s Hst Hnot Hproc) as Hd. cbv zeta in Hd.
    destruct Hd as (Hst1 & Hm1 & Hc1 & Hproc1 & Hbuf1 & Hvol1).
    specialize (IH (dispatch ev s) Hst1).
    cbv zeta in IH. fold (run evs (dispatch ev s)) in IH.
    rewrite Hm1, Hc1 in IH. apply IH.
    + exact Hnot.
    + congruence.
    + congruence.
    + exact Hproc1.
Qed.

End Failures.

Lemma microphone_failure_recoverable_witness :
  status (dispatch (StartClicked false) Scenario.loaded) = Error /\
  status (dispatch (StartClicked true)
                   (dispatch (StartClicked false) Scenario.loaded)) = Listening.
Proof.
  pose proof (microphone_failure_recoverable Scenario.loaded) as H.
  cbv zeta in H. destruct H as (Hst & _ & _ & _ & _ & _ & _ & Hagain).
  - exists [ModelFetched; ClassNamesFetched ["Speech"%string; "Music"%string]].
    reflexivity.
  - left. reflexivity.
  - reflexivity.
  - vm_compute. discriminate.
  - split; [exact Hst | exact Hagain].
Defined.

Lemma load_failure_is_final_witness :
  status (run (Scenario.first_session ++ [StartClicked true])
              Scenario.names_failed) = Error.
Proof.
  apply (load_failure_is_final (Scenario.first_session ++ [StartClicked true])
                               Scenario.names_failed).
  - exists [ModelFetched; LoadFailed]. reflexivity.
  - reflexivity.
  - right. reflexivity.
Defined.

(** ** From scores to detections *)

Section TopPredictions.

Context {A : Type} {NumA : Number A} {LitA : Literals A}.

Lemma In_firstn (T : Type) (n : nat) (l : list T) (x : T) :
  In x (firstn n l) -> In x l.
Proof.
  intros Hx. rewrite <- (firstn_skipn n l). apply in_or_app. left. exact Hx.
Qed.

Lemma In_indexed (T : Type) (l : list T) : forall k i (x : T),
  In (i, x) (combine (seq k (length l)) l) ->
  k <= i /\ nth_error l (i - k) = Some x.
Proof.
  induction l as [|y l IH]; intros k i x Hin; [contradiction|].
  cbn [length seq combine] in Hin. destruct Hin as [Heq|Hin].
  - inversion Heq; subst. rewrite Nat.sub_diag. split; [lia | reflexivity].
  - apply IH in Hin. destruct Hin as [Hk Hnth]. split; [lia|].
    replace (i - k) with (S (i - S k)) by lia. exact Hnth.
Qed.

Lemma nth_error_indexed (T U : Type) (f : nat * T -> U) (l : list T) :
  forall k i (u : U),
    nth_error (map f (combine (seq k (length l)) l)) i = Some u ->
    exists x, nth_error l i = Some x /\ u = f (k + i, x).
Proof.
  induction l as [|y l IH]; intros k i u Hnth.
  - destruct i; discriminate.
  - cbn [length seq combine map] in Hnth. destruct i as [|i].
    + inversion Hnth; subst. exists y. rewrite Nat.add_0_r. auto.
    + cbn [nth_error] in Hnth. apply IH in Hnth.
      destruct Hnth as (x & Hx & ->). exists x. split; [exact Hx|].
      f_equal. f_equal. lia.
Qed.

Lemma className_nonempty (names : list string) (index : nat) :
  className names index <> ""%string.
Proof.
  unfold className. destruct (nth_error names index) as [n|].
  - destruct (String.eqb n "") eqn:E; [discriminate|].
    apply String.eqb_neq. exact E.
  - discriminate.
Qed.

Lemma insertPrediction_perm (x : Prediction.t A) (l : list (Prediction.t A)) :
  Permutation (insertPrediction x l) (x :: l).
Proof.
  induction l as [|y l IH]; [reflexivity|].
  cbn [insertPrediction]. destruct (num_lt _ _); [|reflexivity].
  rewrite IH. apply perm_swap.
Qed.

Lemma predictions_perm (names : list string) (scoresData : list A) :
  Permutation (predictions names scoresData) (namedScores names scoresData).
Proof.
  unfold predictions. induction (namedScores names scoresData) as [|x l IH];
    [reflexivity|].
  cbn [fold_right]. rewrite insertPrediction_perm, IH. reflexivity.
Qed.

Lemma namedScores_origin (names : list string) (scoresData : list A)
    (p : Prediction.t A) :
  In p (namedScores names scoresData) ->
  exists index,
    nth_error scoresData index = Some (Prediction.score p) /\
    Prediction.name p = className names index.
Proof.
  unfold namedScores. intros Hin. apply in_map_iff in Hin.
  destruct Hin as ([index sc] & <- & Hin).
  apply In_indexed in Hin. destruct Hin as [_ Hnth].
  rewrite Nat.sub_0_r in Hnth. exists index. auto.
Qed.

Lemma confident_spec (names : list string) (scoresData : list A)
    (p : Prediction.t A) :
  In p (confident names scoresData) ->
  num_lt lit_0_2 (Prediction.score p) = true /\
  In p (namedScores names scoresData).
Proof.
  unfold confident. intros Hin. apply In_firstn, filter_In in Hin.
  destruct Hin as [Hin Hok]. split; [exact Hok|].
  apply (Permutation_in _ (predictions_perm names scoresData)), Hin.
Qed.

Lemma topPredictions_origin (stamp : nat -> string * Z)
    (names : list string) (scoresData : list A) :
  Forall (fun d =>
            num_lt lit_0_2 (score d) = true /\
            label d <> ""%string /\
            exists index,
              nth_error scoresData index = Some (score d) /\
              label d = className names index)
         (topPredictions stamp names scoresData).
Proof.
  unfold topPredictions.
  apply Forall_forall. intros d Hd. apply in_map_iff in Hd.
  destruct Hd as ([i p] & <- & Hin). apply in_combine_r in Hin.
  apply confident_spec in Hin. destruct Hin as [Hok Hin].
  apply namedScores_origin in Hin. destruct Hin as (index & Hnth & Hname).
  cbn [score label]. split; [exact Hok|]. split.
  - rewrite Hname. apply className_nonempty.
  - exists index. auto.
Qed.

(** What [topPredictions] keeps: at most five detections; each has a
    score above 0.2 that is one of the scores of the classifier, and as
    label the class name of that score's index, which is never the empty
    string; the [i]-th carries the [i]-th stamp. *)
Theorem top_predictions_filtered (stamp : nat -> string * Z)
    (names : list string) (scoresData : list A) :
  let top := topPredictions stamp names scoresData in
  length top <= 5 /\
  Forall (fun d =>
            num_lt lit_0_2 (score d) = true /\
            label d <> ""%string /\
            exists index,
              nth_error scoresData index = Some (score d) /\
              label d = className names index) top /\
  (forall i d, nth_error top i = Some d ->
               id d = fst (stamp i) /\ timestamp d = snd (stamp i)).
Proof.
  intros top. unfold top, topPredictions. split; [|split].
  - rewrite length_map, length_combine, length_seq, Nat.min_id.
    unfold confident. rewrite length_firstn. lia.
  - apply topPredictions_origin.
  - intros i d Hnth. apply nth_error_indexed in Hnth.
    destruct Hnth as (p & _ & ->). cbn [id timestamp]. auto.
Qed.

Lemma ingest_Forall (P : Detection A -> Prop) (batch prev : list (Detection A)) :
  Forall P batch -> Forall P prev -> Forall P (ingest batch prev).
Proof.
  intros Hb Hp. unfold ingest. destruct (0 <? length batch); [|exact Hp].
  rewrite <- (firstn_skipn 20 (batch ++ prev)) in *.
  assert (H : Forall P (batch ++ prev)) by (apply Forall_app; auto).
  rewrite <- (firstn_skipn 20 (batch ++ prev)) in H.
  apply Forall_app in H. rewrite firstn_skipn. apply H.
Qed.

(** When the detection history is fed by the classifier's scores, every
    entry it ever holds has a score above 0.2 and a non-empty label, and
    it never holds more than 20 entries. *)
Theorem history_entries_are_confident
    (arrivals : list ((nat -> string * Z) * list A)) (s : State A) :
  Forall (fun d => num_lt lit_0_2 (score d) = true /\ label d <> ""%string)
         (detections s) ->
  length (detections s) <= 20 ->
  let s' := fold_left (fun s a => scoresArrived (fst a) (snd a) s) arrivals s in
  Forall (fun d => num_lt lit_0_2 (score d) = true /\ label d <> ""%string)
         (detections s') /\
  length (detections s') <= 20.
Proof.
  revert s. induction arrivals as [|[stamp scoresData] arrivals IH];
    intros s Hs Hlen; [cbn; auto|].
  cbn [fold_left fst snd]. apply IH.
  - unfold scoresArrived, inferenceDone. cbn [detections].
    apply ingest_Forall; [|exact Hs].
    eapply Forall_impl; [|apply topPredictions_origin].
    intros d (Hok & Hlabel & _). auto.
  - unfold scoresArrived, inferenceDone. cbn [detections].
    apply ingest_length, Hlen.
Qed.

End TopPredictions.

Section BestPredictions.

Local Open Scope R_scope.

Local Abbreviation higher :=
  (fun a b : Prediction.t R => Prediction.score b <= Prediction.score a).

Lemma insertPrediction_sorted (x : Prediction.t R) (l : list (Prediction.t R)) :
  StronglySorted higher l -> StronglySorted higher (insertPrediction x l).
Proof.
  induction 1 as [|y l Hl IH Hy].
  - repeat constructor.
  - cbn [insertPrediction].
    destruct (num_lt (num_sub (Prediction.score x) (Prediction.score y)) (of_nat 0))
      eqn:E.
    + apply lt_exact in E. change (Prediction.score x - Prediction.score y < 0) in E.
      constructor; [exact IH|].
      apply (Permutation_Forall (Permutation_sym (insertPrediction_perm x l))).
      constructor; [cbv beta; lra | exact Hy].
    + assert (Hge : ~ Prediction.score x - Prediction.score y < 0).
      { intros H. apply lt_exact in H.
        change (num_lt (num_sub (Prediction.score x) (Prediction.score y)) (of_nat 0)
                = true) in H. congruence. }
      constructor; [constructor; assumption|].
      constructor; [cbv beta; lra|].
      eapply Forall_impl; [|exact Hy]. intros z Hz. cbv beta in Hz. lra.
Qed.

Lemma predictions_sorted (names : list string) (scoresData : list R) :
  StronglySorted higher (predictions names scoresData).
Proof.
  unfold predictions. induction (namedScores names scoresData) as [|x l IH];
    [constructor|].
  cbn [fold_right]. apply insertPrediction_sorted, IH.
Qed.

Lemma StronglySorted_filter (T : Type) (rel : T -> T -> Prop) (f : T -> bool)
    (l : list T) :
  StronglySorted rel l -> StronglySorted rel (filter f l).
Proof.
  induction 1 as [|x l Hl IH Hx]; cbn [filter]; [constructor|].
  destruct (f x); [|exact IH]. constructor; [exact IH|].
  apply Forall_forall. intros y Hy. apply filter_In in Hy.
  rewrite Forall_forall in Hx. apply Hx, Hy.
Qed.

Lemma StronglySorted_split (T : Type) (rel : T -> T -> Prop) (l1 l2 : list T) :
  StronglySorted rel (l1 ++ l2) ->
  StronglySorted rel l1 /\ Forall (fun x => Forall (rel x) l2) l1.
Proof.
  induction l1 as [|x l1 IH]; cbn [app]; intros Hs.
  - split; constructor.
  - inversion Hs as [|? ? Hs' Hx]; subst.
    destruct (IH Hs') as [H1 Hcross]. apply Forall_app in Hx.
    split; constructor; try assumption; apply Hx.
Qed.

Lemma filter_partition_perm (T : Type) (f : T -> bool) (l : list T) :
  Permutation (filter f l ++ filter (fun x => negb (f x)) l) l.
Proof.
  induction l as [|x l IH]; [reflexivity|].
  cbn [filter]. destruct (f x); cbn [negb app].
  - constructor. exact IH.
  - rewrite <- Permutation_middle. constructor. exact IH.
Qed.

(** In exact arithmetic [predictions] is sorted by descending score, and
    the predictions kept for [topPredictions] are the best ones: what is
    left out either has a score of at most 0.2 or is left out because
    five predictions with scores at least as high were kept. *)
Theorem top_predictions_are_the_best (names : list string) (scoresData : list R) :
  let kept := confident names scoresData in
  StronglySorted (fun a b => Prediction.score b <= Prediction.score a)
                 (predictions names scoresData) /\
  StronglySorted (fun a b => Prediction.score b <= Prediction.score a) kept /\
  exists dropped,
    Permutation (kept ++ dropped) (namedScores names scoresData) /\
    Forall (fun p =>
              Prediction.score p <= 2 / 10 \/
              (length kept = 5%nat /\
               Forall (fun k => Prediction.score p <= Prediction.score k) kept))
           dropped.
Proof.
  intros kept. pose proof (predictions_sorted names scoresData) as Hsorted.
  split; [exact Hsorted|].
  set (f := fun p : Prediction.t R => num_lt lit_0_2 (Prediction.score p)).
  set (F := filter f (predictions names scoresData)).
  assert (HF : StronglySorted higher F) by (apply StronglySorted_filter, Hsorted).
  assert (Hkept : kept = firstn 5 F) by reflexivity.
  rewrite <- (firstn_skipn 5 F), <- Hkept in HF.
  destruct (StronglySorted_split _ _ _ _ HF) as [Hk Hcross].
  split; [exact Hk|].
  exists (skipn 5 F ++ filter (fun p => negb (f p)) (predictions names scoresData)).
  split.
  - rewrite app_assoc, Hkept, firstn_skipn.
    unfold F. rewrite filter_partition_perm. apply predictions_perm.
  - apply Forall_app. split.
    + apply Forall_forall. intros p Hp. right. split.
      * rewrite Hkept, length_firstn.
        assert (Hlen : (length (skipn 5 F) <> 0)%nat)
          by (destruct (skipn 5 F); [contradiction | discriminate]).
        rewrite length_skipn in Hlen. lia.
      * eapply Forall_impl; [|exact Hcross]. intros k Hkp. cbv beta in Hkp.
        rewrite Forall_forall in Hkp. apply (Hkp p Hp).
    + apply Forall_forall. intros p Hp. left. apply filter_In in Hp.
      destruct Hp as [_ Hneg]. unfold f in Hneg.
      destruct (Rle_or_lt (Prediction.score p) (2 / 10)) as [Hle|Hlt]; [exact Hle|].
      apply lt_exact in Hlt.
      change (num_lt lit_0_2 (Prediction.score p) = true) in Hlt.
      rewrite Hlt in Hneg. discriminate.
Qed.

End BestPredictions.

(** Three scores, one class name missing: the two scores above 0.2 are
    kept, highest first, and the missing name is made from the index. *)
Example top_predictions_example :
  map (fun d => (label d, score d))
      (topPredictions (fun i => (decimal i, Z.of_nat i))
                      ["Speech"%string; "Music"%string]
                      [0.25; 0.125; 0.5]%float)
  = [("Class 2"%string, 0.5%float); ("Speech"%string, 0.25%float)].
Proof. vm_compute. reflexivity. Qed.

Lemma history_entries_are_confident_witness :
  Forall (fun d => num_lt lit_0_2 (score d) = true /\ label d <> ""%string)
         (detections
            (scoresArrived (fun i => (decimal i, Z.of_nat i))
                           [0.25; 0.125; 0.5]%float Scenario.started)).
Proof.
  apply (history_entries_are_confident
           [(fun i => (decimal i, Z.of_nat i), [0.25; 0.125; 0.5]%float)]
           Scenario.started).
  - apply Forall_nil.
  - apply Nat.leb_le. reflexivity.
Defined.

(** ** The counts of the summary *)

Section MapFacts.

Context {V : Type}.

Lemma Map_get_set_same (m : list (string * V)) (k : string) (v : V) :
  Map_get (Map_set m k v) k = Some v.
Proof.
  induction m as [|[k0 v0] m IH]; cbn [Map_set Map_get].
  - rewrite String.eqb_refl. reflexivity.
  - destruct (String.eqb k0 k) eqn:E; cbn [Map_get]; rewrite E; auto.
Qed.

Lemma Map_get_set_other (m : list (string * V)) (k k' : string) (v : V) :
  k <> k' -> Map_get (Map_set m k v) k' = Map_get m k'.
Proof.
  intros Hne. induction m as [|[k0 v0] m IH]; cbn [Map_set Map_get].
  - apply String.eqb_neq in Hne. rewrite Hne. reflexivity.
  - destruct (String.eqb k0 k) eqn:E; cbn [Map_get].
    + apply String.eqb_eq in E. subst k0.
      apply String.eqb_neq in Hne. rewrite Hne. reflexivity.
    + rewrite IH. reflexivity.
Qed.

Lemma Map_set_keys (m : list (string * V)) (k k' : string) (v : V) :
  In k' (map fst (Map_set m k v)) <-> k' = k \/ In k' (map fst m).
Proof.
  induction m as [|[k0 v0] m IH]; cbn [Map_set map fst In].
  - intuition.
  - destruct (String.eqb k0 k) eqn:E; cbn [map fst In].
    + apply String.eqb_eq in E. subst k0. intuition.
    + rewrite IH. intuition.
Qed.

Lemma Map_set_NoDup (m : list (string * V)) (k : string) (v : V) :
  NoDup (map fst m) -> NoDup (map fst (Map_set m k v)).
Proof.
  induction m as [|[k0 v0] m IH]; cbn [Map_set map fst]; intros Hnd.
  - constructor; [intros [] | constructor].
  - inversion Hnd as [|? ? Hnotin Hnd']; subst.
    destruct (String.eqb k0 k) eqn:E; cbn [map fst].
    + constructor; assumption.
    + constructor; [|apply IH, Hnd'].
      intros Hin. apply Map_set_keys in Hin. destruct Hin as [Heq|Hin].
      * apply String.eqb_neq in E. congruence.
      * contradiction.
Qed.

Lemma Map_get_In (m : list (string * V)) (k : string) (v : V) :
  NoDup (map fst m) -> In (k, v) m -> Map_get m k = Some v.
Proof.
  induction m as [|[k0 v0] m IH]; cbn [map fst Map_get]; intros Hnd Hin;
    [contradiction|].
  inversion Hnd as [|? ? Hnotin Hnd']; subst.
  destruct Hin as [Heq|Hin].
  - inversion Heq; subst. rewrite String.eqb_refl. reflexivity.
  - destruct (String.eqb k0 k) eqn:E; [|apply IH; assumption].
    apply String.eqb_eq in E. subst k0. exfalso. apply Hnotin.
    apply (in_map fst) in Hin. exact Hin.
Qed.

Lemma Map_get_None (m : list (string * V)) (k : string) :
  Map_get m k = None <-> ~ In k (map fst m).
Proof.
  induction m as [|[k0 v0] m IH]; cbn [map fst Map_get In]; [intuition|].
  destruct (String.eqb k0 k) eqn:E.
  - apply String.eqb_eq in E. split; [discriminate | intuition].
  - apply String.eqb_neq in E. rewrite IH. intuition.
Qed.

Lemma Map_set_same_keys (W : Type) (m : list (string * V)) :
  forall (m' : list (string * W)) (k : string) (v : V) (w : W),
    map fst m = map fst m' ->
    map fst (Map_set m k v) = map fst (Map_set m' k w).
Proof.
  induction m as [|[k0 v0] m IH]; intros [|[k1 w1] m'] k v w Heq;
    try discriminate; [reflexivity|].
  cbn [map fst] in Heq. inversion Heq; subst.
  cbn [Map_set]. destruct (String.eqb k1 k); cbn [map fst]; f_equal; auto.
Qed.

End MapFacts.

Section CountFacts.

Context {A : Type}.

Local Abbreviation count_step :=
  (fun (m : list (string * nat)) (d : Detection A) =>
     let count := match Map_get m (label d) with Some c => c | None => 0 end in
     Map_set m (label d) (count + 1)).

Local Abbreviation score_step :=
  (fun (m : list (string * list A)) (d : Detection A) =>
     let scores := match Map_get m (label d) with Some l => l | None => [] end in
     Map_set m (label d) (scores ++ [score d])).

Local Abbreviation count_of m name :=
  (match Map_get m name with Some c => c | None => 0 end).

Local Abbreviation scores_of m name :=
  (match Map_get m name with Some l => l | None => @nil A end).

Lemma counts_keys (ds : list (Detection A)) : forall m : list (string * nat),
  NoDup (map fst m) ->
  NoDup (map fst (fold_left count_step ds m)) /\
  forall name,
    In name (map fst (fold_left count_step ds m))
    <-> In name (map fst m) \/ In name (map (@label A) ds).
Proof.
  induction ds as [|d ds IH]; intros m Hnd; cbn [fold_left map In].
  - split; [exact Hnd | intuition].
  - destruct (IH (count_step m d) (Map_set_NoDup _ _ _ Hnd)) as [Hnd' Hkeys].
    split; [exact Hnd'|]. intros name. rewrite Hkeys, Map_set_keys.
    intuition.
Qed.

Lemma counts_values (ds : list (Detection A)) :
  forall (m : list (string * nat)) (name : string),
    count_of (fold_left count_step ds m) name
    = count_of m name + occurrences name ds.
Proof.
  unfold occurrences.
  induction ds as [|d ds IH]; intros m name; cbn [fold_left filter length];
    [lia|].
  rewrite IH. destruct (String.eqb (label d) name) eqn:E; cbn [length].
  - apply String.eqb_eq in E. subst name. rewrite Map_get_set_same. lia.
  - apply String.eqb_neq in E. rewrite Map_get_set_other by exact E. lia.
Qed.

Lemma counts_sum (ds : list (Detection A)) : forall m : list (string * nat),
  NoDup (map fst m) ->
  list_sum (map snd (fold_left count_step ds m))
  = list_sum (map snd m) + length ds.
Proof.
  induction ds as [|d ds IH]; intros m Hnd; cbn [fold_left length]; [lia|].
  rewrite IH by (apply Map_set_NoDup, Hnd).
  assert (Hstep : forall (l : list (string * nat)) k,
             list_sum (map snd (Map_set l k (count_of l k + 1)))
             = list_sum (map snd l) + 1).
  { induction l as [|[k0 c0] l IHl]; intros k; cbn [Map_set Map_get].
    - simpl. lia.
    - destruct (String.eqb k0 k); cbn [map snd];
        repeat match goal with
               | |- context [list_sum (?a :: ?X)] =>
                   change (list_sum (a :: X)) with (a + list_sum X)
               end;
        rewrite ?IHl; lia. }
  rewrite Hstep. lia.
Qed.

Lemma scores_values (ds : list (Detection A)) :
  forall (m : list (string * list A)) (name : string),
    scores_of (fold_left score_step ds m) name
    = scores_of m name
        ++ map (@score A) (filter (fun d => String.eqb (label d) name) ds).
Proof.
  induction ds as [|d ds IH]; intros m name; cbn [fold_left filter map];
    [rewrite app_nil_r; reflexivity|].
  rewrite IH. destruct (String.eqb (label d) name) eqn:E; cbn [map].
  - apply String.eqb_eq in E. subst name. rewrite Map_get_set_same.
    rewrite <- app_assoc. reflexivity.
  - apply String.eqb_neq in E. rewrite Map_get_set_other by exact E. reflexivity.
Qed.

Lemma scores_keys (ds : list (Detection A)) :
  forall (m : list (string * nat)) (m' : list (string * list A)),
    map fst m = map fst m' ->
    map fst (fold_left count_step ds m) = map fst (fold_left score_step ds m').
Proof.
  induction ds as [|d ds IH]; intros m m' Heq; cbn [fold_left]; [exact Heq|].
  apply IH. apply Map_set_same_keys, Heq.
Qed.

Lemma soundCounts_keys (ds : list (Detection A)) :
  NoDup (map fst (soundCounts ds)) /\
  forall name, In name (map fst (soundCounts ds)) <-> In name (map (@label A) ds).
Proof.
  unfold soundCounts.
  destruct (counts_keys ds [] (NoDup_nil _)) as [Hnd Hkeys].
  split; [exact Hnd|]. intros name. rewrite Hkeys. cbn [map In]. intuition.
Qed.

Lemma soundCounts_entries (ds : list (Detection A)) :
  Forall (fun e => snd e = occurrences (fst e) ds /\ 1 <= snd e) (soundCounts ds).
Proof.
  destruct (soundCounts_keys ds) as [Hnd Hkeys].
  apply Forall_forall. intros [name c] Hin. cbn [fst snd].
  pose proof (counts_values ds [] name) as Hc.
  change (count_of (soundCounts ds) name = count_of [] name + occurrences name ds)
    in Hc.
  rewrite (Map_get_In _ _ _ Hnd Hin) in Hc. change (c = 0 + occurrences name ds) in Hc.
  split; [lia|].
  assert (Hl : In name (map (@label A) ds))
    by (apply Hkeys; apply (in_map fst) in Hin; exact Hin).
  apply in_map_iff in Hl. destruct Hl as (d & Hd & Hind).
  assert (Hocc : In d (filter (fun d0 => String.eqb (label d0) name) ds))
    by (apply filter_In; split; [exact Hind | apply String.eqb_eq, Hd]).
  unfold occurrences in Hc.
  destruct (filter (fun d0 => String.eqb (label d0) name) ds);
    [contradiction | cbn [length] in Hc; lia].
Qed.

Lemma soundCounts_total (ds : list (Detection A)) :
  list_sum (map snd (soundCounts ds)) = length ds.
Proof.
  unfold soundCounts. rewrite counts_sum by apply NoDup_nil. reflexivity.
Qed.

Lemma soundCounts_empty (ds : list (Detection A)) :
  soundCounts ds = [] <-> ds = [].
Proof.
  pose proof (soundCounts_total ds) as Hsum. split.
  - intros Hemp. rewrite Hemp in Hsum. cbn in Hsum.
    destruct ds; [reflexivity | cbn [length] in Hsum; lia].
  - intros ->. reflexivity.
Qed.

(** [soundCounts] has one entry per label that occurs, each with the
    number of detections that carry the label (at least 1); the counts
    add up to the number of detections; it is empty only for no
    detections. *)
Theorem sound_counts_count (ds : list (Detection A)) :
  NoDup (map fst (soundCounts ds)) /\
  (forall name, In name (map fst (soundCounts ds)) <-> In name (map (@label A) ds)) /\
  Forall (fun e => snd e = occurrences (fst e) ds /\ 1 <= snd e) (soundCounts ds) /\
  list_sum (map snd (soundCounts ds)) = length ds /\
  (soundCounts ds = [] <-> ds = []).
Proof.
  destruct (soundCounts_keys ds) as [Hnd Hkeys].
  split; [exact Hnd|]. split; [exact Hkeys|].
  split; [apply soundCounts_entries|].
  split; [apply soundCounts_total | apply soundCounts_empty].
Qed.

(** [soundScores] has the keys of [soundCounts], in the same order; under
    each label it holds the scores of the detections with that label, in
    their order, so as many scores as the count and never none. *)
Theorem sound_scores_collect (ds : list (Detection A)) :
  map fst (soundScores ds) = map fst (soundCounts ds) /\
  Forall (fun e =>
            snd e = map (@score A)
                        (filter (fun d => String.eqb (label d) (fst e)) ds) /\
            Map_get (soundCounts ds) (fst e) = Some (length (snd e)) /\
            1 <= length (snd e))
         (soundScores ds).
Proof.
  unfold soundScores, soundCounts.
  assert (Hkeys : map fst (fold_left score_step ds [])
                  = map fst (fold_left count_step ds []))
    by (symmetry; apply scores_keys; reflexivity).
  split; [exact Hkeys|].
  destruct (counts_keys ds [] (NoDup_nil _)) as [Hnd Hk].
  assert (Hnd' : NoDup (map fst (fold_left score_step ds [])))
    by (rewrite Hkeys; exact Hnd).
  apply Forall_forall. intros [name scores] Hin. cbn [fst snd].
  pose proof (scores_values ds [] name) as Hs.
  rewrite (Map_get_In _ _ _ Hnd' Hin) in Hs.
  change (scores = map (@score A)
                       (filter (fun d => String.eqb (label d) name) ds)) in Hs.
  assert (Hkey : In name (map fst (fold_left count_step ds [])))
    by (rewrite <- Hkeys; apply (in_map fst) in Hin; exact Hin).
  pose proof (counts_values ds [] name) as Hc.
  destruct (Map_get (fold_left count_step ds []) name) as [c|] eqn:Hget;
    [|apply Map_get_None in Hget; contradiction].
  change (c = 0 + occurrences name ds) in Hc.
  assert (Hlen : length scores = c).
  { rewrite Hs, length_map. unfold occurrences in Hc. lia. }
  split; [exact Hs|]. split; [rewrite Hlen; reflexivity|].
  rewrite Hlen.
  assert (Hl : In name (map (@label A) ds)).
  { apply Hk in Hkey. destruct Hkey as [[]|Hkey]. exact Hkey. }
  apply in_map_iff in Hl. destruct Hl as (d & Hd & Hind).
  assert (Hocc : In d (filter (fun d0 => String.eqb (label d0) name) ds))
    by (apply filter_In; split; [exact Hind | apply String.eqb_eq, Hd]).
  unfold occurrences in Hc.
  destruct (filter (fun d0 => String.eqb (label d0) name) ds);
    [contradiction | cbn [length] in Hc; lia].
Qed.

Lemma insertSound_perm (x : string * nat) (l : list (string * nat)) :
  Permutation (insertSound x l) (x :: l).
Proof.
  induction l as [|y l IH]; [reflexivity|].
  cbn [insertSound]. destruct (snd x <? snd y); [|reflexivity].
  rewrite IH. apply perm_swap.
Qed.

Lemma insertSound_sorted (x : string * nat) (l : list (string * nat)) :
  StronglySorted (fun a b => snd b <= snd a) l ->
  StronglySorted (fun a b => snd b <= snd a) (insertSound x l).
Proof.
  induction 1 as [|y l Hl IH Hy].
  - apply SSorted_cons; [apply SSorted_nil | apply Forall_nil].
  - cbn [insertSound]. destruct (Nat.ltb_spec (snd x) (snd y)) as [Hlt|Hge].
    + apply SSorted_cons; [exact IH|].
      apply (Permutation_Forall (Permutation_sym (insertSound_perm x l))).
      apply Forall_cons; [lia | exact Hy].
    + apply SSorted_cons; [apply SSorted_cons; assumption|].
      apply Forall_cons; [exact Hge|].
      eapply Forall_impl; [|exact Hy]. intros z Hz. cbv beta in Hz. lia.
Qed.

Lemma sortedSounds_perm (ds : list (Detection A)) :
  Permutation (sortedSounds ds) (soundCounts ds).
Proof.
  unfold sortedSounds. induction (soundCounts ds) as [|x l IH]; [reflexivity|].
  cbn [fold_right]. rewrite insertSound_perm, IH. reflexivity.
Qed.

Lemma sortedSounds_sorted (ds : list (Detection A)) :
  StronglySorted (fun a b => snd b <= snd a) (sortedSounds ds).
Proof.
  unfold sortedSounds. induction (soundCounts ds) as [|x l IH];
    [apply SSorted_nil|].
  cbn [fold_right]. apply insertSound_sorted, IH.
Qed.

(** [sortedSounds] lists the entries of [soundCounts] by descending
    count; the summary shows at most ten of them; when there are
    detections the first one exists and no label occurs more often than
    it does. *)
Theorem sorted_sounds_ranked (ds : list (Detection A)) :
  Permutation (sortedSounds ds) (soundCounts ds) /\
  StronglySorted (fun a b => snd b <= snd a) (sortedSounds ds) /\
  length (topSounds ds) <= 10 /\
  match topSounds ds with
  | [] => ds = []
  | top :: _ =>
      ds <> [] /\
      snd top = occurrences (fst top) ds /\
      forall name, occurrences name ds <= snd top
  end.
Proof.
  pose proof (sortedSounds_perm ds) as Hperm.
  pose proof (sortedSounds_sorted ds) as Hsorted.
  split; [exact Hperm|]. split; [exact Hsorted|].
  split; [unfold topSounds; rewrite length_firstn; lia|].
  unfold topSounds. destruct (sortedSounds ds) as [|top rest] eqn:E;
    cbn [firstn].
  - apply soundCounts_empty. apply Permutation_nil. exact Hperm.
  - assert (Hne : ds <> []).
    { intros ->. apply Permutation_sym, Permutation_nil in Hperm. discriminate. }
    pose proof (soundCounts_entries ds) as Hent. rewrite Forall_forall in Hent.
    assert (Htop : In top (soundCounts ds))
      by (apply (Permutation_in _ Hperm); left; reflexivity).
    split; [exact Hne|]. split; [apply (Hent top Htop)|].
    intros name. inversion Hsorted as [|? ? _ Hall]; subst.
    destruct (soundCounts_keys ds) as [Hnd Hkeys].
    destruct (in_dec string_dec name (map (@label A) ds)) as [Hin|Hnot].
    + apply Hkeys in Hin. apply in_map_iff in Hin.
      destruct Hin as ([k c] & Hk & Hin). cbn [fst] in Hk. subst k.
      destruct (Hent _ Hin) as [Hc _]. cbn [fst snd] in Hc. rewrite <- Hc.
      apply (Permutation_in _ (Permutation_sym Hperm)) in Hin.
      destruct Hin as [Heq|Hin]; [rewrite Heq; cbn [snd]; lia|].
      rewrite Forall_forall in Hall. apply (Hall _ Hin).
    + assert (Hz : occurrences name ds = 0).
      { unfold occurrences.
        destruct (filter (fun d => String.eqb (label d) name) ds) as [|d l] eqn:F;
          [reflexivity|].
        exfalso. apply Hnot.
        assert (Hd : In d (filter (fun d => String.eqb (label d) name) ds))
          by (rewrite F; left; reflexivity).
        apply filter_In in Hd. destruct Hd as [Hd Hl].
        apply String.eqb_eq in Hl. rewrite <- Hl. apply in_map, Hd. }
      lia.
Qed.

End CountFacts.

(** ** The class map *)

Section ClassMap.

Import Js.

Lemma split_nonempty (sep : N) (s : list N) : split sep s <> [].
Proof.
  destruct s as [|c rest]; cbn [split]; [discriminate|].
  destruct (N.eqb c sep); [discriminate|].
  destruct (split sep rest); discriminate.
Qed.

Lemma split_no_sep (sep : N) (s : list N) :
  Forall (fun piece => ~ In sep piece) (split sep s).
Proof.
  induction s as [|c rest IH]; cbn [split].
  - apply Forall_cons; [intros [] | apply Forall_nil].
  - destruct (N.eqb_spec c sep) as [Heq|Hne].
    + apply Forall_cons; [intros [] | exact IH].
    + destruct (split sep rest) as [|piece pieces].
      * apply Forall_cons; [|apply Forall_nil].
        intros [H|[]]. congruence.
      * inversion IH as [|? ? Hp Hps]; subst.
        apply Forall_cons; [|exact Hps].
        intros [H|H]; [congruence | contradiction].
Qed.

Lemma join_split (sep : N) (s : list N) : join sep (split sep s) = s.
Proof.
  induction s as [|c rest IH]; [reflexivity|]. cbn [split].
  pose proof (split_nonempty sep rest) as Hne.
  destruct (N.eqb_spec c sep) as [Heq|Hne'].
  - subst c. cbn [join]. destruct (split sep rest) as [|p ps]; [congruence|].
    rewrite IH. reflexivity.
  - destruct (split sep rest) as [|p ps]; [congruence|].
    destruct ps as [|p' ps]; cbn [join] in *; rewrite <- IH; reflexivity.
Qed.

Lemma trimStart_head (s : list N) (c : N) :
  hd_error (trimStart s) = Some c -> isWhiteSpace c = false.
Proof.
  induction s as [|x rest IH]; cbn [trimStart]; [discriminate|].
  destruct (isWhiteSpace x) eqn:E; [exact IH|].
  cbn [hd_error]. intros H. inversion H; subst. exact E.
Qed.

Lemma trimStart_incl (s : list N) (c : N) : In c (trimStart s) -> In c s.
Proof.
  induction s as [|x rest IH]; cbn [trimStart]; [auto|].
  destruct (isWhiteSpace x); [right; auto | auto].
Qed.

Lemma trim_incl (s : list N) (c : N) : In c (trim s) -> In c s.
Proof.
  unfold trim. intros H. apply in_rev in H. apply trimStart_incl in H.
  apply in_rev in H. apply trimStart_incl in H. exact H.
Qed.

Lemma trimStart_keeps_last (xs : list N) (c : N) :
  isWhiteSpace c = false -> exists l, trimStart (xs ++ [c]) = l ++ [c].
Proof.
  intros Hc. induction xs as [|x xs IH]; cbn [app trimStart].
  - rewrite Hc. exists []. reflexivity.
  - destruct (isWhiteSpace x); [exact IH|]. exists (x :: xs). reflexivity.
Qed.

Lemma trim_first (s : list N) (c : N) :
  hd_error (trim s) = Some c -> isWhiteSpace c = false.
Proof.
  unfold trim. destruct (trimStart s) as [|x rest] eqn:E.
  - cbn. discriminate.
  - assert (Hx : isWhiteSpace x = false)
      by (apply (trimStart_head s); rewrite E; reflexivity).
    cbn [rev]. destruct (trimStart_keeps_last (rev rest) x Hx) as [l ->].
    rewrite rev_app_distr. cbn [rev app hd_error].
    intros H. inversion H; subst. exact Hx.
Qed.

Lemma trim_last (s : list N) (c : N) :
  hd_error (rev (trim s)) = Some c -> isWhiteSpace c = false.
Proof. unfold trim. rewrite rev_involutive. apply trimStart_head. Qed.

Lemma nameOfLine_clean (line : list N) :
  ~ In newline line ->
  let name := nameOfLine line in
  name <> [] /\ ~ In comma name /\ ~ In quote name /\ ~ In newline name /\
  (forall c, hd_error name = Some c -> isWhiteSpace c = false) /\
  (forall c, hd_error (rev name) = Some c -> isWhiteSpace c = false).
Proof.
  intros Hline.
  assert (HU : Unknown <> [] /\ ~ In comma Unknown /\ ~ In quote Unknown /\
               ~ In newline Unknown /\
               (forall c, hd_error Unknown = Some c -> isWhiteSpace c = false) /\
               (forall c, hd_error (rev Unknown) = Some c -> isWhiteSpace c = false)).
  { split; [discriminate|].
    split; [intros H; cbn in H; intuition discriminate|].
    split; [intros H; cbn in H; intuition discriminate|].
    split; [intros H; cbn in H; intuition discriminate|].
    split; intros c H; cbn in H; inversion H; subst; reflexivity. }
  unfold nameOfLine.
  destruct (nth_error (split comma line) 2) as [field|] eqn:Hnth; [|exact HU].
  destruct (trim (removeQuotes field)) as [|c0 name0] eqn:Htrim; [exact HU|].
  rewrite <- Htrim.
  assert (Hfield : In field (split comma line)) by (eapply nth_error_In; eauto).
  pose proof (split_no_sep comma line) as Hsep. rewrite Forall_forall in Hsep.
  assert (Hin : forall c, In c (trim (removeQuotes field)) ->
                          In c field /\ c <> quote).
  { intros c Hc. apply trim_incl in Hc. unfold removeQuotes in Hc.
    apply filter_In in Hc. destruct Hc as [Hc Hq]. split; [exact Hc|].
    intros ->. rewrite N.eqb_refl in Hq. discriminate. }
  assert (Hfl : forall c, In c field -> In c line).
  { intros c Hc. rewrite <- (join_split comma line).
    clear - Hc Hfield. revert Hfield.
    induction (split comma line) as [|p ps IH]; [intros []|].
    intros [->|Hp].
    - destruct ps; cbn [join]; [exact Hc | apply in_or_app; left; exact Hc].
    - destruct ps as [|p' ps]; [destruct Hp|].
      cbn [join]. apply in_or_app. right. right. apply IH, Hp. }
  split; [rewrite Htrim; discriminate|].
  split; [intros H; apply Hin in H; destruct H as [H _]; apply (Hsep _ Hfield H)|].
  split; [intros H; apply Hin in H; destruct H as [_ H]; congruence|].
  split; [intros H; apply Hin in H; destruct H as [H _]; apply Hline, Hfl, H|].
  split; [apply trim_first | apply trim_last].
Qed.

(** Every class name that [loadModel] reads from the class map is
    non-empty, contains no comma, no double quote and no line break, and
    neither starts nor ends with white space; a class map without a line
    break (a header only) gives no name at all. *)
Theorem class_names_clean (csvText : list N) :
  Forall (fun name =>
            name <> [] /\ ~ In comma name /\ ~ In quote name /\
            ~ In newline name /\
            (forall c, hd_error name = Some c -> isWhiteSpace c = false) /\
            (forall c, hd_error (rev name) = Some c -> isWhiteSpace c = false))
         (parseClassNames csvText) /\
  (~ In newline csvText -> parseClassNames csvText = []).
Proof.
  split.
  - unfold parseClassNames. apply Forall_forall. intros name Hname.
    apply in_map_iff in Hname. destruct Hname as (line & <- & Hline).
    apply filter_In in Hline. destruct Hline as [Hline _].
    apply nameOfLine_clean.
    pose proof (split_no_sep newline csvText) as Hsep.
    rewrite Forall_forall in Hsep. apply Hsep.
    destruct (split newline csvText); [destruct Hline | right; exact Hline].
  - intros Hno. unfold parseClassNames.
    assert (Hone : split newline csvText = [csvText]).
    { clear - Hno. induction csvText as [|c rest IH]; [reflexivity|].
      cbn [split]. destruct (N.eqb_spec c newline) as [->|Hne].
      - exfalso. apply Hno. left. reflexivity.
      - rewrite IH; [reflexivity|]. intros H. apply Hno. right. exact H. }
    rewrite Hone. reflexivity.
Qed.

End ClassMap.

(** A class map of the kind the application fetches: a header, two
    classes (the second display name holds a comma) and a blank line.
    The second name is cut at its comma. *)
Example class_map_example :
  Js.parseClassNames
    (Js.ofString "index,mid,display_name" ++ [Js.newline]
     ++ Js.ofString "0,/m/09x0r," ++ [Js.quote] ++ Js.ofString "Speech"
     ++ [Js.quote; Js.newline]
     ++ Js.ofString "1,/m/05zppz," ++ [Js.quote]
     ++ Js.ofString "Male speech, man speaking" ++ [Js.quote; Js.newline]
     ++ Js.ofString "  " ++ [Js.newline])
  = [Js.ofString "Speech"; Js.ofString "Male speech"].
Proof. vm_compute. reflexivity. Qed.

Lemma class_names_clean_witness :
  Js.parseClassNames (Js.ofString "index,mid,display_name") = [].
Proof.
  apply (class_names_clean (Js.ofString "index,mid,display_name")).
  vm_compute. intuition discriminate.
Defined.

(** ** Noise levels *)

Section LevelFacts.

Lemma falsy_float (v : float) :
  falsy v = true ->
  v = PrimFloat.zero \/ v = PrimFloat.neg_zero \/ v = PrimFloat.nan.
Proof.
  change (falsy v) with (PrimFloat.is_zero v || PrimFloat.is_nan v).
  intros Hf.
  destruct (PrimFloat.is_nan v) eqn:Hnan.
  - right. right. apply Prim2SF_inj. unfold Prim2SF. rewrite Hnan. reflexivity.
  - rewrite orb_false_r in Hf.
    assert (Hsf : Prim2SF v = S754_zero (PrimFloat.get_sign v))
      by (unfold Prim2SF; rewrite Hnan, Hf; reflexivity).
    destruct (PrimFloat.get_sign v).
    + right. left. apply Prim2SF_inj. rewrite Hsf. reflexivity.
    + left. apply Prim2SF_inj. rewrite Hsf. reflexivity.
Qed.

(** For every double the three places that name a noise level agree:
    the level beside the live meter, shown while listening for a history
    that ends with the volume, the 'Environment' of the summary and the
    level the narrative speaks of are the same, zero and NaN included.
    The meter shows no level at all when the history is empty or the
    status is not 'listening'. *)
Theorem noise_levels_agree (status : Status) (volumeHistory : list float)
    (avg silence : float) :
  meterLevel Listening (volumeHistory ++ [avg]) = Some (noiseLevel avg) /\
  levelOf (acousticEnvironment avg silence) = noiseLevel avg /\
  meterLevel (A := float) status [] = None /\
  (status <> Listening -> meterLevel status volumeHistory = None) /\
  (meterLevel status volumeHistory <> None ->
   status = Listening /\ volumeHistory <> []).
Proof.
  split; [|split; [|split; [|split]]].
  - unfold meterLevel. cbn [Status_eqb]. rewrite rev_app_distr. cbn [rev app].
    destruct (falsy avg) eqn:Hf; [|reflexivity].
    destruct (falsy_float avg Hf) as [-> | [-> | ->]]; vm_compute; reflexivity.
  - unfold acousticEnvironment, noiseLevel.
    destruct (num_lt lit_0_15 avg); [reflexivity|].
    destruct (num_lt lit_0_1 avg); [reflexivity|].
    destruct (num_lt lit_0_05 avg); [reflexivity|].
    destruct (num_lt (of_nat 50) silence); reflexivity.
  - unfold meterLevel. destruct (Status_eqb status Listening); reflexivity.
  - intros Hs. unfold meterLevel.
    destruct status; try reflexivity. congruence.
  - unfold meterLevel. intros Hshown.
    destruct status; cbn [Status_eqb] in Hshown; try congruence.
    split; [reflexivity|]. intros ->. apply Hshown. reflexivity.
Qed.

End LevelFacts.

(** While listening, after a volume of 0.12: the meter says 'Loud'; on
    the idle screen it shows no level. *)
Lemma noise_levels_agree_witness :
  meterLevel Listening [0.01%float; 0.12%float] = Some Loud /\
  meterLevel Idle [0.01%float; 0.12%float] = None.
Proof.
  destruct (noise_levels_agree Idle [0.01%float] 0.12%float 0%float)
    as (Hmeter & _ & _ & _ & _).
  destruct (noise_levels_agree Idle [0.01%float; 0.12%float] 0.12%float 0%float)
    as (_ & _ & _ & Hidle & _).
  split; [exact Hmeter | apply Hidle; discriminate].
Defined.

(** ** The bars of the spectrum, in exact arithmetic *)

Section BarFacts.

Local Open Scope R_scope.

Lemma maxValue_bounds (spectrumData : list R) :
  1 <= maxValue spectrumData /\
  Forall (fun v => v <= maxValue spectrumData) spectrumData.
Proof.
  unfold maxValue.
  destruct (spectrumData ++ [of_nat 1]) as [|first rest] eqn:E.
  - destruct spectrumData; discriminate.
  - destruct (Math_max_spec rest first) as [_ Hall]. rewrite <- E in Hall.
    apply Forall_app in Hall. destruct Hall as [Hdata Hone].
    inversion Hone as [|? ? H1 _]; subst.
    change (of_nat 1) with (INR 1) in H1. simpl in H1. split; assumption.
Qed.

Lemma log_position (f : R) :
  100 <= f < 10000 ->
  0 <= (ln f / ln 10 - ln 100 / ln 10) / (ln 10000 / ln 10 - ln 100 / ln 10) < 1.
Proof.
  intros [Hlo Hhi].
  assert (H10 : 0 < ln 10) by (rewrite <- ln_1; apply ln_increasing; lra).
  assert (Ha : ln 100 <= ln f).
  { destruct (Rle_lt_or_eq_dec 100 f Hlo) as [Hlt|Heq].
    - left. apply ln_increasing; lra.
    - right. rewrite Heq. reflexivity. }
  assert (Hb : ln f < ln 10000) by (apply ln_increasing; lra).
  assert (Hinv : 0 < / ln 10) by (apply Rinv_0_lt_compat, H10).
  set (a := ln 100 / ln 10). set (b := ln 10000 / ln 10). set (c := ln f / ln 10).
  assert (Hac : a <= c) by (unfold a, c, Rdiv; apply Rmult_le_compat_r; lra).
  assert (Hcb : c < b) by (unfold b, c, Rdiv; apply Rmult_lt_compat_r; lra).
  assert (Hd : 0 < b - a) by lra.
  split.
  - apply Rmult_le_pos; [lra | left; apply Rinv_0_lt_compat, Hd].
  - apply (Rmult_lt_reg_r (b - a)); [exact Hd|].
    unfold Rdiv. rewrite Rmult_assoc, Rinv_l by lra. lra.
Qed.

(** In exact arithmetic, for a spectrum of non-negative values: a bin is
    drawn exactly when its value is positive and its frequency
    [index / length * 8000] is at least 100 Hz, that is when
    [length <= 80 * index]; a drawn bar starts inside the plot
    horizontally, stands on the base line, is between 2 and 205 pixels
    high and at least 2 pixels wide. *)
Theorem bars_inside_plot (spectrumData : list R) (index : nat) (value : R) :
  nth_error spectrumData index = Some value ->
  Forall (fun v => 0 <= v) spectrumData ->
  match barOf spectrumData index value with
  | Some b =>
      0 < value /\ (length spectrumData <= 80 * index)%nat /\
      45 <= bar_x b < 600 /\
      0 <= bar_y b /\ bar_y b + barHeight b = 205 /\
      2 <= barHeight b <= 205 /\
      2 <= barWidth b
  | None => value = 0 \/ (80 * index < length spectrumData)%nat
  end.
Proof.
  intros Hnth Hpos.
  assert (Hidx : (index < length spectrumData)%nat)
    by (apply nth_error_Some; congruence).
  assert (Hin : In value spectrumData) by (eapply nth_error_In; eauto).
  assert (Hv0 : 0 <= value) by (rewrite Forall_forall in Hpos; apply Hpos, Hin).
  destruct (maxValue_bounds spectrumData) as [Hmax1 Hmax].
  assert (Hvm : value <= maxValue spectrumData)
    by (rewrite Forall_forall in Hmax; apply Hmax, Hin).
  assert (Hlen : 0 < INR (length spectrumData)) by (apply lt_0_INR; lia).
  assert (Hi0 : 0 <= INR index) by apply pos_INR.
  assert (Hil : INR index < INR (length spectrumData)) by (apply lt_INR, Hidx).
  unfold barOf.
  change (@drawHeight R R_Number) with (INR 230 - INR 25).
  change (@drawWidth R R_Number) with (INR 600 - INR 45).
  change (@leftMargin R R_Number) with (INR 45).
  change (@lit_1_5 R R_Drawing) with (3 / 2).
  change (@Math_log10 R R_Drawing) with (fun x => ln x / ln 10).
  change (@of_nat R R_Number) with INR.
  change (@num_lt R R_Number) with Exact.lt.
  change (@num_mul R R_Number) with Rmult.
  change (@num_div R R_Number) with Rdiv.
  change (@num_sub R R_Number) with Rminus.
  change (@num_add R R_Number) with Rplus.
  unfold Math_min, Math_max. cbn [fold_left].
  change (@Math_min2 R R_Number) with Rmin.
  change (@Math_max2 R R_Number) with Rmax.
  cbv beta.
  replace (INR 230) with 230 by (rewrite INR_IZR_INZ; reflexivity).
  replace (INR 25) with 25 by (rewrite INR_IZR_INZ; reflexivity).
  replace (INR 600) with 600 by (rewrite INR_IZR_INZ; reflexivity).
  replace (INR 45) with 45 by (rewrite INR_IZR_INZ; reflexivity).
  replace (INR 100) with 100 by (rewrite INR_IZR_INZ; reflexivity).
  replace (INR 2) with 2 by (rewrite INR_IZR_INZ; reflexivity).
  replace (INR 0) with 0 by reflexivity.
  replace (INR (Z.to_nat 10000)) with 10000 by (rewrite INR_IZR_INZ; reflexivity).
  replace (INR (Z.to_nat 8000)) with 8000 by (rewrite INR_IZR_INZ; reflexivity).
  set (freq := INR index / INR (length spectrumData) * 8000).
  assert (Hratio : 0 <= INR index / INR (length spectrumData) < 1).
  { split.
    - apply Rmult_le_pos; [exact Hi0 | left; apply Rinv_0_lt_compat, Hlen].
    - apply (Rmult_lt_reg_r (INR (length spectrumData))); [exact Hlen|].
      unfold Rdiv. rewrite Rmult_assoc, Rinv_l by lra. lra. }
  assert (Hfreq : freq * INR (length spectrumData) = 8000 * INR index).
  { unfold freq, Rdiv. field. lra. }
  unfold Exact.lt at 1. destruct (Rlt_dec freq 100) as [Hlow|Hhigh].
  - (* below 100 Hz *)
    right. apply INR_lt. rewrite mult_INR.
    replace (INR 80) with 80 by (rewrite INR_IZR_INZ; reflexivity).
    nra.
  - assert (Hlenidx : (length spectrumData <= 80 * index)%nat).
    { apply INR_le. rewrite mult_INR.
      replace (INR 80) with 80 by (rewrite INR_IZR_INZ; reflexivity).
      nra. }
    assert (Hf : 100 <= freq < 10000) by (unfold freq in *; nra).
    replace (Rmin freq 10000) with freq by (rewrite Rmin_left; lra).
    pose proof (log_position freq Hf) as Hposn.
    set (pos := (ln freq / ln 10 - ln 100 / ln 10)
                / (ln 10000 / ln 10 - ln 100 / ln 10)) in *.
    set (nv := value / maxValue spectrumData).
    assert (Hnv : 0 <= nv <= 1).
    { unfold nv. split.
      - apply Rmult_le_pos; [exact Hv0 | left; apply Rinv_0_lt_compat; lra].
      - apply (Rmult_le_reg_r (maxValue spectrumData)); [lra|].
        unfold Rdiv. rewrite Rmult_assoc, Rinv_l by lra. lra. }
    destruct (Rlt_dec 0 value) as [Hvpos|Hvzero].
    + assert (Hlt : Exact.lt 0 value = true)
        by (unfold Exact.lt; destruct (Rlt_dec 0 value); [reflexivity | contradiction]).
      rewrite !Hlt.
      set (h := Rmax (nv * (230 - 25)) 2).
      assert (Hh : 2 <= h <= 205).
      { unfold h. split; [apply Rmax_r|]. apply Rmax_lub; nra. }
      unfold Exact.lt. destruct (Rlt_dec 0 h) as [_|Hbad]; [|lra].
      cbn [bar_x bar_y barWidth barHeight].
      split; [exact Hvpos|]. split; [exact Hlenidx|].
      destruct Hposn as [Hp0 Hp1]. clearbody pos.
      split; [split; nra|]. split; [lra|]. split; [lra|]. split; [lra|].
      apply Rmax_r.
    + assert (Hz : value = 0) by lra.
      assert (Hnvz : nv = 0) by (unfold nv; rewrite Hz; unfold Rdiv; lra).
      assert (Hlt : Exact.lt 0 value = false)
        by (unfold Exact.lt; destruct (Rlt_dec 0 value); [contradiction | reflexivity]).
      rewrite !Hlt, Hnvz, Rmult_0_l. unfold Rmax.
      destruct (Rle_dec 0 0) as [_|Hbad]; [|lra].
      unfold Exact.lt. destruct (Rlt_dec 0 0) as [Hbad|_]; [lra|].
      left. exact Hz.
Qed.

End BarFacts.

Lemma bars_inside_plot_witness :
  match barOf [0; 0; 7]%R 2 7%R with
  | Some b => (45 <= bar_x b < 600)%R
  | None => False
  end.
Proof.
  pose proof (bars_inside_plot [0; 0; 7]%R 2 7%R eq_refl) as H.
  assert (Hpos : Forall (fun v => 0 <= v)%R [0; 0; 7]%R)
    by (repeat (apply Forall_cons; [lra|]); apply Forall_nil).
  specialize (H Hpos).
  destruct (barOf [0; 0; 7]%R 2 7%R) as [b|].
  - apply H.
  - destruct H as [H|H]; [lra | cbn in H; lia].
Defined.
